(** * Minuet kernel-map builder: a shallow embedding of [minuet_map.cpp]

    The development follows the pipeline of the C++ unit:
    coordinate codec, RDX (sort and deduplicate), QRY (query construction),
    PVT (tiles and pivots), LKP (the batched, multi-threaded lookup) and the
    two binary writers.

    Conventions.
    - C++ [int], [uint32_t] and [uint64_t] values are integers in [Z];
      unsigned wrap-around is written out with [mod].
    - [std::vector] is [list]; indices are [nat].
    - The process-wide [mem_trace] and [curr_phase] are threaded through a
      small state-and-exception monad.
    - The kernel map, a [std::map] from offset index to match list, is a
      [gmap Z (list (Z * Z))]. *)

From stdpp Require Import base numbers list gmap strings sorting.

Local Open Scope Z_scope.

(** * Coordinate codec *)

Record Coord3D := mkCoord { cx : Z; cy : Z; cz : Z }.

#[global] Instance Coord3D_eq_dec : EqDecision Coord3D.
Proof. solve_decision. Defined.

(** Modelled from the spec: [Coord3D] and its operations are declared in
    [minuet_map.hpp], which is not part of the unit.  The spec describes
    three signed integers packed into a 32-bit unsigned key with a fixed bit
    width per axis and a reversible layout, a component beyond the bit
    budget of its axis being an error that is flagged at least as a
    documented constraint.  Here the three fields have ten bits each, the x
    field in the most significant position; a component is masked to its
    field, and the bit budget is the predicate [representable] below, under
    which the statements about coordinates are made.  Components are C++
    [int]s; their arithmetic is taken without overflow. *)
Definition AXIS_BITS : Z := 10.
Definition AXIS_MASK : Z := 1023.

(** Modelled from the spec: [Coord3D::quantized] "integer-divides each axis
    by stride"; on C++ [int] operands this is truncating division. *)
Definition quantized (c : Coord3D) (stride : Z) : Coord3D :=
  mkCoord (cx c ÷ stride) (cy c ÷ stride) (cz c ÷ stride).

(** Modelled from the spec: [Coord3D::to_key] packs the three components
    into one unsigned key, each in its own field. *)
Definition to_key (c : Coord3D) : Z :=
  Z.lor (Z.lor (Z.shiftl (Z.land (cx c) AXIS_MASK) (2 * AXIS_BITS))
               (Z.shiftl (Z.land (cy c) AXIS_MASK) AXIS_BITS))
        (Z.land (cz c) AXIS_MASK).

(** Modelled from the spec: [Coord3D::from_key] reads the three fields back. *)
Definition from_key (k : Z) : Coord3D :=
  mkCoord (Z.land (Z.shiftr k (2 * AXIS_BITS)) AXIS_MASK)
          (Z.land (Z.shiftr k AXIS_BITS) AXIS_MASK)
          (Z.land k AXIS_MASK).

(** Modelled from the spec: component-wise addition, [operator+]. *)
Definition coord_add (a b : Coord3D) : Coord3D :=
  mkCoord (cx a + cx b) (cy a + cy b) (cz a + cz b).

(** Modelled from the spec: the bit budget of the codec, a component fits
    its field.  This is the documented constraint under which packing loses
    nothing. *)
Definition fits_axis (v : Z) : Prop := 0 <= v < 2 ^ AXIS_BITS.

Definition representable (c : Coord3D) : Prop :=
  fits_axis (cx c) /\ fits_axis (cy c) /\ fits_axis (cz c).

#[global] Instance representable_dec c : Decision (representable c).
Proof. unfold representable, fits_axis. apply _. Defined.

Record IndexedCoord := mkIndexed { coord : Coord3D; orig_idx : Z }.

#[global] Instance IndexedCoord_eq_dec : EqDecision IndexedCoord.
Proof. solve_decision. Defined.

#[global] Instance Coord3D_inhabited : Inhabited Coord3D :=
  populate (mkCoord 0 0 0).
#[global] Instance IndexedCoord_inhabited : Inhabited IndexedCoord :=
  populate (mkIndexed inhabitant 0).

(** [IndexedCoord::to_key] forwards to the coordinate. *)
Definition ic_to_key (ic : IndexedCoord) : Z := to_key (coord ic).

(** * Machine integers *)

Definition UINT32_MOD : Z := 2 ^ 32.
Definition UINT64_MOD : Z := 2 ^ 64.
Definition INT_MAX : Z := 2 ^ 31 - 1.

(** [static_cast<uint8_t>], [static_cast<uint32_t>] and 64-bit address
    arithmetic wrap modulo the width. *)
Definition to_u8 (v : Z) : Z := v mod 256.
Definition to_u32 (v : Z) : Z := v mod UINT32_MOD.
Definition to_u64 (v : Z) : Z := v mod UINT64_MOD.

(** [static_cast<int>] of an unsigned value: two's complement wrap. *)
Definition to_int (v : Z) : Z := (v + 2 ^ 31) mod UINT32_MOD - 2 ^ 31.

(** * Global state: the access trace and the current phase *)

Record MemoryAccessEntry := mkEntry {
  phase : Z; thread_id : Z; op : Z; tensor : Z; addr : Z
}.

#[global] Instance MemoryAccessEntry_eq_dec : EqDecision MemoryAccessEntry.
Proof. solve_decision. Defined.

Record Globals := mkGlobals {
  mem_trace : list MemoryAccessEntry;
  curr_phase : string
}.

(** The exception classes the unit throws, and the one fault of the unit
    that is not an exception: the integer division by zero of
    [i % g_config.NUM_THREADS], which has no defined behaviour in C++ and
    ends the process (SIGFPE) on the usual targets.  No handler of the unit
    catches it, and nothing is recorded after it. *)
Inductive Exn := OutOfRange | InvalidArgument | RuntimeError | DivisionByZero.

#[global] Instance Exn_eq_dec : EqDecision Exn.
Proof. solve_decision. Defined.

(** A computation over a state [St] either returns a value or throws, and
    leaves a state behind in both cases. *)
Inductive Result (St A : Type) :=
  | Ok (a : A) (g : St)
  | Throw (e : Exn) (g : St).
Arguments Ok {St A} a g.
Arguments Throw {St A} e g.

Definition ST (St A : Type) : Type := St -> Result St A.

#[global] Instance ST_ret {St} : MRet (ST St) := fun A a g => Ok a g.
#[global] Instance ST_bind {St} : MBind (ST St) := fun A B f m g =>
  match m g with
  | Ok a g' => f a g'
  | Throw e g' => Throw e g'
  end.

Definition throw {St A} (e : Exn) : ST St A := fun g => Throw e g.

(** The pipeline phases run over the globals. *)
Abbreviation M := (ST Globals).

Fixpoint forM_ {St A} (l : list A) (body : A -> ST St unit) : ST St unit :=
  match l with
  | [] => mret tt
  | x :: l' => _ ← body x; forM_ l' body
  end.

Definition get_curr_phase : M string := fun g => Ok (curr_phase g) g.

Definition set_curr_phase (phase_name : string) : M unit :=
  fun g => Ok tt (mkGlobals (mem_trace g) phase_name).

Definition push_trace (e : MemoryAccessEntry) : M unit :=
  fun g => Ok tt (mkGlobals (mem_trace g ++ [e]) (curr_phase g)).

(** ** Code tables *)

(** [bidict<std::string, int>]: the forward and the inverse map are both
    read with [at], which throws [std::out_of_range] on a missing key. *)
Definition bidict := list (string * Z).

Fixpoint forward_find (d : bidict) (name : string) : option Z :=
  match d with
  | [] => None
  | (n, c) :: d' => if decide (n = name) then Some c else forward_find d' name
  end.

Fixpoint inverse_find (d : bidict) (code : Z) : option string :=
  match d with
  | [] => None
  | (n, c) :: d' => if decide (c = code) then Some n else inverse_find d' code
  end.

Definition forward_at (d : bidict) (name : string) : M Z :=
  match forward_find d name with
  | Some c => mret c
  | None => throw OutOfRange
  end.

Definition inverse_at (d : bidict) (code : Z) : M string :=
  match inverse_find d code with
  | Some n => mret n
  | None => throw OutOfRange
  end.

Definition PHASES : bidict :=
  [("RDX", 0); ("QRY", 1); ("SRT", 2); ("PVT", 3); ("LKP", 4); ("GTH", 5);
   ("SCT", 6)]%string.

Definition TENSORS : bidict :=
  [("I", 0); ("QK", 1); ("QI", 2); ("QO", 3); ("PIV", 4); ("KM", 5);
   ("WC", 6); ("TILE", 7); ("IV", 8); ("GM", 9); ("WV", 10);
   ("Unknown", 255)]%string.

Definition OPS : bidict := [("R", 0); ("W", 1)]%string.

(** ** Runtime configuration *)

(** The fields of [g_config] that the unit reads. *)
Record Config := mkConfig {
  I_BASE : Z; QK_BASE : Z; QI_BASE : Z; QO_BASE : Z; PIV_BASE : Z;
  KM_BASE : Z; WO_BASE : Z; IV_BASE : Z; GM_BASE : Z; WV_BASE : Z;
  TILE_BASE : Z;
  NUM_THREADS : Z;
  SIZE_KEY : Z; SIZE_INT : Z; SIZE_WEIGHT : Z;
  debug : bool
}.

Section Pipeline.

Context (g_config : Config).

(** ** Memory tracing *)

(** [addr >= lo && addr < hi] *)
Definition in_range (a lo hi : Z) : bool :=
  bool_decide (lo <= a) && bool_decide (a < hi).

Definition addr_to_tensor (a : Z) : M Z :=
  if in_range a (I_BASE g_config) (QK_BASE g_config)
  then forward_at TENSORS "I"
  else if in_range a (QK_BASE g_config) (QI_BASE g_config)
  then forward_at TENSORS "QK"
  else if in_range a (QI_BASE g_config) (QO_BASE g_config)
  then forward_at TENSORS "QI"
  else if in_range a (QO_BASE g_config) (PIV_BASE g_config)
  then forward_at TENSORS "QO"
  else if in_range a (PIV_BASE g_config) (KM_BASE g_config)
  then forward_at TENSORS "PIV"
  else if in_range a (KM_BASE g_config) (WO_BASE g_config)
  then forward_at TENSORS "KM"
  else if in_range a (WO_BASE g_config) (IV_BASE g_config)
  then forward_at TENSORS "WC"
  else if in_range a (IV_BASE g_config) (GM_BASE g_config)
  then forward_at TENSORS "IV"
  else if in_range a (GM_BASE g_config) (WV_BASE g_config)
  then forward_at TENSORS "GM"
  else if in_range a (WV_BASE g_config)
                   (to_u64 (WV_BASE g_config + 2 * 2 ^ 32))
  then forward_at TENSORS "WV"
  else forward_at TENSORS "Unknown".

(** The entry [record_access] and the lookup workers build: the phase is
    the current one, the tensor is classified from the address. *)
Definition make_entry (tid : Z) (op_str : string) (a : Z)
  : M MemoryAccessEntry :=
  ph ← get_curr_phase;
  phase_id ← forward_at PHASES ph;
  op_id ← forward_at OPS op_str;
  tensor_id ← addr_to_tensor a;
  mret (mkEntry (to_u8 phase_id) (to_u8 tid) (to_u8 op_id)
                (to_u8 tensor_id) a).

Definition record_access (tid : Z) (op_str : string) (a : Z) : M unit :=
  e ← make_entry tid op_str a;
  push_trace e.

(** Byte address of element [i] of an array at [base]. *)
Definition elem_addr (base : Z) (i : Z) (size : Z) : Z :=
  to_u64 (base + i * size).

(** ** RDX: the simulated radix sort *)

(** [static_cast<int>(i % g_config.NUM_THREADS)]: the worker id charged
    with element [i].  With a thread count of zero the division faults. *)
Definition thread_of (i : nat) : M Z :=
  if decide (NUM_THREADS g_config = 0) then throw DivisionByZero
  else mret (to_int (Z.of_nat i mod NUM_THREADS g_config)).

(** One of the four passes: a read of every element, then a read and a
    write of every element, spread over the worker ids by
    [i % NUM_THREADS], which is computed anew for every element before its
    first access is recorded.  Nothing is sorted: the function returns its
    argument. *)
Definition radix_pass (N : nat) (base_addr : Z) : M unit :=
  _ ← forM_ (seq 0 N) (fun i =>
        t_id ← thread_of i;
        record_access t_id "R"
          (elem_addr base_addr (Z.of_nat i) (SIZE_KEY g_config)));
  forM_ (seq 0 N) (fun i =>
        t_id ← thread_of i;
        _ ← record_access t_id "R"
              (elem_addr base_addr (Z.of_nat i) (SIZE_KEY g_config));
        w ← inverse_at OPS 1;
        record_access t_id w
          (elem_addr base_addr (Z.of_nat i) (SIZE_KEY g_config))).

Definition radix_sort_with_memtrace (arr : list Z) (base_addr : Z)
  : M (list Z) :=
  let N := length arr in
  if decide (N = 0%nat) then mret arr
  else
    _ ← forM_ (seq 0 4) (fun _ => radix_pass N base_addr);
    mret arr.

(** ** RDX: sort and deduplicate *)

(** [std::stable_sort] with the comparator [a.first < b.first], as a stable
    insertion sort: an element is placed before the first element that does
    not compare less than it. *)
Fixpoint stable_insert (p : Z * Z) (l : list (Z * Z)) : list (Z * Z) :=
  match l with
  | [] => [p]
  | q :: l' =>
      if decide (q.1 < p.1) then q :: stable_insert p l' else p :: q :: l'
  end.

Definition stable_sort (l : list (Z * Z)) : list (Z * Z) :=
  foldr stable_insert [] l.

(** The pairs [(key, original_index)], in input order. *)
Definition idx_keys_pairs (in_coords : list Coord3D) (stride : Z)
  : list (Z * Z) :=
  imap (fun idx c => (to_key (quantized c stride), to_int (Z.of_nat idx)))
       in_coords.

(** The scan over the sorted pairs from index 1 on, [last_key] being the key
    of the last emitted entry. *)
Fixpoint dedup_scan (last_key : Z) (pairs : list (Z * Z))
  : list IndexedCoord :=
  match pairs with
  | [] => []
  | (k, i) :: rest =>
      if decide (k ≠ last_key)
      then mkIndexed (from_key k) i :: dedup_scan k rest
      else dedup_scan last_key rest
  end.

Definition dedup_sorted (pairs : list (Z * Z)) : list IndexedCoord :=
  match pairs with
  | [] => []
  | (k0, i0) :: rest => mkIndexed (from_key k0) i0 :: dedup_scan k0 rest
  end.

(** The printing under [g_config.debug] and on [std::cout] is not
    modelled, here and in the other phases. *)
Definition compute_unique_sorted_coords (in_coords : list Coord3D)
    (stride : Z) : M (list IndexedCoord) :=
  ph ← inverse_at PHASES 0;
  _ ← set_curr_phase ph;
  let pairs := idx_keys_pairs in_coords stride in
  let raw_keys := pairs.*1 in
  _ ← radix_sort_with_memtrace raw_keys (I_BASE g_config);
  let sorted := stable_sort pairs in
  mret (dedup_sorted sorted).

(** ** QRY: query construction *)

Record BuildQueriesResult := mkBuild {
  qry_keys : list IndexedCoord;
  qry_in_idx : list Z;
  qry_off_idx : list Z;
  wt_offsets : list Coord3D
}.

(** [for (size_t i = 0; i < v.size(); ++i) { ... v[i] ... }] with an
    accumulator. *)
Fixpoint fold_index {A St : Type} (f : St -> nat -> A -> St) (i : nat)
    (l : list A) (s : St) : St :=
  match l with
  | [] => s
  | x :: l' => fold_index f (S i) l' (f s i x)
  end.

(** The body of the inner loop: the four assignments at [glob_idx]. *)
Definition set_query (num_inputs off_idx : nat) (offset_val : Coord3D)
    (r : BuildQueriesResult) (in_idx : nat) (item : IndexedCoord)
  : BuildQueriesResult :=
  let glob_idx := (off_idx * num_inputs + in_idx)%nat in
  mkBuild
    (<[glob_idx := mkIndexed (coord_add (coord item) offset_val)
                             (orig_idx item)]> (qry_keys r))
    (<[glob_idx := to_int (Z.of_nat in_idx)]> (qry_in_idx r))
    (<[glob_idx := to_int (Z.of_nat off_idx)]> (qry_off_idx r))
    (<[glob_idx := offset_val]> (wt_offsets r)).

(** The four vectors after [resize]: value-initialised elements, every one
    of which is overwritten by the loops. *)
Definition resized_result (total_queries : nat) : BuildQueriesResult :=
  mkBuild (replicate total_queries inhabitant)
          (replicate total_queries 0)
          (replicate total_queries 0)
          (replicate total_queries inhabitant).

Definition build_coordinate_queries (uniq_coords : list IndexedCoord)
    (stride : Z) (off_coords : list Coord3D) : M BuildQueriesResult :=
  ph ← inverse_at PHASES 1;
  _ ← set_curr_phase ph;
  let num_inputs := length uniq_coords in
  let num_offsets := length off_coords in
  let total_queries := (num_inputs * num_offsets)%nat in
  mret (fold_index
          (fun r off_idx offset_val =>
             fold_index (set_query num_inputs off_idx offset_val)
                        0 uniq_coords r)
          0 off_coords (resized_result total_queries)).

(** ** PVT: tiles and pivots *)

Record TilesPivotsResult := mkTiles {
  tiles : list (list IndexedCoord);
  pivots : list IndexedCoord
}.

(** The elements [v[start], ..., v[end_ - 1]], none when [end_ <= start]. *)
Definition slice {A} (v : list A) (start end_ : Z) : list A :=
  take (Z.to_nat (end_ - start)) (drop (Z.to_nat start) v).

(** The tiling loop, [for (start = 0; start < size; start += tile size)],
    one iteration per tile.  With a positive tile size it is over after at
    most [length uniq_coords] iterations, the [fuel] that
    [create_tiles_and_pivots] gives it. *)
Fixpoint tiles_loop (uniq_coords : list IndexedCoord)
    (current_tile_size : Z) (fuel : nat) (start : Z)
    (result : TilesPivotsResult) : M TilesPivotsResult :=
  match fuel with
  | O => mret result
  | S fuel' =>
      let size := Z.of_nat (length uniq_coords) in
      if decide (start < size) then
        let end_ := Z.min (to_u64 (start + current_tile_size)) size in
        let current_tile := slice uniq_coords start end_ in
        let tiles' := tiles result ++ [current_tile] in
        result' ← match current_tile with
                  | [] => mret (mkTiles tiles' (pivots result))
                  | first :: _ =>
                      let pivots' := pivots result ++ [first] in
                      _ ← record_access 0 "W"
                            (elem_addr (PIV_BASE g_config)
                               (Z.of_nat (length pivots') - 1)
                               (SIZE_KEY g_config));
                      mret (mkTiles tiles' pivots')
                  end;
        tiles_loop uniq_coords current_tile_size fuel'
          (to_u64 (start + current_tile_size)) result'
      else mret result
  end.

Definition create_tiles_and_pivots (uniq_coords : list IndexedCoord)
    (tile_size_param : Z) : M TilesPivotsResult :=
  ph ← inverse_at PHASES 3;
  _ ← set_curr_phase ph;
  let result := mkTiles [] [] in
  match uniq_coords with
  | [] => mret result
  | _ :: _ =>
      let fallback := to_int (Z.of_nat (length uniq_coords)) in
      if decide (tile_size_param <= 0 /\ fallback = 0) then mret result
      else
        let current_tile_size :=
          if decide (tile_size_param <= 0) then fallback
          else tile_size_param in
        tiles_loop uniq_coords current_tile_size (length uniq_coords) 0
                   result
  end.

(** ** LKP: the lookup engine *)

(** The kernel map: offset index to the list of
    [(input_idx, query_src_idx)] pairs.  [kmap[o].emplace_back(p)] creates
    the list of [o] when it is absent. *)
Definition kmap_append (o : Z) (p : Z * Z) (kmap : gmap Z (list (Z * Z)))
  : gmap Z (list (Z * Z)) :=
  <[o := (kmap !!! o) ++ [p]]> kmap.

(** State shared by the workers of a run besides the global trace: the
    kernel map (guarded by [kmap_update_mutex]) and the atomic counter
    [kmap_write_idx_atomic]. *)
Record KmState := mkKm {
  km_map : gmap Z (list (Z * Z));
  km_write_idx : Z
}.

Section Lookup.

Context (uniq_coords : list IndexedCoord) (qry_keys_v : list IndexedCoord)
        (qry_off_idx_v : list Z)
        (tiles_v : list (list IndexedCoord)) (pivs : list IndexedCoord)
        (tile_size_param : Z).

(** [record_access_local]: the entry goes to the worker's private buffer. *)
Definition record_access_local (t_id : Z) (op_str : string) (addr_val : Z)
    (local : list MemoryAccessEntry) : M (list MemoryAccessEntry) :=
  e ← make_entry t_id op_str addr_val;
  mret (local ++ [e]).

(** The binary search over the pivots: [while (low <= high)].  The interval
    shrinks at every iteration, so [length pivs] iterations are enough. *)
Fixpoint pivot_search (fuel : nat) (tid : Z) (current_query_key : Z)
    (low high target_tile_id : Z) (local : list MemoryAccessEntry)
  : M (Z * list MemoryAccessEntry) :=
  match fuel with
  | O => mret (target_tile_id, local)
  | S fuel' =>
      if decide (low <= high) then
        let mid := low + (high - low) ÷ 2 in
        local' ← record_access_local tid "R"
                   (elem_addr (PIV_BASE g_config) mid (SIZE_KEY g_config))
                   local;
        if decide (ic_to_key (pivs !!! Z.to_nat mid) <= current_query_key)
        then pivot_search fuel' tid current_query_key (mid + 1) high mid
                          local'
        else pivot_search fuel' tid current_query_key low (mid - 1)
                          target_tile_id local'
      else mret (target_tile_id, local)
  end.

Definition find_tile_id (tid : Z) (current_query_key : Z)
    (local : list MemoryAccessEntry) : M (Z * list MemoryAccessEntry) :=
  match pivs with
  | [] => mret (-1, local)
  | _ :: _ =>
      pivot_search (length pivs) tid current_query_key
        0 (to_int (Z.of_nat (length pivs)) - 1) 0 local
  end.

(** The linear scan of one tile from element [local_idx_in_tile] on; the
    result is the [orig_idx] of the first element whose key is the query
    key, if there is one, the scan stopping there. *)
Fixpoint tile_scan (tid : Z) (current_query_key : Z) (target_tile_id : Z)
    (local_idx_in_tile : nat) (rest : list IndexedCoord)
    (local : list MemoryAccessEntry)
  : M (option Z * list MemoryAccessEntry) :=
  match rest with
  | [] => mret (None, local)
  | tile_indexed_coord :: rest' =>
      let size := Z.of_nat (length uniq_coords) in
      let approx0 :=
        to_u64 (target_tile_id * tile_size_param
                + Z.of_nat local_idx_in_tile) in
      let approx :=
        if decide (size <= approx0)
        then (if decide (size = 0) then 0 else size - 1)
        else approx0 in
      local' ← record_access_local tid "R"
                 (elem_addr (TILE_BASE g_config) approx (SIZE_KEY g_config))
                 local;
      if decide (ic_to_key tile_indexed_coord = current_query_key)
      then mret (Some (orig_idx tile_indexed_coord), local')
      else tile_scan tid current_query_key target_tile_id
                     (S local_idx_in_tile) rest' local'
  end.

(** Everything a worker does for the query [q_glob_idx] up to and including
    the decision whether there is a match; nothing shared is touched.  A
    match is the offset index together with the pair for its list. *)
Definition lookup_query (tid : Z) (q_glob_idx : nat)
    (local : list MemoryAccessEntry)
  : M (option (Z * (Z * Z)) * list MemoryAccessEntry) :=
  let q_key_item := qry_keys_v !!! q_glob_idx in
  let current_query_key := ic_to_key q_key_item in
  let query_original_src_idx := orig_idx q_key_item in
  let current_query_offset_list_idx := qry_off_idx_v !!! q_glob_idx in
  local1 ← record_access_local tid "R"
             (elem_addr (QK_BASE g_config) (Z.of_nat q_glob_idx)
                        (SIZE_KEY g_config))
             local;
  '(target_tile_id, local2) ← find_tile_id tid current_query_key local1;
  if decide (target_tile_id ≠ -1
             /\ target_tile_id < to_int (Z.of_nat (length tiles_v)))
  then
    '(found, local3) ←
      tile_scan tid current_query_key target_tile_id 0
                (tiles_v !!! Z.to_nat target_tile_id) local2;
    mret (match found with
          | Some input_idx_from_uniq_coords =>
              Some (current_query_offset_list_idx,
                    (input_idx_from_uniq_coords, query_original_src_idx))
          | None => None
          end, local3)
  else mret (None, local2).

(** *** Workers *)

(** A worker thread between two of its atomic actions: the queries it has
    still to process, whether it has appended a match and not yet drawn its
    write offset from the atomic counter, its private trace buffer, and
    whether it has merged that buffer into the global trace. *)
Record Worker := mkWorker {
  w_tid : Z;
  w_todo : list nat;
  w_pending : bool;
  w_local : list MemoryAccessEntry;
  w_merged : bool
}.

Definition worker_done (w : Worker) : bool :=
  bool_decide (w_todo w = []) && negb (w_pending w) && w_merged w.

(** One scheduling quantum of a worker: the private work up to its next
    action on shared state, and that action. *)
Definition worker_step (w : Worker) (k : KmState) : M (Worker * KmState) :=
  if w_pending w then
    let current_kmap_write_offset := km_write_idx k in
    let k' := mkKm (km_map k) (to_u64 (current_kmap_write_offset + 1)) in
    wr ← inverse_at OPS 1;
    local' ← record_access_local (w_tid w) wr
               (elem_addr (KM_BASE g_config) current_kmap_write_offset
                          (SIZE_INT g_config))
               (w_local w);
    mret (mkWorker (w_tid w) (w_todo w) false local' (w_merged w), k')
  else
    match w_todo w with
    | q_glob_idx :: todo' =>
        if decide (length qry_keys_v <= q_glob_idx)%nat
        then mret (mkWorker (w_tid w) todo' false (w_local w) (w_merged w), k)
        else
          '(found, local') ← lookup_query (w_tid w) q_glob_idx (w_local w);
          match found with
          | Some (o, p) =>
              mret (mkWorker (w_tid w) todo' true local' (w_merged w),
                    mkKm (kmap_append o p (km_map k)) (km_write_idx k))
          | None =>
              mret (mkWorker (w_tid w) todo' false local' (w_merged w), k)
          end
    | [] =>
        if w_merged w then mret (w, k)
        else
          _ ← (fun g => Ok tt (mkGlobals (mem_trace g ++ w_local w)
                                         (curr_phase g)));
          mret (mkWorker (w_tid w) [] false (w_local w) true, k)
    end.

(** A schedule names, quantum by quantum, the worker that runs next. *)
Fixpoint run_schedule (sched : list nat) (pool : list Worker) (k : KmState)
  : M (list Worker * KmState) :=
  match sched with
  | [] => mret (pool, k)
  | i :: sched' =>
      match pool !! i with
      | Some w =>
          '(w', k') ← worker_step w k;
          run_schedule sched' (<[i := w']> pool) k'
      | None => run_schedule sched' pool k
      end
  end.

(** The quanta a worker needs to finish: two per query and the merge. *)
Definition quanta_left (w : Worker) : nat :=
  (2 * length (w_todo w) + 2)%nat.

(** Joining the pool: every worker runs to its end. *)
Definition join_schedule (pool : list Worker) : list nat :=
  mjoin (imap (fun i w => replicate (quanta_left w) i) pool).

(** The workers of one batch, one per non-empty sub-range. *)
Definition spawn_workers (batch_start current_batch_size : nat)
    (num_hw_threads : nat) : list Worker :=
  let portion_size :=
    ((current_batch_size + num_hw_threads - 1) / num_hw_threads)%nat in
  omap (fun tid =>
          let thread_start_in_batch := (tid * portion_size)%nat in
          let thread_end_in_batch :=
            Nat.min (thread_start_in_batch + portion_size)
                    current_batch_size in
          if decide (thread_start_in_batch < current_batch_size)%nat
          then Some (mkWorker (Z.of_nat tid)
                       (seq (batch_start + thread_start_in_batch)
                            (thread_end_in_batch - thread_start_in_batch))
                       false [] false)
          else None)
       (seq 0 num_hw_threads).

Definition BATCH_SIZE : nat := 128.

(** One batch: the pool is created, its workers interleave as [sched]
    says, and the join lets every worker finish. *)
Definition run_batch (sched : list nat) (batch_idx : nat) (k : KmState)
  : M KmState :=
  let qry_count := length qry_keys_v in
  let batch_start := (batch_idx * BATCH_SIZE)%nat in
  let current_batch_size := Nat.min BATCH_SIZE (qry_count - batch_start) in
  let num_hw_threads := Z.to_nat (to_u32 (NUM_THREADS g_config)) in
  let pool := spawn_workers batch_start current_batch_size num_hw_threads in
  '(pool1, k1) ← run_schedule sched pool k;
  '(_, k2) ← run_schedule (join_schedule pool1) pool1 k1;
  mret k2.

(** The loop over the batches; it is left at a batch without queries. *)
Fixpoint run_batches (scheds : nat -> list nat) (batches : list nat)
    (k : KmState) : M KmState :=
  match batches with
  | [] => mret k
  | batch_idx :: batches' =>
      let qry_count := length qry_keys_v in
      let batch_start := (batch_idx * BATCH_SIZE)%nat in
      let current_batch_size :=
        Nat.min BATCH_SIZE (qry_count - batch_start) in
      if decide (current_batch_size = 0%nat) then mret k
      else
        k' ← run_batch (scheds batch_idx) batch_idx k;
        run_batches scheds batches' k'
  end.

(** [scheds] gives the interleaving of the workers of every batch. *)
Definition perform_coordinate_lookup (scheds : nat -> list nat)
  : M (gmap Z (list (Z * Z))) :=
  ph ← inverse_at PHASES 4;
  _ ← set_curr_phase ph;
  let kmap : gmap Z (list (Z * Z)) := ∅ in
  if decide (uniq_coords = [] \/ qry_keys_v = []) then mret kmap
  else
    let qry_count := length qry_keys_v in
    let num_batches := ((qry_count + BATCH_SIZE - 1) / BATCH_SIZE)%nat in
    k ← run_batches scheds (seq 0 num_batches) (mkKm kmap 0);
    _ ← set_curr_phase "";
    mret (km_map k).

End Lookup.


End Pipeline.

(** * Binary writers *)

(** What the environment lets a writer do: whether [gzopen] succeeds, and
    which [gzwrite] call, counted from 0, fails, if any. *)
Record IoEnv := mkIo {
  open_ok : bool;
  write_fail_at : option nat
}.

(** The stream being produced: the uncompressed payload accepted so far,
    the number of [gzwrite] calls made, the running checksum, whether the
    file has been created, whether it is still open, and the offset indices
    reported on [std::cerr]. *)
Record WriterState := mkWriter {
  ws_payload : list Z;
  ws_writes : nat;
  ws_crc : Z;
  ws_created : bool;
  ws_open : bool;
  ws_stderr : list Z
}.

Definition fresh_writer : WriterState := mkWriter [] 0 0 false false [].

(** The bytes of a [w]-byte unsigned integer in memory, least significant
    first (the writers copy host memory; the host is little-endian). *)
Definition le_bytes (w : Z) (v : Z) : list Z := Z_to_little_endian w 8 v.
#[global] Arguments le_bytes : simpl never.

(** Modelled from the spec: [get_sorted_items] of the kernel-map type is
    declared in [minuet_map.hpp]; it returns the (offset index, list) pairs
    by descending list length.  Pairs of equal length are put in ascending
    offset-index order. *)
Definition item_before (a b : Z * list (Z * Z)) : Prop :=
  (length b.2 < length a.2)%nat
  \/ (length a.2 = length b.2 /\ a.1 <= b.1).

#[global] Instance item_before_dec a b : Decision (item_before a b).
Proof. unfold item_before. apply _. Defined.

Definition get_sorted_items (kmap : gmap Z (list (Z * Z)))
  : list (Z * list (Z * Z)) :=
  merge_sort item_before (map_to_list kmap).

Section Writers.

(** [crc32] of zlib: the checksum after [data], from the checksum before. *)
Context (crc32 : Z -> list Z -> Z).
Context (env : IoEnv).

Definition gzopen : ST WriterState unit := fun st =>
  if open_ok env
  then Ok tt (mkWriter [] 0 (ws_crc st) true true (ws_stderr st))
  else Throw RuntimeError st.

Definition gzclose : ST WriterState unit := fun st =>
  Ok tt (mkWriter (ws_payload st) (ws_writes st) (ws_crc st)
                  (ws_created st) false (ws_stderr st)).

Definition crc_init : ST WriterState unit := fun st =>
  Ok tt (mkWriter (ws_payload st) (ws_writes st) (crc32 0 [])
                  (ws_created st) (ws_open st) (ws_stderr st)).

Definition get_crc : ST WriterState Z := fun st => Ok (ws_crc st) st.

(** The lambda [write_and_crc]: a failed [gzwrite] closes the file and
    throws; otherwise the checksum runs on. *)
Definition write_and_crc (data : list Z) : ST WriterState unit := fun st =>
  if decide (write_fail_at env = Some (ws_writes st))
  then Throw RuntimeError
         (mkWriter (ws_payload st) (S (ws_writes st)) (ws_crc st)
                   (ws_created st) false (ws_stderr st))
  else Ok tt
         (mkWriter (ws_payload st ++ data) (S (ws_writes st))
                   (crc32 (ws_crc st) data)
                   (ws_created st) (ws_open st) (ws_stderr st)).

Definition log_error (offset_idx : Z) : ST WriterState unit := fun st =>
  Ok tt (mkWriter (ws_payload st) (ws_writes st) (ws_crc st)
                  (ws_created st) (ws_open st)
                  (ws_stderr st ++ [offset_idx])).

Definition write_entry (sizeof_addr : Z) (entry : MemoryAccessEntry)
  : ST WriterState unit :=
  _ ← write_and_crc (le_bytes 1 (phase entry));
  _ ← write_and_crc (le_bytes 1 (thread_id entry));
  _ ← write_and_crc (le_bytes 1 (op entry));
  _ ← write_and_crc (le_bytes 1 (tensor entry));
  if decide (sizeof_addr = 4)
  then write_and_crc (le_bytes 4 (to_u32 (addr entry)))
  else write_and_crc (le_bytes 8 (addr entry)).

(** [write_gmem_trace]; the trace written is the global [mem_trace]. *)
Definition write_gmem_trace (mem_trace_v : list MemoryAccessEntry)
    (sizeof_addr : Z) : ST WriterState Z :=
  _ ← gzopen;
  if decide (sizeof_addr ≠ 4 /\ sizeof_addr ≠ 8)
  then _ ← gzclose; throw InvalidArgument
  else
    _ ← crc_init;
    let num_entries := to_u32 (Z.of_nat (length mem_trace_v)) in
    _ ← write_and_crc (le_bytes 4 num_entries);
    _ ← forM_ mem_trace_v (write_entry sizeof_addr);
    _ ← gzclose;
    get_crc.

(** The first loop of [write_kernel_map_to_gz]: the 32-bit running sum of
    the list sizes. *)
Definition count_total_entries (kmap_data : gmap Z (list (Z * Z))) : Z :=
  foldr (fun pair num_total_entries =>
           to_u32 (num_total_entries + to_u32 (Z.of_nat (length pair.2))))
        0 (map_to_list kmap_data).

Definition write_match (packed_offset_key_to_write : Z) (match_ : Z * Z)
  : ST WriterState unit :=
  let input_idx := to_u32 match_.1 in
  let query_src_orig_idx := to_u32 match_.2 in
  _ ← write_and_crc (le_bytes 4 packed_offset_key_to_write);
  _ ← write_and_crc (le_bytes 4 input_idx);
  write_and_crc (le_bytes 4 query_src_orig_idx).

Definition write_group (off_list : list Coord3D)
    (pair : Z * list (Z * Z)) : ST WriterState unit :=
  let offset_idx := to_u32 pair.1 in
  if decide (Z.of_nat (length off_list) <= offset_idx)
  then log_error offset_idx
  else
    let actual_offset_coord := off_list !!! Z.to_nat offset_idx in
    let packed_offset_key_to_write := to_key actual_offset_coord in
    forM_ pair.2 (write_match packed_offset_key_to_write).

Definition write_kernel_map_to_gz (kmap_data : gmap Z (list (Z * Z)))
    (off_list : list Coord3D) : ST WriterState Z :=
  _ ← gzopen;
  _ ← crc_init;
  let num_total_entries := count_total_entries kmap_data in
  _ ← write_and_crc (le_bytes 4 num_total_entries);
  _ ← forM_ (get_sorted_items kmap_data) (write_group off_list);
  _ ← gzclose;
  get_crc.

End Writers.

(** * Notions used by the statements *)

(** The packed key of a raw input coordinate. *)
Definition key_of (stride : Z) (c : Coord3D) : Z :=
  to_key (quantized c stride).

(** The (key, original index) sequence of the statement, read off the
    input: the packed key of the quantized coordinate at every input index,
    paired with that index. *)
Definition key_index_pairs (in_coords : list Coord3D) (stride : Z)
  : list (Z * Z) :=
  zip (key_of stride <$> in_coords)
      (Z.of_nat <$> seq 0 (length in_coords)).

(** The first pair carrying the key [k]. *)
Definition first_with_key (k : Z) (pairs : list (Z * Z)) : option (Z * Z) :=
  head (filter (fun p => p.1 = k) pairs).

(** [sorted] is a stable sorting of [pairs] by key: ascending keys, and the
    pairs of every key in the order they have in [pairs]. *)
Definition stably_sorted (pairs sorted : list (Z * Z)) : Prop :=
  StronglySorted (fun p q => p.1 <= q.1) sorted
  /\ forall k, filter (fun p => p.1 = k) sorted
               = filter (fun p => p.1 = k) pairs.

(** The pairs the deduplicating scan keeps. *)
Fixpoint select_scan (last_key : Z) (pairs : list (Z * Z)) : list (Z * Z) :=
  match pairs with
  | [] => []
  | p :: rest =>
      if decide (p.1 ≠ last_key) then p :: select_scan p.1 rest
      else select_scan last_key rest
  end.

Definition select_sorted (pairs : list (Z * Z)) : list (Z * Z) :=
  match pairs with
  | [] => []
  | p :: rest => p :: select_scan p.1 rest
  end.

Definition to_indexed (p : Z * Z) : IndexedCoord :=
  mkIndexed (from_key p.1) p.2.

(** Everything stored for the query at global index [j]. *)
Definition query_at (r : BuildQueriesResult) (j : nat)
  : option (IndexedCoord * Z * Z * Coord3D) :=
  k ← qry_keys r !! j;
  a ← qry_in_idx r !! j;
  b ← qry_off_idx r !! j;
  w ← wt_offsets r !! j;
  Some (k, a, b, w).

(** The four vectors have [n] elements each. *)
Definition sized (r : BuildQueriesResult) (n : nat) : Prop :=
  length (qry_keys r) = n /\ length (qry_in_idx r) = n
  /\ length (qry_off_idx r) = n /\ length (wt_offsets r) = n.

(** What the QRY loops store for coordinate [ic] at index [i] and offset
    [off] at index [o]. *)
Definition query_entry (o : nat) (off : Coord3D) (i : nat)
    (ic : IndexedCoord) : IndexedCoord * Z * Z * Coord3D :=
  (mkIndexed (coord_add (coord ic) off) (orig_idx ic),
   to_int (Z.of_nat i), to_int (Z.of_nat o), off).

(** The current phase is one of the table. *)
Definition phase_ok (g : Globals) : Prop :=
  is_Some (forward_find PHASES (curr_phase g)).

(** [m] returns [a] and at most extends the trace. *)
Definition emits {A} (m : M A) (a : A) : Prop :=
  forall g, phase_ok g ->
    exists tr, m g = Ok a (mkGlobals (mem_trace g ++ tr) (curr_phase g)).

(** [m] returns a value satisfying [P] and at most extends the trace. *)
Definition returns {A} (m : M A) (P : A -> Prop) : Prop :=
  forall g, phase_ok g ->
    exists a tr,
      m g = Ok a (mkGlobals (mem_trace g ++ tr) (curr_phase g)) /\ P a.

(** Tiles and pivots are aligned: every tile is non-empty and its pivot is
    its first element. *)
Definition pivots_aligned (tiles_v : list (list IndexedCoord))
    (pivots_v : list IndexedCoord) : Prop :=
  Forall2 (fun tile piv => head tile = Some piv) tiles_v pivots_v.

(** ** The lookup, query by query *)

Section LookupNotions.

Context (qry_keys_v : list IndexedCoord) (qry_off_idx_v : list Z)
        (tiles_v : list (list IndexedCoord)) (pivs : list IndexedCoord).

(** The key of pivot [j]. *)
Definition pivot_key (j : Z) : Z := ic_to_key (pivs !!! Z.to_nat j).

(** The tile index the binary search ends with. *)
Fixpoint pivot_target (fuel : nat) (current_query_key : Z)
    (low high target_tile_id : Z) : Z :=
  match fuel with
  | O => target_tile_id
  | S fuel' =>
      if decide (low <= high) then
        let mid := low + (high - low) ÷ 2 in
        if decide (ic_to_key (pivs !!! Z.to_nat mid) <= current_query_key)
        then pivot_target fuel' current_query_key (mid + 1) high mid
        else pivot_target fuel' current_query_key low (mid - 1)
                          target_tile_id
      else target_tile_id
  end.

Definition tile_id (current_query_key : Z) : Z :=
  match pivs with
  | [] => -1
  | _ :: _ =>
      pivot_target (length pivs) current_query_key
        0 (to_int (Z.of_nat (length pivs)) - 1) 0
  end.

(** The [orig_idx] of the first element of a tile with the query key. *)
Fixpoint tile_match (current_query_key : Z) (tile : list IndexedCoord)
  : option Z :=
  match tile with
  | [] => None
  | ic :: rest =>
      if decide (ic_to_key ic = current_query_key)
      then Some (orig_idx ic)
      else tile_match current_query_key rest
  end.

(** The number of tile elements the scan reads. *)
Fixpoint scan_reads (current_query_key : Z) (tile : list IndexedCoord)
  : nat :=
  match tile with
  | [] => 0
  | ic :: rest =>
      if decide (ic_to_key ic = current_query_key) then 1
      else S (scan_reads current_query_key rest)
  end.

(** The match of query [q], if it has one: the offset index and the pair
    that goes to its list. *)
Definition query_match (q : nat) : option (Z * (Z * Z)) :=
  if decide (length qry_keys_v <= q)%nat then None
  else
    let q_key_item := qry_keys_v !!! q in
    let t := tile_id (ic_to_key q_key_item) in
    if decide (t ≠ -1 /\ t < to_int (Z.of_nat (length tiles_v)))
    then
      match tile_match (ic_to_key q_key_item) (tiles_v !!! Z.to_nat t) with
      | Some input_idx =>
          Some (qry_off_idx_v !!! q, (input_idx, orig_idx q_key_item))
      | None => None
      end
    else None.

(** The kernel map after the queries of [log] have been processed in that
    order, each contributing its match, if it has one. *)
Definition apply_match (kmap : gmap Z (list (Z * Z))) (q : nat)
  : gmap Z (list (Z * Z)) :=
  match query_match q with
  | Some (o, p) => kmap_append o p kmap
  | None => kmap
  end.

Definition apply_matches (log : list nat) (kmap : gmap Z (list (Z * Z)))
  : gmap Z (list (Z * Z)) :=
  foldl apply_match kmap log.

End LookupNotions.

(** ** Pools of workers *)

(** The quanta a worker still needs before it is done. *)
Definition work_left (w : Worker) : nat :=
  (2 * length (w_todo w) + (if w_pending w then 1 else 0)
   + (if w_merged w then 0 else 1))%nat.

(** The queries the workers of a pool have still to process. *)
Definition pool_todos (pool : list Worker) : list nat :=
  mjoin (w_todo <$> pool).

(** The number of quanta a schedule gives worker [i]. *)
Definition quanta (i : nat) (sched : list nat) : nat :=
  length (filter (fun j => j = i) sched).

(** The queries of batch [batch_idx] among [qry_count] queries. *)
Definition batch_range (qry_count batch_idx : nat) : list nat :=
  seq (batch_idx * BATCH_SIZE)
      (Nat.min BATCH_SIZE (qry_count - batch_idx * BATCH_SIZE)).

(** A trace entry at the address of an element of the array at [base]. *)
Definition reads_array (base size : Z) (e : MemoryAccessEntry) : Prop :=
  exists i, addr e = elem_addr base i size.

(** ** The four phases in a row *)

(** Modelled from the spec: the driver that chains the phases is not part
    of the unit; the data flows RDX, QRY, PVT, LKP, the lookup taking the
    unique coordinates, the query keys and offset indices, and the tiles
    and pivots. *)
Definition run_pipeline (g_config : Config) (in_coords : list Coord3D)
    (stride : Z) (off_coords : list Coord3D) (tile_size : Z)
    (scheds : nat -> list nat)
  : M (list IndexedCoord * BuildQueriesResult * TilesPivotsResult
       * gmap Z (list (Z * Z))) :=
  uniq ← compute_unique_sorted_coords g_config in_coords stride;
  Q ← build_coordinate_queries uniq stride off_coords;
  T ← create_tiles_and_pivots g_config uniq tile_size;
  kmap ← perform_coordinate_lookup g_config uniq (qry_keys Q) (qry_off_idx Q)
            (tiles T) (pivots T) tile_size scheds;
  mret (uniq, Q, T, kmap).

(** The input of the concrete scenario of the spec. *)
Definition scenario_coords : list Coord3D :=
  [mkCoord 0 0 0; mkCoord 1 0 0; mkCoord 0 0 0].
Definition scenario_offsets : list Coord3D := [mkCoord 1 0 0].
Definition scenario_unique : list IndexedCoord :=
  [mkIndexed (mkCoord 0 0 0) 0; mkIndexed (mkCoord 1 0 0) 1].


(** Every batch runs its workers one after the other. *)
Definition sequential : nat -> list nat := fun _ => [].

(** ** The written formats *)

(** One trace record: phase, thread id, op, tensor, address. *)
Definition trace_record (sizeof_addr : Z) (e : MemoryAccessEntry) : list Z :=
  le_bytes 1 (phase e) ++ le_bytes 1 (thread_id e) ++ le_bytes 1 (op e)
  ++ le_bytes 1 (tensor e)
  ++ (if decide (sizeof_addr = 4) then le_bytes 4 (to_u32 (addr e))
      else le_bytes 8 (addr e)).

(** One kernel-map record: packed offset key, input index, query source. *)
Definition match_record (key : Z) (m : Z * Z) : list Z :=
  le_bytes 4 key ++ le_bytes 4 (to_u32 m.1) ++ le_bytes 4 (to_u32 m.2).

(** The offset index of a group does not index the offset list. *)
Definition out_of_bounds (off_list : list Coord3D)
    (grp : Z * list (Z * Z)) : Prop :=
  Z.of_nat (length off_list) <= to_u32 grp.1.

#[global] Instance out_of_bounds_dec off_list grp :
  Decision (out_of_bounds off_list grp).
Proof. unfold out_of_bounds. apply _. Defined.

(** The records of one group: none when its offset index is out of bounds,
    else one per match. *)
Definition group_records (off_list : list Coord3D)
    (grp : Z * list (Z * Z)) : list (list Z) :=
  if decide (out_of_bounds off_list grp) then []
  else match_record (to_key (off_list !!! Z.to_nat (to_u32 grp.1))) <$> grp.2.

Definition group_log (off_list : list Coord3D)
    (grp : Z * list (Z * Z)) : list Z :=
  if decide (out_of_bounds off_list grp) then [to_u32 grp.1] else [].

(** The sum of all match-list lengths. *)
Definition total_matches (kmap : gmap Z (list (Z * Z))) : nat :=
  sum_list ((fun grp => length grp.2) <$> map_to_list kmap).

(** [m] succeeds, appending [bytes] to the payload and [log] to the error
    stream. *)
Definition appends (m : ST WriterState unit) (bytes log : list Z) : Prop :=
  forall st, exists c n,
    m st = Ok tt (mkWriter (ws_payload st ++ bytes) (ws_writes st + n) c
                           (ws_created st) (ws_open st)
                           (ws_stderr st ++ log)).

(** An environment in which the file opens and every write succeeds. *)
Definition io_ok : IoEnv := mkIo true None.

(** The CRC-32 of zlib (reflected polynomial [0xEDB88320]), usable where a
    concrete checksum is wanted. *)
Definition crc32_bit (c : Z) : Z :=
  if Z.testbit c 0 then Z.lxor (Z.shiftr c 1) 3988292384 else Z.shiftr c 1.

Definition crc32_byte (c : Z) (b : Z) : Z :=
  let c0 := Z.lxor c b in
  crc32_bit (crc32_bit (crc32_bit (crc32_bit
    (crc32_bit (crc32_bit (crc32_bit (crc32_bit c0))))))).

Definition zlib_crc32 (crc : Z) (data : list Z) : Z :=
  Z.lxor (foldl crc32_byte (Z.lxor crc 4294967295) data) 4294967295.

(** ** A concrete configuration *)

(** Region bases in ascending order, four threads, 4-byte elements. *)
Definition example_config : Config :=
  mkConfig 268435456 536870912 805306368 1073741824 1342177280
           1610612736 1879048192 2147483648 2415919104 2684354560
           2952790016
           4 4 4 4 false.

Definition initial_globals : Globals := mkGlobals [] "".

(** Two one-group kernel maps: offset index 0, and offset index 5. *)
Definition kmap_at_0 : gmap Z (list (Z * Z)) := {[ 0%Z := [(1%Z, 0%Z)] ]}.
Definition kmap_at_5 : gmap Z (list (Z * Z)) := {[ 5%Z := [(1%Z, 0%Z)] ]}.

(** Globals during the LKP phase, before any access is recorded. *)
Definition lkp_globals : Globals := mkGlobals [] "LKP".

(** One pivot and one tile holding the coordinate (0,0,5), and one query for
    the coordinate (0,0,3), whose key is below the only pivot. *)
Definition lone_pivot : IndexedCoord := mkIndexed (mkCoord 0 0 5) 7.
Definition low_query : IndexedCoord := mkIndexed (mkCoord 0 0 3) 0.

(** * The remaining functions of the unit, and further notions *)

(** ** Tracing *)

(** [try { body } catch (const std::out_of_range &) { handler }]: what the
    body did before it threw stays done. *)
Definition catch_out_of_range {St A} (body handler : ST St A) : ST St A :=
  fun g =>
    match body g with
    | Throw OutOfRange g' => handler g'
    | r => r
    end.

(** [addr_to_tensor_str]; the tensor id is held in a [uint8_t]. *)
Definition addr_to_tensor_str (g_config : Config) (a : Z) : M string :=
  tensor_id ← addr_to_tensor g_config a;
  catch_out_of_range (inverse_at TENSORS (to_u8 tensor_id))
                     (mret "Unknown"%string).

Definition get_mem_trace : M (list MemoryAccessEntry) :=
  fun g => Ok (mem_trace g) g.

Definition clear_mem_trace : M unit :=
  fun g => Ok tt (mkGlobals [] (curr_phase g)).

Definition clear_global_mem_trace : M unit :=
  fun g => Ok tt (mkGlobals [] (curr_phase g)).

(** The tensor code [addr_to_tensor] gives an address. *)
Definition tensor_of (g_config : Config) (a : Z) : Z :=
  match addr_to_tensor g_config a initial_globals with
  | Ok t _ => t
  | Throw _ _ => 255
  end.

(** The entry recorded for thread [tid], operation code [o] and address [a]
    while the phase with code [ph] is current. *)
Definition entry_of (g_config : Config) (ph tid o a : Z)
  : MemoryAccessEntry :=
  mkEntry (to_u8 ph) (to_u8 tid) (to_u8 o) (to_u8 (tensor_of g_config a)) a.

(** The region bases ascend from address 0 on, and the region of WV ends
    within the 64-bit address space. *)
Definition ascending_bases (c : Config) : Prop :=
  0 <= I_BASE c /\ I_BASE c <= QK_BASE c /\ QK_BASE c <= QI_BASE c
  /\ QI_BASE c <= QO_BASE c /\ QO_BASE c <= PIV_BASE c
  /\ PIV_BASE c <= KM_BASE c /\ KM_BASE c <= WO_BASE c
  /\ WO_BASE c <= IV_BASE c /\ IV_BASE c <= GM_BASE c
  /\ GM_BASE c <= WV_BASE c /\ WV_BASE c + 2 * 2 ^ 32 < UINT64_MOD.

(** In a phase with code [ph], [m] returns [a] and appends exactly the
    entries [tr ph] to the trace. *)
Definition traces {A} (m : M A) (a : A)
    (tr : Z -> list MemoryAccessEntry) : Prop :=
  forall g ph, forward_find PHASES (curr_phase g) = Some ph ->
    m g = Ok a (mkGlobals (mem_trace g ++ tr ph) (curr_phase g)).

(** The worker id the simulated radix sort charges element [i] to. *)
Definition radix_thread (g_config : Config) (i : nat) : Z :=
  to_int (Z.of_nat i mod NUM_THREADS g_config).

(** The accesses of one pass of the simulated radix sort over [N] keys at
    [base]: a read of every key, then a read and a write of every key. *)
Definition pass_trace (g_config : Config) (ph : Z) (N : nat) (base : Z)
  : list MemoryAccessEntry :=
  ((fun i => entry_of g_config ph (radix_thread g_config i) 0
               (elem_addr base (Z.of_nat i) (SIZE_KEY g_config)))
     <$> seq 0 N)
  ++ mjoin ((fun i =>
               [entry_of g_config ph (radix_thread g_config i) 0
                  (elem_addr base (Z.of_nat i) (SIZE_KEY g_config));
                entry_of g_config ph (radix_thread g_config i) 1
                  (elem_addr base (Z.of_nat i) (SIZE_KEY g_config))])
              <$> seq 0 N).

Definition radix_trace (g_config : Config) (ph : Z) (N : nat) (base : Z)
  : list MemoryAccessEntry :=
  mjoin (replicate 4 (pass_trace g_config ph N base)).

(** ** Tiles *)

(** The tile size [create_tiles_and_pivots] works with: the whole sequence
    when the parameter is not positive. *)
Definition effective_tile_size (uniq_coords : list IndexedCoord)
    (tile_size_param : Z) : nat :=
  if decide (tile_size_param <= 0) then length uniq_coords
  else Z.to_nat tile_size_param.

(** The number of tiles of [ts] elements that [U] elements fill. *)
Definition tile_count (U ts : nat) : nat := ((U + ts - 1) / ts)%nat.

(** Tile [t] of [v] cut every [ts] elements. *)
Definition tile_at {A} (v : list A) (ts t : nat) : list A :=
  take ts (drop (t * ts) v).

(** ** The kernel map, list by list *)

(** The pairs that the queries of [log], processed in that order, add to
    the list of offset index [o]. *)
Definition matches_for (qry_keys_v : list IndexedCoord)
    (qry_off_idx_v : list Z) (tiles_v : list (list IndexedCoord))
    (pivs : list IndexedCoord) (o : Z) (log : list nat) : list (Z * Z) :=
  omap (fun q =>
          match query_match qry_keys_v qry_off_idx_v tiles_v pivs q with
          | Some (o', p) => if decide (o' = o) then Some p else None
          | None => None
          end) log.

(** [a] is the least index of an input coordinate with packed key [k]. *)
Definition least_index (stride : Z) (in_coords : list Coord3D) (k : Z)
    (a : nat) : Prop :=
  (exists c, in_coords !! a = Some c /\ key_of stride c = k)
  /\ forall (j : nat) (c' : Coord3D),
       in_coords !! j = Some c' -> key_of stride c' = k -> (a <= j)%nat.

(** ** The writers, write by write *)

(** The [gzwrite] calls made for one trace entry. *)
Definition entry_chunks (sizeof_addr : Z) (e : MemoryAccessEntry)
  : list (list Z) :=
  [le_bytes 1 (phase e); le_bytes 1 (thread_id e); le_bytes 1 (op e);
   le_bytes 1 (tensor e);
   if decide (sizeof_addr = 4) then le_bytes 4 (to_u32 (addr e))
   else le_bytes 8 (addr e)].

(** The [gzwrite] calls of [write_gmem_trace], in order. *)
Definition trace_chunks (sizeof_addr : Z)
    (mem_trace_v : list MemoryAccessEntry) : list (list Z) :=
  le_bytes 4 (to_u32 (Z.of_nat (length mem_trace_v)))
  :: mjoin (entry_chunks sizeof_addr <$> mem_trace_v).

(** A checksum that runs: no data leaves it as it is, and pieces of data
    fed one after the other give the checksum of the whole. *)
Definition running_checksum (crc32 : Z -> list Z -> Z) : Prop :=
  (forall c, crc32 c [] = c)
  /\ forall c a b, crc32 (crc32 c a) b = crc32 c (a ++ b).

(** [m] succeeds, appending [bytes] to the payload and [log] to the error
    stream, the checksum running over [bytes]. *)
Definition appends_summed (crc32 : Z -> list Z -> Z)
    (m : ST WriterState unit) (bytes log : list Z) : Prop :=
  forall st, exists n,
    m st = Ok tt (mkWriter (ws_payload st ++ bytes) (ws_writes st + n)
                           (crc32 (ws_crc st) bytes)
                           (ws_created st) (ws_open st)
                           (ws_stderr st ++ log)).

(** [m] either succeeds and leaves the file as it was, open or closed, or
    throws a runtime error after a failed write, the file closed. *)
Definition closes_on_failure (env : IoEnv) (m : ST WriterState unit)
  : Prop :=
  forall st,
    match m st with
    | Ok _ st' =>
        ws_open st' = ws_open st /\ ws_created st' = ws_created st
    | Throw e st' =>
        e = RuntimeError /\ is_Some (write_fail_at env)
        /\ ws_open st' = false /\ ws_created st' = ws_created st
    end.

(** ** Reading a trace file back *)

(** The fields of an entry fit the widths they are stored in. *)
Definition entry_in_range (e : MemoryAccessEntry) : Prop :=
  0 <= phase e < 256 /\ 0 <= thread_id e < 256 /\ 0 <= op e < 256
  /\ 0 <= tensor e < 256 /\ 0 <= addr e < UINT64_MOD.

(** ** The trace of the lookup *)

(** The entries a worker has recorded and not yet merged into the global
    trace. *)
Definition unmerged (w : Worker) : list MemoryAccessEntry :=
  if w_merged w then [] else w_local w.

Definition pool_entries (pool : list Worker) : list MemoryAccessEntry :=
  mjoin (unmerged <$> pool).

(** The workers that have appended a match and not yet drawn their write
    offset from the counter. *)
Definition pending_count (w : Worker) : nat :=
  if w_pending w then 1%nat else 0%nat.

Definition pool_pending (pool : list Worker) : nat :=
  sum_list (pending_count <$> pool).

(** A worker that has merged its buffer has nothing left to do. *)
Definition worker_wf (w : Worker) : Prop :=
  w_merged w = true -> w_todo w = [] /\ w_pending w = false.

(** The addresses of the write entries of a trace, in order. *)
Definition write_addrs (tr : list MemoryAccessEntry) : list Z :=
  addr <$> filter (fun e => op e = 1) tr.

(** The address the simulated kernel-map write of counter value [i] goes
    to; the counter is 64 bits wide. *)
Definition km_slot_addr (g_config : Config) (i : nat) : Z :=
  elem_addr (KM_BASE g_config) (to_u64 (Z.of_nat i)) (SIZE_INT g_config).

(** What holds between two atomic actions of the lookup, [base] being the
    trace the lookup started with: the phase is LKP, the trace has only
    grown, everything recorded since, merged or not, is tagged LKP, the
    writes recorded carry the counter values drawn so far, each once, and
    every pair of the kernel map has drawn its counter value or is about
    to. *)
Definition lkp_inv (g_config : Config) (base : list MemoryAccessEntry)
    (pool : list Worker) (k : KmState) (g : Globals) : Prop :=
  curr_phase g = "LKP"%string
  /\ Forall worker_wf pool
  /\ exists (tr : list MemoryAccessEntry) (n : nat),
       mem_trace g = base ++ tr
       /\ Forall (fun e => phase e = 4) (tr ++ pool_entries pool)
       /\ write_addrs (tr ++ pool_entries pool)
          ≡ₚ km_slot_addr g_config <$> seq 0 n
       /\ km_write_idx k = to_u64 (Z.of_nat n)
       /\ (n + pool_pending pool)%nat = total_matches (km_map k).

(** ** The pivot writes of the PVT phase *)

Definition pivot_writes (g_config : Config) (n : nat)
  : list MemoryAccessEntry :=
  (fun t : nat =>
     entry_of g_config 3 0 1
       (elem_addr (PIV_BASE g_config) (Z.of_nat t) (SIZE_KEY g_config)))
    <$> seq 0 n.

(** * Part II: properties *)

(** ** Machine integers *)

Lemma to_int_small (v : Z) : - 2 ^ 31 <= v <= INT_MAX -> to_int v = v.
Proof.
  unfold to_int, INT_MAX, UINT32_MOD. intros Hv.
  rewrite Z.mod_small by lia. lia.
Qed.

Lemma to_u32_small (v : Z) : 0 <= v < UINT32_MOD -> to_u32 v = v.
Proof. intros Hv. unfold to_u32. apply Z.mod_small; lia. Qed.

(** ** Arithmetic reading of the codec *)

Lemma land_mask (v : Z) : Z.land v AXIS_MASK = v mod 1024.
Proof.
  change AXIS_MASK with (Z.ones 10). rewrite Z.land_ones by lia. reflexivity.
Qed.

Lemma lor_disjoint_add (hi lo n : Z) :
  0 <= n -> 0 <= lo < 2 ^ n -> Z.lor (Z.shiftl hi n) lo = hi * 2 ^ n + lo.
Proof.
  intros Hn Hlo. rewrite <- Z.shiftl_mul_pow2 by lia.
  symmetry. apply Z.add_nocarry_lor.
  apply Z.bits_inj'. intros i Hi.
  rewrite Z.land_spec, Z.bits_0.
  destruct (decide (i < n)) as [Hlt|Hge].
  - rewrite Z.shiftl_spec_low by lia. reflexivity.
  - replace (Z.testbit lo i) with false; [apply andb_false_r|].
    symmetry. destruct (decide (lo = 0)) as [->|Hne]; [apply Z.bits_0|].
    apply Z.bits_above_log2; [lia|].
    apply Z.lt_le_trans with n; [|lia].
    apply Z.log2_lt_pow2; lia.
Qed.

Lemma to_key_arith (c : Coord3D) :
  to_key c =
  (cx c mod 1024) * 1048576 + (cy c mod 1024) * 1024 + cz c mod 1024.
Proof.
  unfold to_key. rewrite !land_mask.
  pose proof (Z.mod_pos_bound (cx c) 1024 ltac:(lia)) as Hx.
  pose proof (Z.mod_pos_bound (cy c) 1024 ltac:(lia)) as Hy.
  pose proof (Z.mod_pos_bound (cz c) 1024 ltac:(lia)) as Hz.
  change (2 * AXIS_BITS) with 20. change AXIS_BITS with 10.
  change 20 with (10 + 10).
  rewrite <- (Z.shiftl_shiftl (cx c mod 1024) 10 10) by lia.
  rewrite <- Z.shiftl_lor.
  rewrite (lor_disjoint_add (cx c mod 1024) (cy c mod 1024) 10) by lia.
  rewrite lor_disjoint_add by lia. lia.
Qed.

Lemma to_key_range (c : Coord3D) : 0 <= to_key c < 2 ^ 30.
Proof.
  rewrite to_key_arith.
  pose proof (Z.mod_pos_bound (cx c) 1024 ltac:(lia)).
  pose proof (Z.mod_pos_bound (cy c) 1024 ltac:(lia)).
  pose proof (Z.mod_pos_bound (cz c) 1024 ltac:(lia)).
  lia.
Qed.

Lemma from_key_arith (k : Z) :
  from_key k =
  mkCoord ((k / 1048576) mod 1024) ((k / 1024) mod 1024) (k mod 1024).
Proof.
  unfold from_key. rewrite !land_mask.
  change (2 * AXIS_BITS) with 20. change AXIS_BITS with 10.
  rewrite !Z.shiftr_div_pow2 by lia. reflexivity.
Qed.

Lemma from_key_representable (k : Z) : representable (from_key k).
Proof.
  rewrite from_key_arith. unfold representable, fits_axis; simpl.
  change (2 ^ AXIS_BITS) with 1024.
  repeat split; apply Z.mod_pos_bound; lia.
Qed.

Lemma from_key_to_key (c : Coord3D) :
  representable c -> from_key (to_key c) = c.
Proof.
  destruct c as [x y z]. unfold representable, fits_axis; simpl.
  change (2 ^ AXIS_BITS) with 1024. intros (Hx & Hy & Hz).
  rewrite from_key_arith, to_key_arith; simpl.
  rewrite (Z.mod_small x 1024), (Z.mod_small y 1024), (Z.mod_small z 1024)
    by lia.
  f_equal.
  - replace ((x * 1048576 + y * 1024 + z) / 1048576) with x.
    + apply Z.mod_small; lia.
    + apply Z.div_unique with (y * 1024 + z); lia.
  - replace ((x * 1048576 + y * 1024 + z) / 1024) with (x * 1024 + y)
      by (apply Z.div_unique with z; lia).
    replace (x * 1024 + y) with (y + x * 1024) by lia.
    rewrite Z.mod_add by lia. apply Z.mod_small; lia.
  - replace (x * 1048576 + y * 1024 + z) with (z + (x * 1024 + y) * 1024)
      by lia.
    rewrite Z.mod_add by lia. apply Z.mod_small; lia.
Qed.

Lemma to_key_from_key (k : Z) : 0 <= k < 2 ^ 30 -> to_key (from_key k) = k.
Proof.
  intros Hk. rewrite to_key_arith, from_key_arith; simpl.
  rewrite !Z.mod_mod by lia.
  pose proof (Z.div_mod k 1024 ltac:(lia)) as H1.
  pose proof (Z.div_mod (k / 1024) 1024 ltac:(lia)) as H2.
  pose proof (Z.mod_pos_bound k 1024 ltac:(lia)) as B1.
  pose proof (Z.mod_pos_bound (k / 1024) 1024 ltac:(lia)) as B2.
  rewrite Z.div_div in H2 by lia. change (1024 * 1024) with 1048576 in H2.
  assert (0 <= k / 1048576 < 1024) as B3.
  { split; [apply Z.div_pos; lia|].
    apply Z.div_lt_upper_bound; lia. }
  rewrite (Z.mod_small (k / 1048576)) by lia. lia.
Qed.

Lemma to_key_of_key (c : Coord3D) : to_key (from_key (to_key c)) = to_key c.
Proof. apply to_key_from_key, to_key_range. Qed.

Lemma to_key_inj (a b : Coord3D) :
  representable a -> representable b -> to_key a = to_key b -> a = b.
Proof.
  intros Ha Hb Heq.
  rewrite <- (from_key_to_key a Ha), <- (from_key_to_key b Hb).
  now rewrite Heq.
Qed.

Lemma quot_fits (v s : Z) : 0 < s -> fits_axis v -> fits_axis (v ÷ s).
Proof.
  unfold fits_axis. change (2 ^ AXIS_BITS) with 1024. intros Hs [Hlo Hhi].
  rewrite Z.quot_div_nonneg by lia. split.
  - apply Z.div_pos; lia.
  - apply Z.le_lt_trans with v; [|lia].
    apply Z.div_le_upper_bound; [lia|]. nia.
Qed.

Lemma quantized_representable (c : Coord3D) (s : Z) :
  0 < s -> representable c -> representable (quantized c s).
Proof.
  intros Hs (Hx & Hy & Hz). unfold quantized, representable; simpl.
  auto using quot_fits.
Qed.

(** ** The monad *)

Lemma bind_ok {St A B} (m : ST St A) (f : A -> ST St B) g a g' :
  m g = Ok a g' -> (m ≫= f) g = f a g'.
Proof. unfold mbind, ST_bind. now intros ->. Qed.

Lemma bind_throw {St A B} (m : ST St A) (f : A -> ST St B) g e g' :
  m g = Throw e g' -> (m ≫= f) g = Throw e g'.
Proof. unfold mbind, ST_bind. now intros ->. Qed.

Lemma emits_ret {A} (a : A) : emits (mret a) a.
Proof.
  intros g _. exists []. rewrite app_nil_r. now destruct g.
Qed.

Lemma emits_bind {A B} (m : M A) (f : A -> M B) a b :
  emits m a -> emits (f a) b -> emits (m ≫= f) b.
Proof.
  intros Hm Hf g Hg. destruct (Hm g Hg) as [tr1 E1].
  rewrite (bind_ok _ _ _ _ _ E1).
  destruct (Hf (mkGlobals (mem_trace g ++ tr1) (curr_phase g)) Hg)
    as [tr2 E2]. simpl in E2.
  exists (tr1 ++ tr2). now rewrite E2, app_assoc.
Qed.

Lemma emits_forM {A} (l : list A) (body : A -> M unit) :
  (forall x, x ∈ l -> emits (body x) tt) -> emits (forM_ l body) tt.
Proof.
  induction l as [|x l IH]; intros Hb; simpl.
  - apply emits_ret.
  - eapply emits_bind.
    + apply Hb. left.
    + apply IH. intros y Hy. apply Hb. now right.
Qed.

Lemma forward_at_ok (d : bidict) (name : string) (c : Z) (g : Globals) :
  forward_find d name = Some c -> forward_at d name g = Ok c g.
Proof. intros E. unfold forward_at. now rewrite E. Qed.

Lemma inverse_at_ok (d : bidict) (code : Z) (n : string) (g : Globals) :
  inverse_find d code = Some n -> inverse_at d code g = Ok n g.
Proof. intros E. unfold inverse_at. now rewrite E. Qed.

Lemma emits_inverse_at (d : bidict) (code : Z) (n : string) :
  inverse_find d code = Some n -> emits (inverse_at d code) n.
Proof. intros E. unfold inverse_at. rewrite E. apply emits_ret. Qed.

Section PipelineFacts.

Context (g_config : Config).

Lemma addr_to_tensor_total (a : Z) :
  exists t, forall g, addr_to_tensor g_config a g = Ok t g.
Proof.
  unfold addr_to_tensor.
  repeat (match goal with
          | |- context [if ?b then _ else _] => destruct b
          end; [eexists; intros g; reflexivity|]).
  eexists; intros g; reflexivity.
Qed.

Lemma make_entry_total (tid : Z) (op_str : string) (a : Z) (o : Z) g :
  forward_find OPS op_str = Some o -> phase_ok g ->
  exists e, make_entry g_config tid op_str a g = Ok e g.
Proof.
  intros Ho [ph Hph]. destruct (addr_to_tensor_total a) as [t Ht].
  unfold make_entry.
  rewrite (bind_ok get_curr_phase _ g (curr_phase g) g eq_refl).
  rewrite (bind_ok _ _ _ _ _ (forward_at_ok _ _ _ g Hph)).
  rewrite (bind_ok _ _ _ _ _ (forward_at_ok _ _ _ g Ho)).
  rewrite (bind_ok _ _ _ _ _ (Ht g)).
  eexists. reflexivity.
Qed.

Lemma emits_record_access (tid : Z) (op_str : string) (a : Z) (o : Z) :
  forward_find OPS op_str = Some o ->
  emits (record_access g_config tid op_str a) tt.
Proof.
  intros Ho g Hg. destruct (make_entry_total tid op_str a o g Ho Hg) as [e E].
  unfold record_access. rewrite (bind_ok _ _ _ _ _ E).
  exists [e]. reflexivity.
Qed.

(** A thread count of zero is the only one at which the division of
    [thread_of] faults. *)
Lemma threads_nonzero :
  0 < to_u32 (NUM_THREADS g_config) -> NUM_THREADS g_config <> 0.
Proof. intros H E. rewrite E in H. vm_compute in H. discriminate. Qed.

Lemma emits_thread_of (i : nat) :
  NUM_THREADS g_config <> 0 ->
  emits (thread_of g_config i)
        (to_int (Z.of_nat i mod NUM_THREADS g_config)).
Proof.
  intros Hnz. unfold thread_of. rewrite decide_False by exact Hnz.
  apply emits_ret.
Qed.

Lemma emits_radix_pass (N : nat) (base_addr : Z) :
  NUM_THREADS g_config <> 0 ->
  emits (radix_pass g_config N base_addr) tt.
Proof.
  intros Hnz. unfold radix_pass. eapply emits_bind.
  - apply emits_forM. intros i _.
    eapply emits_bind; [now apply emits_thread_of|].
    now apply emits_record_access with 0.
  - apply emits_forM. intros i _.
    eapply emits_bind; [now apply emits_thread_of|].
    eapply emits_bind; [now apply emits_record_access with 0|].
    eapply emits_bind; [now apply emits_inverse_at|].
    now apply emits_record_access with 1.
Qed.

Lemma emits_radix_sort (arr : list Z) (base_addr : Z) :
  NUM_THREADS g_config <> 0 ->
  emits (radix_sort_with_memtrace g_config arr base_addr) arr.
Proof.
  intros Hnz. unfold radix_sort_with_memtrace. destruct (decide _).
  - apply emits_ret.
  - eapply emits_bind; [|apply emits_ret].
    apply emits_forM. intros _ _. now apply emits_radix_pass.
Qed.

(** With a thread count other than zero the RDX phase returns: it yields
    the deduplicated scan of the stably sorted pairs and leaves the phase
    tag at RDX. *)
Lemma compute_unique_sorted_coords_run (in_coords : list Coord3D)
    (stride : Z) (g : Globals) :
  NUM_THREADS g_config <> 0 ->
  exists tr,
    compute_unique_sorted_coords g_config in_coords stride g
    = Ok (dedup_sorted (stable_sort (idx_keys_pairs in_coords stride)))
         (mkGlobals (mem_trace g ++ tr) "RDX").
Proof.
  intros Hnz. unfold compute_unique_sorted_coords.
  assert (phase_ok (mkGlobals (mem_trace g) "RDX")) as Hok by (now eexists).
  destruct (emits_radix_sort (idx_keys_pairs in_coords stride).*1
              (I_BASE g_config) Hnz _ Hok) as [tr E].
  exists tr. unfold mbind at 1 2, ST_bind. simpl.
  rewrite (bind_ok _ _ _ _ _ E). reflexivity.
Qed.

(** With a thread count of zero the simulated sort of an array that is
    not empty does not return: the first [i % NUM_THREADS] faults, before
    any access is recorded.  The empty array is returned at once, no
    division being made. *)
Lemma radix_sort_zero_threads (arr : list Z) (base_addr : Z) (g : Globals) :
  NUM_THREADS g_config = 0 ->
  radix_sort_with_memtrace g_config arr base_addr g
  = match arr with
    | [] => Ok [] g
    | _ :: _ => Throw DivisionByZero g
    end.
Proof.
  intros Hz. unfold radix_sort_with_memtrace.
  destruct arr as [|k arr]; [reflexivity|].
  destruct (decide _) as [E|_]; [discriminate E|].
  apply bind_throw. cbn [seq forM_]. apply bind_throw.
  unfold radix_pass. apply bind_throw.
  cbn [length seq forM_]. apply bind_throw, bind_throw.
  unfold thread_of. destruct (decide _); [reflexivity|contradiction].
Qed.

Lemma compute_unique_sorted_coords_zero_threads (in_coords : list Coord3D)
    (stride : Z) (g : Globals) :
  NUM_THREADS g_config = 0 -> in_coords <> [] ->
  exists g',
    compute_unique_sorted_coords g_config in_coords stride g
    = Throw DivisionByZero g'.
Proof.
  intros Hz Hne. unfold compute_unique_sorted_coords.
  rewrite (bind_ok _ _ g "RDX"%string g) by reflexivity.
  rewrite (bind_ok _ _ g tt (mkGlobals (mem_trace g) "RDX")) by reflexivity.
  eexists. erewrite bind_throw; [reflexivity|].
  rewrite radix_sort_zero_threads by exact Hz.
  destruct in_coords as [|c l]; [done|reflexivity].
Qed.

End PipelineFacts.

(** ** The stable sort *)

Lemma stable_insert_perm (p : Z * Z) (l : list (Z * Z)) :
  stable_insert p l ≡ₚ p :: l.
Proof.
  induction l as [|q l IH]; simpl; [done|].
  destruct (decide _); [|done].
  rewrite IH. apply Permutation_swap.
Qed.

Lemma stable_insert_sorted (p : Z * Z) (l : list (Z * Z)) :
  StronglySorted (fun a b => a.1 <= b.1) l ->
  StronglySorted (fun a b => a.1 <= b.1) (stable_insert p l).
Proof.
  induction 1 as [|q l Hl IH Hq]; simpl.
  - repeat constructor.
  - destruct (decide (q.1 < p.1)) as [Hlt|Hge].
    + constructor; [exact IH|].
      rewrite stable_insert_perm. constructor; [lia|exact Hq].
    + constructor; [now constructor|].
      constructor; [lia|].
      eapply Forall_impl; [exact Hq|]. simpl. intros; lia.
Qed.

Lemma stable_insert_filter (k : Z) (p : Z * Z) (l : list (Z * Z)) :
  filter (fun q => q.1 = k) (stable_insert p l)
  = filter (fun q => q.1 = k) (p :: l).
Proof.
  induction l as [|q l IH]; simpl; [done|].
  destruct (decide (q.1 < p.1)) as [Hlt|Hge]; [|done].
  rewrite (filter_cons _ q), IH, !filter_cons.
  destruct (decide (q.1 = k)), (decide (p.1 = k)); try done; lia.
Qed.

Lemma stable_sort_perm (l : list (Z * Z)) : stable_sort l ≡ₚ l.
Proof.
  induction l as [|p l IH]; simpl; [done|].
  now rewrite stable_insert_perm, IH.
Qed.

Lemma stable_sort_length (l : list (Z * Z)) :
  length (stable_sort l) = length l.
Proof. apply Permutation_length, stable_sort_perm. Qed.

(** [stable_sort] is a stable sorting of its argument. *)
Lemma stable_sort_stably_sorted (l : list (Z * Z)) :
  stably_sorted l (stable_sort l).
Proof.
  split.
  - induction l as [|p l IH]; simpl; [constructor|].
    now apply stable_insert_sorted.
  - intros k. induction l as [|p l IH]; simpl; [done|].
    now rewrite stable_insert_filter, !filter_cons, IH.
Qed.

(** ** The deduplicating scan *)

Lemma dedup_scan_select (last_key : Z) (l : list (Z * Z)) :
  dedup_scan last_key l = to_indexed <$> select_scan last_key l.
Proof.
  revert last_key. induction l as [|[k i] l IH]; intros last_key; simpl;
    [done|].
  destruct (decide (k ≠ last_key)); simpl; now rewrite IH.
Qed.

Lemma dedup_sorted_select (l : list (Z * Z)) :
  dedup_sorted l = to_indexed <$> select_sorted l.
Proof.
  destruct l as [|[k i] l]; simpl; [done|]. now rewrite dedup_scan_select.
Qed.

Lemma select_scan_first (last_key : Z) (l : list (Z * Z)) (p : Z * Z) :
  StronglySorted (fun a b => a.1 <= b.1) l ->
  Forall (fun q => last_key <= q.1) l ->
  p ∈ select_scan last_key l ->
  p ∈ l /\ last_key < p.1 /\ first_with_key p.1 l = Some p.
Proof.
  unfold first_with_key.
  intros Hs. revert last_key. induction Hs as [|q l Hl IH Hq];
    intros last_key Hlast Hin; simpl in Hin.
  - now apply elem_of_nil in Hin.
  - apply Forall_cons in Hlast as [Hq0 Hlast].
    destruct (decide (q.1 ≠ last_key)) as [Hne|Heq].
    + apply elem_of_cons in Hin as [->|Hin].
      * split; [left|]. split; [lia|].
        now rewrite filter_cons_True.
      * destruct (IH q.1 Hq Hin) as (H1 & H2 & H3).
        split; [now right|]. split; [lia|].
        rewrite filter_cons_False by lia. exact H3.
    + destruct (IH last_key Hlast Hin) as (H1 & H2 & H3).
      split; [now right|]. split; [lia|].
      rewrite filter_cons_False by lia. exact H3.
Qed.

Lemma select_scan_complete (last_key : Z) (l : list (Z * Z)) (k : Z) :
  k ≠ last_key -> k ∈ l.*1 -> k ∈ (select_scan last_key l).*1.
Proof.
  revert last_key. induction l as [|q l IH]; intros last_key Hne Hin;
    simpl in *; [done|].
  apply elem_of_cons in Hin as [->|Hin].
  - rewrite decide_True by done. left.
  - destruct (decide (q.1 ≠ last_key)) as [Hq|Hq]; simpl.
    + destruct (decide (k = q.1)) as [->|Hk]; [left|right; now apply IH].
    + now apply IH.
Qed.

Lemma select_scan_sorted (last_key : Z) (l : list (Z * Z)) :
  StronglySorted (fun a b => a.1 <= b.1) l ->
  Forall (fun q => last_key <= q.1) l ->
  StronglySorted Z.lt (select_scan last_key l).*1.
Proof.
  intros Hs. revert last_key. induction Hs as [|q l Hl IH Hq];
    intros last_key Hlast; simpl; [constructor|].
  apply Forall_cons in Hlast as [Hq0 Hlast].
  destruct (decide (q.1 ≠ last_key)) as [Hne|Heq]; simpl.
  - constructor; [now apply IH|].
    apply Forall_forall. intros k Hk.
    apply list_elem_of_fmap in Hk as (p & -> & Hp).
    now destruct (select_scan_first q.1 l p Hl Hq Hp) as (_ & ? & _).
  - now apply IH.
Qed.

Lemma sorted_head_le (q : Z * Z) (l : list (Z * Z)) :
  StronglySorted (fun a b => a.1 <= b.1) (q :: l) ->
  StronglySorted (fun a b => a.1 <= b.1) l /\ Forall (fun p => q.1 <= p.1) l.
Proof. intros H. now apply StronglySorted_inv in H. Qed.

Lemma select_sorted_first (l : list (Z * Z)) (p : Z * Z) :
  StronglySorted (fun a b => a.1 <= b.1) l ->
  p ∈ select_sorted l -> p ∈ l /\ first_with_key p.1 l = Some p.
Proof.
  destruct l as [|q l]; simpl; intros Hs Hin; [now apply elem_of_nil in Hin|].
  apply sorted_head_le in Hs as [Hs Hq].
  apply elem_of_cons in Hin as [->|Hin].
  - split; [left|]. unfold first_with_key. now rewrite filter_cons_True.
  - destruct (select_scan_first q.1 l p Hs Hq Hin) as (H1 & H2 & H3).
    split; [now right|]. unfold first_with_key in *.
    rewrite filter_cons_False by lia. exact H3.
Qed.

Lemma select_sorted_keys (l : list (Z * Z)) (k : Z) :
  k ∈ (select_sorted l).*1 <-> k ∈ l.*1.
Proof.
  destruct l as [|q l]; simpl; [done|]. split; intros Hin.
  - apply elem_of_cons in Hin as [->|Hin]; [left|right].
    revert Hin. generalize q.1. induction l as [|r l IH]; intros last Hin;
      simpl in *; [done|].
    destruct (decide (r.1 ≠ last)); simpl in Hin.
    + apply elem_of_cons in Hin as [->|Hin]; [left|right; eauto].
    + right; eauto.
  - apply elem_of_cons in Hin as [->|Hin]; [left|].
    destruct (decide (k = q.1)) as [->|Hk]; [left|right].
    now apply select_scan_complete.
Qed.

Lemma select_sorted_sorted (l : list (Z * Z)) :
  StronglySorted (fun a b => a.1 <= b.1) l ->
  StronglySorted Z.lt (select_sorted l).*1.
Proof.
  destruct l as [|q l]; simpl; intros Hs; [constructor|].
  apply sorted_head_le in Hs as [Hs Hq].
  constructor; [now apply select_scan_sorted|].
  apply Forall_forall. intros k Hk.
  apply list_elem_of_fmap in Hk as (p & -> & Hp).
  now destruct (select_scan_first q.1 l p Hs Hq Hp) as (_ & ? & _).
Qed.

Lemma select_scan_length (last_key : Z) (l : list (Z * Z)) :
  (length (select_scan last_key l) <= length l)%nat.
Proof.
  revert last_key. induction l as [|q l IH]; intros last_key; simpl; [lia|].
  destruct (decide _); simpl; [specialize (IH q.1)|specialize (IH last_key)];
    lia.
Qed.

Lemma select_sorted_length (l : list (Z * Z)) :
  (length (select_sorted l) <= length l)%nat.
Proof.
  destruct l as [|q l]; simpl; [lia|].
  pose proof (select_scan_length q.1 l). lia.
Qed.

(** ** The (key, original index) pairs *)

Lemma head_filter_imap {A B} (f : nat -> A -> B) (P : B -> Prop)
    `{!forall b, Decision (P b)} (l : list A) (b : B) :
  head (filter P (imap f l)) = Some b ->
  exists i x, l !! i = Some x /\ b = f i x /\ P b
    /\ forall j y, l !! j = Some y -> P (f j y) -> (i <= j)%nat.
Proof.
  revert f. induction l as [|x l IH]; intros f Hh; simpl in Hh; [done|].
  rewrite filter_cons in Hh. destruct (decide (P (f 0%nat x))) as [HP|HP].
  - simpl in Hh. injection Hh as <-. exists 0%nat, x.
    repeat split; [done|]. intros; lia.
  - destruct (IH _ Hh) as (i & y & Hi & Hb & HPb & Hmin).
    exists (S i), y. repeat split; try done.
    intros [|j] z Hj HPj; simpl in Hj.
    + injection Hj as <-. done.
    + specialize (Hmin j z Hj HPj). lia.
Qed.

Lemma imap_pair_keys {A} (f : A -> Z) (h : nat -> Z) (l : list A) :
  (imap (fun idx c => (f c, h idx)) l).*1 = f <$> l.
Proof.
  revert h. induction l as [|c l IH]; intros h; simpl; [done|].
  f_equal. apply (IH (h ∘ S)).
Qed.

Lemma idx_keys_pairs_keys (in_coords : list Coord3D) (stride : Z) :
  (idx_keys_pairs in_coords stride).*1 = key_of stride <$> in_coords.
Proof.
  apply (imap_pair_keys (key_of stride) (fun idx => to_int (Z.of_nat idx))).
Qed.

Lemma imap_zip_from {A} (f : A -> Z) (h : nat -> Z) (l : list A) (n : nat) :
  imap (fun idx c => (f c, h (n + idx)%nat)) l
  = zip (f <$> l) (h <$> seq n (length l)).
Proof.
  revert n. induction l as [|c l IH]; intros n; [done|].
  cbn [imap length seq fmap list_fmap zip zip_with]. rewrite Nat.add_0_r.
  f_equal. rewrite <- (IH (S n)). apply imap_ext. intros i x _. simpl.
  now rewrite Nat.add_succ_r.
Qed.

(** As long as the input indices fit an [int], the pairs the code builds
    are the keys of the input paired with their own indices. *)
Lemma idx_keys_pairs_input (in_coords : list Coord3D) (stride : Z) :
  Z.of_nat (length in_coords) <= INT_MAX + 1 ->
  idx_keys_pairs in_coords stride = key_index_pairs in_coords stride.
Proof.
  intros Hlen. unfold idx_keys_pairs, key_index_pairs.
  rewrite <- (imap_zip_from (key_of stride) Z.of_nat in_coords 0).
  apply imap_ext. intros i c Hi. apply lookup_lt_Some in Hi.
  simpl. f_equal. apply to_int_small. unfold INT_MAX in *. lia.
Qed.

Lemma idx_keys_pairs_length (in_coords : list Coord3D) (stride : Z) :
  length (idx_keys_pairs in_coords stride) = length in_coords.
Proof. unfold idx_keys_pairs. apply length_imap. Qed.

Lemma idx_keys_pairs_range (in_coords : list Coord3D) (stride : Z) p :
  p ∈ idx_keys_pairs in_coords stride -> 0 <= p.1 < 2 ^ 30.
Proof.
  intros Hp. assert (p.1 ∈ (idx_keys_pairs in_coords stride).*1) as Hk
    by (apply list_elem_of_fmap; eauto).
  rewrite idx_keys_pairs_keys in Hk.
  apply list_elem_of_fmap in Hk as (c & -> & _). apply to_key_range.
Qed.

Lemma ic_to_key_to_indexed (p : Z * Z) :
  0 <= p.1 < 2 ^ 30 -> ic_to_key (to_indexed p) = p.1.
Proof.
  intros Hp. unfold ic_to_key, to_indexed; simpl. now apply to_key_from_key.
Qed.

Lemma strictly_sorted_NoDup (l : list Z) : StronglySorted Z.lt l -> NoDup l.
Proof.
  induction 1 as [|k l Hl IH Hk]; constructor; [|done].
  intros Hin. rewrite Forall_forall in Hk. specialize (Hk k Hin). lia.
Qed.

Section DedupFacts.

Context (g_config : Config).

(** What the RDX phase returns, in terms of the kept pairs. *)
Lemma unique_sorted_coords_shape (in_coords : list Coord3D) (stride : Z)
    (g : Globals) :
  NUM_THREADS g_config <> 0 ->
  let pairs := idx_keys_pairs in_coords stride in
  let sel := select_sorted (stable_sort pairs) in
  exists g',
    compute_unique_sorted_coords g_config in_coords stride g
    = Ok (to_indexed <$> sel) g'
    /\ curr_phase g' = "RDX"%string
    /\ (forall p, p ∈ sel ->
          p ∈ pairs /\ first_with_key p.1 pairs = Some p
          /\ ic_to_key (to_indexed p) = p.1)
    /\ ic_to_key <$> (to_indexed <$> sel) = sel.*1.
Proof.
  intros Hnz pairs sel.
  destruct (compute_unique_sorted_coords_run g_config in_coords stride g
              Hnz)
    as [tr E].
  eexists. split; [rewrite E, dedup_sorted_select; reflexivity|].
  split; [done|].
  destruct (stable_sort_stably_sorted pairs) as [Hs Hst].
  assert (forall p, p ∈ sel ->
            p ∈ pairs /\ first_with_key p.1 pairs = Some p
            /\ ic_to_key (to_indexed p) = p.1) as Hsel.
  { intros p Hp. destruct (select_sorted_first _ p Hs Hp) as [Hin Hf].
    rewrite stable_sort_perm in Hin. split; [done|].
    split; [|eauto using ic_to_key_to_indexed, idx_keys_pairs_range].
    unfold first_with_key in *. now rewrite <- Hst. }
  split; [exact Hsel|].
  rewrite <- list_fmap_compose. apply list_fmap_ext.
  intros i p Hp. apply Hsel. eapply list_elem_of_lookup_2, Hp.
Qed.

(** C3. For every input list and stride, with a positive thread count,
    the RDX phase returns one entry per distinct packed key of the input
    (the keys of the output are those of the input, without repetition), in
    strictly ascending key order; the [orig_idx] of an entry is the index
    carried by the first pair of its key in any stable sorting of the
    sequence that pairs the key of every input coordinate with its input
    index (the indices within the range of [int]); and the output is no
    longer than the input. *)
Theorem unique_sorted_coords_dedup (in_coords : list Coord3D) (stride : Z)
    (g : Globals) :
  0 < NUM_THREADS g_config ->
  exists out g',
    compute_unique_sorted_coords g_config in_coords stride g = Ok out g'
    /\ (forall k, k ∈ ic_to_key <$> out <-> k ∈ key_of stride <$> in_coords)
    /\ NoDup (ic_to_key <$> out)
    /\ StronglySorted Z.lt (ic_to_key <$> out)
    /\ (Z.of_nat (length in_coords) <= INT_MAX + 1 ->
        forall sorted ic,
          stably_sorted (key_index_pairs in_coords stride) sorted ->
          ic ∈ out ->
          first_with_key (ic_to_key ic) sorted
          = Some (ic_to_key ic, orig_idx ic))
    /\ (length out <= length in_coords)%nat.
Proof.
  intros Hth.
  destruct (unique_sorted_coords_shape in_coords stride g ltac:(lia))
    as (g' & E & _ & Hsel & Hkeys).
  set (pairs := idx_keys_pairs in_coords stride) in *.
  set (sel := select_sorted (stable_sort pairs)) in *.
  destruct (stable_sort_stably_sorted pairs) as [Hs Hst].
  exists (to_indexed <$> sel), g'. split; [exact E|].
  rewrite Hkeys.
  assert (StronglySorted Z.lt sel.*1) as Hsorted
    by now apply select_sorted_sorted.
  repeat split.
  - intros Hk.
    apply (proj1 (select_sorted_keys (stable_sort pairs) k)) in Hk.
    rewrite stable_sort_perm in Hk. unfold pairs in Hk.
    now rewrite idx_keys_pairs_keys in Hk.
  - intros Hk.
    apply (proj2 (select_sorted_keys (stable_sort pairs) k)).
    rewrite stable_sort_perm. unfold pairs.
    now rewrite idx_keys_pairs_keys.
  - now apply strictly_sorted_NoDup.
  - exact Hsorted.
  - intros Hlen sorted ic [_ Hst'] Hic.
    rewrite <- (idx_keys_pairs_input in_coords stride Hlen) in Hst'.
    fold pairs in Hst'.
    apply list_elem_of_fmap in Hic as (p & -> & Hp).
    destruct (Hsel p Hp) as (_ & Hf & ->).
    unfold first_with_key in *. rewrite Hst', Hf. now destruct p.
  - rewrite length_fmap.
    pose proof (select_sorted_length (stable_sort pairs)) as Hl.
    rewrite stable_sort_length in Hl. unfold pairs in Hl.
    rewrite idx_keys_pairs_length in Hl. exact Hl.
Qed.

(** C10. With a positive thread count, the [orig_idx] of every entry the
    RDX phase emits is the least input index whose coordinate has the
    entry's packed key (input sizes within the range of [int]). *)
Theorem unique_sorted_coords_min_index (in_coords : list Coord3D)
    (stride : Z) (g : Globals) :
  0 < NUM_THREADS g_config ->
  Z.of_nat (length in_coords) <= INT_MAX + 1 ->
  exists out g',
    compute_unique_sorted_coords g_config in_coords stride g = Ok out g'
    /\ forall ic, ic ∈ out ->
         exists (i : nat) (c : Coord3D),
           orig_idx ic = Z.of_nat i
           /\ in_coords !! i = Some c
           /\ key_of stride c = ic_to_key ic
           /\ forall (j : nat) (c' : Coord3D),
                in_coords !! j = Some c' ->
                key_of stride c' = ic_to_key ic -> (i <= j)%nat.
Proof.
  intros Hth Hlen.
  destruct (unique_sorted_coords_shape in_coords stride g ltac:(lia))
    as (g' & E & _ & Hsel & _).
  eexists _, g'. split; [exact E|].
  intros ic Hic. apply list_elem_of_fmap in Hic as (p & -> & Hp).
  destruct (Hsel p Hp) as (_ & Hf & ->).
  unfold first_with_key, idx_keys_pairs in Hf.
  apply head_filter_imap in Hf as (i & c & Hi & -> & Hk & Hmin).
  simpl in *. exists i, c.
  apply lookup_lt_Some in Hi as Hlt.
  split; [|split; [exact Hi|split; [reflexivity|]]].
  - apply to_int_small. unfold INT_MAX in *. lia.
  - intros j c' Hj Hk'. now apply (Hmin j c').
Qed.

End DedupFacts.

(** ** The codec *)

(** C9. For every representable coordinate and positive stride the packed
    key of the quantized coordinate unpacks to the quantized coordinate,
    and two representable coordinates are equal exactly when their packed
    keys are. *)
Theorem codec_round_trip :
  (forall (c : Coord3D) (s : Z),
     representable c -> 0 < s ->
     from_key (to_key (quantized c s)) = quantized c s)
  /\ (forall a b : Coord3D,
        representable a -> representable b ->
        (a = b <-> to_key a = to_key b)).
Proof.
  split.
  - intros c s Hc Hs. apply from_key_to_key.
    now apply quantized_representable.
  - intros a b Ha Hb. split; [now intros ->|]. now apply to_key_inj.
Qed.

Lemma codec_round_trip_witness :
  from_key (to_key (quantized (mkCoord 7 1023 512) 2))
  = quantized (mkCoord 7 1023 512) 2
  /\ (mkCoord 3 4 5 = mkCoord 3 4 5
      <-> to_key (mkCoord 3 4 5) = to_key (mkCoord 3 4 5)).
Proof.
  destruct codec_round_trip as [Hrt Hinj]. split.
  - apply Hrt; [|lia]. unfold representable, fits_axis; simpl.
    change (2 ^ AXIS_BITS) with 1024. lia.
  - apply Hinj; unfold representable, fits_axis; simpl;
      change (2 ^ AXIS_BITS) with 1024; lia.
Defined.

(** ** QRY *)

Lemma set_query_sized U o off r i x n :
  sized r n -> sized (set_query U o off r i x) n.
Proof.
  unfold sized, set_query; simpl. rewrite !length_insert. tauto.
Qed.

Lemma query_at_set_query_ne U o off r i x (j : nat) :
  j ≠ (o * U + i)%nat -> query_at (set_query U o off r i x) j = query_at r j.
Proof.
  intros Hne. unfold query_at, set_query; simpl.
  now rewrite !list_lookup_insert_ne by done.
Qed.

Lemma query_at_set_query_eq U o off r i x n :
  sized r n -> (o * U + i < n)%nat ->
  query_at (set_query U o off r i x) (o * U + i) = Some (query_entry o off i x).
Proof.
  intros (H1 & H2 & H3 & H4) Hlt. unfold query_at, set_query; simpl.
  now rewrite !list_lookup_insert_eq by lia.
Qed.

Lemma inner_loop_sized U o off l i0 r n :
  sized r n -> sized (fold_index (set_query U o off) i0 l r) n.
Proof.
  revert i0 r. induction l as [|x l IH]; intros i0 r Hr; simpl; [done|].
  now apply IH, set_query_sized.
Qed.

Lemma inner_loop_other U o off l i0 r (j : nat) :
  (j < o * U + i0 \/ o * U + i0 + length l <= j)%nat ->
  query_at (fold_index (set_query U o off) i0 l r) j = query_at r j.
Proof.
  revert i0 r. induction l as [|x l IH]; intros i0 r Hj; simpl in *; [done|].
  rewrite IH by lia. apply query_at_set_query_ne. lia.
Qed.

Lemma inner_loop_hit U o off l i0 r n (m : nat) x :
  sized r n -> l !! m = Some x -> (o * U + i0 + m < n)%nat ->
  query_at (fold_index (set_query U o off) i0 l r) (o * U + (i0 + m))
  = Some (query_entry o off (i0 + m) x).
Proof.
  revert i0 r m. induction l as [|y l IH]; intros i0 r m Hr Hm Hlt;
    simpl in *; [done|].
  destruct m as [|m]; simpl in Hm.
  - injection Hm as ->. rewrite inner_loop_other by lia.
    rewrite Nat.add_0_r. eapply query_at_set_query_eq; [done|lia].
  - replace (i0 + S m)%nat with (S i0 + m)%nat by lia.
    eapply IH; [now apply set_query_sized|done|lia].
Qed.

Lemma outer_loop_sized U uniq offs o0 r n :
  sized r n ->
  sized (fold_index (fun r off_idx offset_val =>
                       fold_index (set_query U off_idx offset_val) 0 uniq r)
                    o0 offs r) n.
Proof.
  revert o0 r. induction offs as [|off offs IH]; intros o0 r Hr; simpl;
    [done|].
  now apply IH, inner_loop_sized.
Qed.

Lemma outer_loop_other uniq offs o0 r (j : nat) :
  (j < o0 * length uniq)%nat ->
  query_at (fold_index (fun r off_idx offset_val =>
                          fold_index (set_query (length uniq) off_idx
                                                offset_val) 0 uniq r)
                       o0 offs r) j
  = query_at r j.
Proof.
  revert o0 r. induction offs as [|off offs IH]; intros o0 r Hj; simpl;
    [done|].
  rewrite IH by lia. apply inner_loop_other. lia.
Qed.

Lemma outer_loop_hit uniq offs o0 r n (m i : nat) off ic :
  sized r n -> offs !! m = Some off -> uniq !! i = Some ic ->
  ((o0 + length offs) * length uniq <= n)%nat ->
  query_at (fold_index (fun r off_idx offset_val =>
                          fold_index (set_query (length uniq) off_idx
                                                offset_val) 0 uniq r)
                       o0 offs r) ((o0 + m) * length uniq + i)
  = Some (query_entry (o0 + m) off i ic).
Proof.
  revert o0 r m. induction offs as [|off' offs IH]; intros o0 r m Hr Hm Hi Hn;
    simpl in *; [done|].
  apply lookup_lt_Some in Hi as Hlt.
  destruct m as [|m]; simpl in Hm.
  - injection Hm as ->. rewrite Nat.add_0_r.
    rewrite outer_loop_other by lia.
    apply (inner_loop_hit (length uniq) o0 off uniq 0 r n i ic Hr Hi). nia.
  - replace (o0 + S m)%nat with (S o0 + m)%nat by lia.
    eapply IH; [now apply inner_loop_sized|done|done|lia].
Qed.

Lemma resized_result_sized (n : nat) : sized (resized_result n) n.
Proof. unfold sized, resized_result; simpl. now rewrite !length_replicate. Qed.

Section QueryFacts.

Context (g_config : Config).

(** The QRY phase always returns, with the phase tag at QRY. *)
Lemma build_coordinate_queries_run (uniq_coords : list IndexedCoord)
    (stride : Z) (off_coords : list Coord3D) (g : Globals) :
  exists r,
    build_coordinate_queries uniq_coords stride off_coords g
    = Ok r (mkGlobals (mem_trace g) "QRY")
    /\ sized r (length uniq_coords * length off_coords)
    /\ forall (o i : nat) off ic,
         off_coords !! o = Some off -> uniq_coords !! i = Some ic ->
         query_at r (o * length uniq_coords + i)
         = Some (query_entry o off i ic).
Proof.
  eexists. split; [reflexivity|]. split.
  - apply outer_loop_sized, resized_result_sized.
  - intros o i off ic Ho Hi.
    apply (outer_loop_hit uniq_coords off_coords 0 _ _ o i off ic
             (resized_result_sized _) Ho Hi). simpl. lia.
Qed.

(** C4. For [U] unique coordinates and [K] offsets the QRY phase returns
    [U * K] queries, and the query at global index [o * U + i] has the
    packed key of [uniq_coords[i] + off_coords[o]], [qry_in_idx = i] and
    [qry_off_idx = o] (sizes within the range of [int]). *)
Theorem build_coordinate_queries_complete (uniq_coords : list IndexedCoord)
    (stride : Z) (off_coords : list Coord3D) (g : Globals) :
  Z.of_nat (length uniq_coords) <= INT_MAX + 1 ->
  Z.of_nat (length off_coords) <= INT_MAX + 1 ->
  exists r g',
    build_coordinate_queries uniq_coords stride off_coords g = Ok r g'
    /\ length (qry_keys r) = (length uniq_coords * length off_coords)%nat
    /\ length (qry_in_idx r) = (length uniq_coords * length off_coords)%nat
    /\ length (qry_off_idx r) = (length uniq_coords * length off_coords)%nat
    /\ forall (o i : nat) off ic,
         off_coords !! o = Some off -> uniq_coords !! i = Some ic ->
         exists qk,
           qry_keys r !! (o * length uniq_coords + i)%nat = Some qk
           /\ ic_to_key qk = to_key (coord_add (coord ic) off)
           /\ qry_in_idx r !! (o * length uniq_coords + i)%nat
              = Some (Z.of_nat i)
           /\ qry_off_idx r !! (o * length uniq_coords + i)%nat
              = Some (Z.of_nat o).
Proof.
  intros HU HK.
  destruct (build_coordinate_queries_run uniq_coords stride off_coords g)
    as (r & E & (H1 & H2 & H3 & H4) & Hq).
  exists r, (mkGlobals (mem_trace g) "QRY").
  repeat (split; [done|]).
  intros o i off ic Ho Hi. specialize (Hq o i off ic Ho Hi).
  apply lookup_lt_Some in Ho as Hlo. apply lookup_lt_Some in Hi as Hli.
  unfold query_at, query_entry in Hq.
  destruct (qry_keys r !! _) as [qk|]; [|done].
  destruct (qry_in_idx r !! _) as [a|]; [|done].
  destruct (qry_off_idx r !! _) as [b|]; [|done].
  destruct (wt_offsets r !! _) as [w|]; [|done].
  simpl in Hq. injection Hq as -> -> -> ->.
  exists (mkIndexed (coord_add (coord ic) off) (orig_idx ic)).
  split; [done|]. split; [done|].
  rewrite !to_int_small by (unfold INT_MAX in *; lia). done.
Qed.

End QueryFacts.

(** ** PVT *)

Lemma emits_returns {A} (m : M A) (a : A) (P : A -> Prop) :
  emits m a -> P a -> returns m P.
Proof. intros Hm HP g Hg. destruct (Hm g Hg) as [tr E]. eauto. Qed.

Lemma returns_bind {A B} (m : M A) (f : A -> M B) (P : A -> Prop)
    (Q : B -> Prop) :
  returns m P -> (forall a, P a -> returns (f a) Q) -> returns (m ≫= f) Q.
Proof.
  intros Hm Hf g Hg. destruct (Hm g Hg) as (a & tr1 & E1 & HP).
  rewrite (bind_ok _ _ _ _ _ E1).
  destruct (Hf a HP (mkGlobals (mem_trace g ++ tr1) (curr_phase g)) Hg)
    as (b & tr2 & E2 & HQ). simpl in E2.
  exists b, (tr1 ++ tr2). now rewrite E2, app_assoc.
Qed.

Lemma returns_weaken {A} (m : M A) (P Q : A -> Prop) :
  returns m P -> (forall a, P a -> Q a) -> returns m Q.
Proof.
  intros Hm HPQ g Hg. destruct (Hm g Hg) as (a & tr & E & HP). eauto.
Qed.

Lemma returns_ret {A} (a : A) (P : A -> Prop) : P a -> returns (mret a) P.
Proof. intros HP. eapply emits_returns; [apply emits_ret|done]. Qed.

Lemma slice_take_drop {A} (v : list A) (start end_ : Z) :
  0 <= start ->
  slice v start end_
  = take (Z.to_nat end_ - Z.to_nat start) (drop (Z.to_nat start) v).
Proof.
  intros Hs. unfold slice. f_equal. lia.
Qed.

Section TileFacts.

Context (g_config : Config).

(** The tiling loop from [start] on: it appends tiles whose concatenation
    is the rest of the sequence, and their first elements as pivots. *)
Lemma tiles_loop_returns (uniq_coords : list IndexedCoord) (cts : Z)
    (fuel : nat) (start : Z) (result : TilesPivotsResult) :
  1 <= cts <= INT_MAX -> 0 <= start ->
  Z.of_nat (length uniq_coords) <= INT_MAX ->
  Z.of_nat (length uniq_coords) - start <= Z.of_nat fuel ->
  returns (tiles_loop g_config uniq_coords cts fuel start result)
    (fun result' => exists new_tiles new_pivots,
       tiles result' = tiles result ++ new_tiles
       /\ pivots result' = pivots result ++ new_pivots
       /\ mjoin new_tiles = drop (Z.to_nat start) uniq_coords
       /\ pivots_aligned new_tiles new_pivots
       /\ Forall (fun tile => (length tile <= Z.to_nat cts)%nat) new_tiles
       /\ (Z.of_nat (length uniq_coords) <= start + cts ->
           start < Z.of_nat (length uniq_coords) ->
           new_tiles = [drop (Z.to_nat start) uniq_coords])).
Proof.
  intros Hcts.
  revert start result. induction fuel as [|fuel IH];
    intros start result Hstart Hsize Hfuel; simpl.
  - apply returns_ret. exists [], []. rewrite !app_nil_r.
    rewrite drop_ge by lia.
    repeat split; try done; try constructor; lia.
  - destruct (decide (start < Z.of_nat (length uniq_coords))) as [Hlt|Hge].
    2:{ apply returns_ret. exists [], []. rewrite !app_nil_r.
        rewrite drop_ge by lia.
        repeat split; try done; try constructor; lia. }
    assert (to_u64 (start + cts) = start + cts) as Hu.
    { unfold to_u64, UINT64_MOD. apply Z.mod_small.
      unfold INT_MAX in *. lia. }
    rewrite Hu.
    set (end_ := Z.min (start + cts) (Z.of_nat (length uniq_coords))).
    assert (slice uniq_coords start end_
            = take (Z.to_nat cts) (drop (Z.to_nat start) uniq_coords))
      as Hslice.
    { unfold slice, end_.
      destruct (decide (start + cts <= Z.of_nat (length uniq_coords))).
      - rewrite Z.min_l by lia. f_equal. lia.
      - rewrite Z.min_r by lia.
        rewrite !take_ge; [done| |]; rewrite length_drop; lia. }
    rewrite Hslice.
    destruct (drop (Z.to_nat start) uniq_coords) as [|first rest] eqn:Hdrop.
    { apply (f_equal length) in Hdrop. rewrite length_drop in Hdrop.
      simpl in Hdrop. lia. }
    assert (take (Z.to_nat cts) (first :: rest)
            = first :: take (Z.to_nat cts - 1) rest) as Htake.
    { destruct (Z.to_nat cts) as [|n] eqn:Hn; [lia|]. simpl.
      now rewrite Nat.sub_0_r. }
    rewrite Htake.
    apply (returns_bind _ _
             (fun r => r = mkTiles
                (tiles result ++ [first :: take (Z.to_nat cts - 1) rest])
                (pivots result ++ [first]))).
    + apply (returns_bind _ _ (fun _ => True)).
      * apply (emits_returns _ tt (fun _ => True));
          [now apply emits_record_access with 1|exact I].
      * intros _ _. now apply returns_ret.
    + intros result' ->.
      eapply returns_weaken.
      * apply IH; unfold INT_MAX in *; lia.
      * intros result'' (nt & np & Ht & Hp & Hcat & Hal & Hlen & Hone).
        simpl in Ht, Hp.
        exists ((first :: take (Z.to_nat cts - 1) rest) :: nt), (first :: np).
        rewrite Ht, Hp, <- !app_assoc. simpl.
        repeat split.
        -- rewrite Hcat.
           replace (Z.to_nat (start + cts))
             with (Z.to_nat start + Z.to_nat cts)%nat by lia.
           rewrite <- drop_drop, Hdrop, app_comm_cons, <- Htake.
           now rewrite take_drop.
        -- constructor; [done|exact Hal].
        -- constructor; [|exact Hlen]. simpl. rewrite length_take. lia.
        -- intros Hall _.
           assert (length (first :: rest)
                   = (length uniq_coords - Z.to_nat start)%nat) as Hl
             by (rewrite <- Hdrop; apply length_drop).
           simpl in Hl.
           rewrite take_ge by lia.
           destruct nt as [|t nt']; [done|].
           exfalso. apply (f_equal length) in Hcat.
           rewrite length_drop in Hcat.
           assert (0 < length (mjoin (t :: nt')))%nat; [|lia].
           inversion Hal as [|? ? ? ? Hh _]; subst.
           destruct t; [done|]. simpl. lia.
Qed.

End TileFacts.

Section TilingTheorems.

Context (g_config : Config).

(** The PVT phase always returns, with the phase tag at PVT. *)
Lemma create_tiles_and_pivots_run (uniq_coords : list IndexedCoord)
    (tile_size_param : Z) (g : Globals) :
  Z.of_nat (length uniq_coords) <= INT_MAX -> tile_size_param <= INT_MAX ->
  exists T tr,
    create_tiles_and_pivots g_config uniq_coords tile_size_param g
    = Ok T (mkGlobals (mem_trace g ++ tr) "PVT")
    /\ mjoin (tiles T) = uniq_coords
    /\ pivots_aligned (tiles T) (pivots T)
    /\ (tile_size_param <= 0 -> uniq_coords ≠ [] -> tiles T = [uniq_coords])
    /\ (uniq_coords = [] -> tiles T = [] /\ pivots T = [])
    /\ (0 < tile_size_param ->
        Forall (fun tile => (length tile <= Z.to_nat tile_size_param)%nat)
               (tiles T))
    /\ (Z.of_nat (length uniq_coords) <= tile_size_param ->
        uniq_coords ≠ [] -> tiles T = [uniq_coords]).
Proof.
  intros Hlen Hts. unfold create_tiles_and_pivots.
  rewrite (bind_ok _ _ g "PVT"%string g) by reflexivity.
  rewrite (bind_ok _ _ g tt (mkGlobals (mem_trace g) "PVT")) by reflexivity.
  destruct uniq_coords as [|u0 us] eqn:Hu.
  { exists (mkTiles [] []), []. rewrite app_nil_r.
    repeat split; try done; try constructor. }
  rewrite <- Hu in *.
  assert (0 < Z.of_nat (length uniq_coords)) as Hpos
    by (rewrite Hu; simpl; lia).
  assert (to_int (Z.of_nat (length uniq_coords))
          = Z.of_nat (length uniq_coords)) as Hfb
    by (apply to_int_small; unfold INT_MAX in *; lia).
  rewrite Hfb.
  rewrite decide_False by lia.
  set (cts := if decide (tile_size_param <= 0)
              then Z.of_nat (length uniq_coords) else tile_size_param).
  assert (1 <= cts <= INT_MAX) as Hcts.
  { unfold cts. destruct (decide _); lia. }
  assert (phase_ok (mkGlobals (mem_trace g) "PVT")) as Hok by (now eexists).
  destruct (tiles_loop_returns g_config uniq_coords cts (length uniq_coords)
              0 (mkTiles [] []) Hcts ltac:(lia) Hlen ltac:(lia) _ Hok)
    as (T & tr & E & nt & np & Ht & Hp & Hcat & Hal & Hsz & Hone).
  simpl in *. exists T, tr. split; [exact E|].
  rewrite Ht, Hp. repeat split.
  - exact Hcat.
  - exact Hal.
  - intros Hle _. apply Hone; [|lia]. unfold cts.
    rewrite decide_True by done. lia.
  - congruence.
  - congruence.
  - intros Hgt. unfold cts in Hsz. now rewrite decide_False in Hsz by lia.
  - intros Hle _. apply Hone; [|lia]. unfold cts.
    rewrite decide_False by lia. lia.
Qed.

(** C5 (amended). For every sequence and tile size (both within the range
    of [int]) the PVT phase returns tiles whose concatenation, in order, is
    the input sequence, with one pivot per tile, the tile's first element;
    a tile size [<= 0] yields the whole sequence as a single tile when the
    sequence is non-empty, and no tile at all when it is empty. *)
Theorem create_tiles_and_pivots_coverage (uniq_coords : list IndexedCoord)
    (tile_size_param : Z) (g : Globals) :
  Z.of_nat (length uniq_coords) <= INT_MAX -> tile_size_param <= INT_MAX ->
  exists T g',
    create_tiles_and_pivots g_config uniq_coords tile_size_param g = Ok T g'
    /\ mjoin (tiles T) = uniq_coords
    /\ length (pivots T) = length (tiles T)
    /\ (forall (t : nat) tile,
          tiles T !! t = Some tile ->
          exists first, head tile = Some first /\ pivots T !! t = Some first)
    /\ (tile_size_param <= 0 -> uniq_coords ≠ [] -> tiles T = [uniq_coords])
    /\ (uniq_coords = [] -> tiles T = []).
Proof.
  intros Hlen Hts.
  destruct (create_tiles_and_pivots_run uniq_coords tile_size_param g
              Hlen Hts) as (T & tr & E & Hcat & Hal & Hone & Hnil & _ & _).
  exists T, (mkGlobals (mem_trace g ++ tr) "PVT").
  repeat split; try done.
  - symmetry. eapply Forall2_length, Hal.
  - intros t tile Ht.
    destruct (Forall2_lookup_l _ _ _ _ _ Hal Ht) as (piv & Hp & Hh). eauto.
  - intros H. now apply Hnil.
Qed.

End TilingTheorems.

Lemma create_tiles_and_pivots_coverage_witness :
  Z.of_nat (length [mkIndexed (mkCoord 0 0 0) 0; mkIndexed (mkCoord 1 0 0) 1])
    <= INT_MAX
  /\ 1 <= INT_MAX
  /\ exists T g',
       create_tiles_and_pivots example_config
         [mkIndexed (mkCoord 0 0 0) 0; mkIndexed (mkCoord 1 0 0) 1] 1
         initial_globals = Ok T g'
       /\ mjoin (tiles T)
          = [mkIndexed (mkCoord 0 0 0) 0; mkIndexed (mkCoord 1 0 0) 1]
       /\ length (pivots T) = length (tiles T)
       /\ (forall (t : nat) tile,
             tiles T !! t = Some tile ->
             exists first,
               head tile = Some first /\ pivots T !! t = Some first)
       /\ (1 <= 0 ->
           [mkIndexed (mkCoord 0 0 0) 0; mkIndexed (mkCoord 1 0 0) 1] ≠ [] ->
           tiles T
           = [[mkIndexed (mkCoord 0 0 0) 0; mkIndexed (mkCoord 1 0 0) 1]])
       /\ ([mkIndexed (mkCoord 0 0 0) 0; mkIndexed (mkCoord 1 0 0) 1] = [] ->
           tiles T = []).
Proof.
  split; [vm_compute; discriminate|]. split; [vm_compute; discriminate|].
  apply (create_tiles_and_pivots_coverage example_config
           [mkIndexed (mkCoord 0 0 0) 0; mkIndexed (mkCoord 1 0 0) 1] 1
           initial_globals); vm_compute; discriminate.
Defined.

(** C5, as stated, fails on the empty sequence: with tile size 0 the PVT
    phase returns no tile, not a single one. *)
Lemma single_tile_counterexample :
  ~ (exists T g',
       create_tiles_and_pivots example_config [] 0 initial_globals = Ok T g'
       /\ length (tiles T) = 1%nat).
Proof.
  intros (T & g' & E & Hlen). vm_compute in E.
  injection E as <- _. discriminate Hlen.
Qed.

Lemma unique_sorted_coords_min_index_witness :
  0 < NUM_THREADS example_config
  /\ Z.of_nat (length [mkCoord 0 0 0; mkCoord 1 0 0; mkCoord 0 0 0])
    <= INT_MAX + 1
  /\ exists out g',
       compute_unique_sorted_coords example_config
         [mkCoord 0 0 0; mkCoord 1 0 0; mkCoord 0 0 0] 1 initial_globals
       = Ok out g'
       /\ forall ic, ic ∈ out ->
            exists (i : nat) (c : Coord3D),
              orig_idx ic = Z.of_nat i
              /\ [mkCoord 0 0 0; mkCoord 1 0 0; mkCoord 0 0 0] !! i = Some c
              /\ key_of 1 c = ic_to_key ic
              /\ forall (j : nat) (c' : Coord3D),
                   [mkCoord 0 0 0; mkCoord 1 0 0; mkCoord 0 0 0] !! j
                   = Some c' ->
                   key_of 1 c' = ic_to_key ic -> (i <= j)%nat.
Proof.
  split; [reflexivity|]. split; [vm_compute; discriminate|].
  apply (unique_sorted_coords_min_index example_config
           [mkCoord 0 0 0; mkCoord 1 0 0; mkCoord 0 0 0] 1 initial_globals).
  - reflexivity.
  - vm_compute; discriminate.
Defined.

Lemma unique_sorted_coords_dedup_witness :
  0 < NUM_THREADS example_config
  /\ exists out g',
       compute_unique_sorted_coords example_config
         [mkCoord 0 0 0; mkCoord 1 0 0; mkCoord 0 0 0] 1 initial_globals
       = Ok out g'
       /\ NoDup (ic_to_key <$> out)
       /\ StronglySorted Z.lt (ic_to_key <$> out)
       /\ (length out <= 3)%nat.
Proof.
  split; [reflexivity|].
  destruct (unique_sorted_coords_dedup example_config
              [mkCoord 0 0 0; mkCoord 1 0 0; mkCoord 0 0 0] 1
              initial_globals eq_refl)
    as (out & g' & E & _ & Hnd & Hs & _ & Hlen).
  exists out, g'. split; [exact E|]. split; [exact Hnd|].
  split; [exact Hs|exact Hlen].
Defined.

Lemma build_coordinate_queries_complete_witness :
  Z.of_nat (length [mkIndexed (mkCoord 0 0 0) 0; mkIndexed (mkCoord 1 0 0) 1])
    <= INT_MAX + 1
  /\ Z.of_nat (length [mkCoord 1 0 0]) <= INT_MAX + 1
  /\ exists r g',
       build_coordinate_queries
         [mkIndexed (mkCoord 0 0 0) 0; mkIndexed (mkCoord 1 0 0) 1] 1
         [mkCoord 1 0 0] initial_globals = Ok r g'
       /\ length (qry_keys r) = (2 * 1)%nat
       /\ length (qry_in_idx r) = (2 * 1)%nat
       /\ length (qry_off_idx r) = (2 * 1)%nat
       /\ forall (o i : nat) off ic,
            [mkCoord 1 0 0] !! o = Some off ->
            [mkIndexed (mkCoord 0 0 0) 0; mkIndexed (mkCoord 1 0 0) 1] !! i
            = Some ic ->
            exists qk,
              qry_keys r !! (o * 2 + i)%nat = Some qk
              /\ ic_to_key qk = to_key (coord_add (coord ic) off)
              /\ qry_in_idx r !! (o * 2 + i)%nat = Some (Z.of_nat i)
              /\ qry_off_idx r !! (o * 2 + i)%nat = Some (Z.of_nat o).
Proof.
  split; [vm_compute; discriminate|]. split; [vm_compute; discriminate|].
  apply (build_coordinate_queries_complete
           [mkIndexed (mkCoord 0 0 0) 0; mkIndexed (mkCoord 1 0 0) 1] 1
           [mkCoord 1 0 0] initial_globals); vm_compute; discriminate.
Defined.

(** ** The writers *)

Lemma le_bytes_length (w v : Z) : 0 <= w -> length (le_bytes w v) = Z.to_nat w.
Proof.
  intros Hw. unfold le_bytes.
  pose proof (length_Z_to_little_endian w 8 v Hw). lia.
Qed.

Lemma appends_ret : appends (mret tt) [] [].
Proof.
  intros st. exists (ws_crc st), 0%nat.
  rewrite !app_nil_r, Nat.add_0_r. now destruct st.
Qed.

Lemma appends_bind (m : ST WriterState unit) (f : unit -> ST WriterState unit)
    b1 l1 b2 l2 :
  appends m b1 l1 -> appends (f tt) b2 l2 ->
  appends (m ≫= f) (b1 ++ b2) (l1 ++ l2).
Proof.
  intros Hm Hf st. destruct (Hm st) as (c1 & n1 & E1).
  rewrite (bind_ok _ _ _ _ _ E1).
  destruct (Hf (mkWriter (ws_payload st ++ b1) (ws_writes st + n1) c1
                  (ws_created st) (ws_open st) (ws_stderr st ++ l1)))
    as (c2 & n2 & E2). simpl in E2.
  exists c2, (n1 + n2)%nat. rewrite E2, !app_assoc, Nat.add_assoc. done.
Qed.

Lemma appends_forM {A} (l : list A) (body : A -> ST WriterState unit)
    (bytes log : A -> list Z) :
  (forall x, x ∈ l -> appends (body x) (bytes x) (log x)) ->
  appends (forM_ l body) (mjoin (bytes <$> l)) (mjoin (log <$> l)).
Proof.
  induction l as [|x l IH]; intros Hb; simpl.
  - apply appends_ret.
  - apply appends_bind; [apply Hb; left|].
    apply IH. intros y Hy. apply Hb. now right.
Qed.

Lemma total_order_item_before : Total item_before.
Proof. intros a b. unfold item_before. lia. Qed.

Lemma transitive_item_before : Transitive item_before.
Proof. intros a b c. unfold item_before. lia. Qed.

Lemma get_sorted_items_perm (kmap : gmap Z (list (Z * Z))) :
  get_sorted_items kmap ≡ₚ map_to_list kmap.
Proof. apply merge_sort_Permutation. Qed.

(** The groups come by descending list length. *)
Lemma get_sorted_items_descending (kmap : gmap Z (list (Z * Z))) :
  StronglySorted (fun a b => (length b.2 <= length a.2)%nat)
                 (get_sorted_items kmap).
Proof.
  pose proof (@StronglySorted_merge_sort _ item_before _
                transitive_item_before total_order_item_before
                (map_to_list kmap)) as Hs.
  unfold get_sorted_items.
  induction Hs as [|a l Hl IH Ha]; constructor; [exact IH|].
  eapply Forall_impl; [exact Ha|]. unfold item_before. simpl. intros; lia.
Qed.

Lemma count_total_entries_sum (kmap : gmap Z (list (Z * Z))) :
  count_total_entries kmap = to_u32 (Z.of_nat (total_matches kmap)).
Proof.
  unfold count_total_entries, total_matches.
  induction (map_to_list kmap) as [|grp l IH]; simpl; [done|].
  rewrite IH. unfold to_u32, UINT32_MOD.
  rewrite <- Z.add_mod by lia. rewrite Nat2Z.inj_add.
  f_equal. apply Z.add_comm.
Qed.

Lemma group_records_length (off_list : list Coord3D) grp :
  Forall (fun rec => length rec = 12%nat) (group_records off_list grp).
Proof.
  unfold group_records. destruct (decide _); [constructor|].
  apply Forall_fmap, Forall_forall. intros m _. reflexivity.
Qed.

Lemma trace_record_length (w : Z) (e : MemoryAccessEntry) :
  w = 4 \/ w = 8 -> length (trace_record w e) = Z.to_nat (4 + w).
Proof.
  intros Hw. unfold trace_record. rewrite !length_app.
  rewrite !le_bytes_length by lia.
  destruct (decide (w = 4)) as [->|Hne]; rewrite le_bytes_length by lia.
  - done.
  - destruct Hw as [->| ->]; done.
Qed.

Section WriterFacts.

Context (crc32 : Z -> list Z -> Z) (env : IoEnv).
Hypothesis Hnofail : write_fail_at env = None.

Lemma appends_write (data : list Z) :
  appends (write_and_crc crc32 env data) data [].
Proof.
  intros st. unfold write_and_crc. rewrite Hnofail.
  rewrite decide_False by done.
  exists (crc32 (ws_crc st) data), 1%nat.
  rewrite app_nil_r. repeat f_equal. lia.
Qed.

Lemma appends_write_entry (w : Z) (e : MemoryAccessEntry) :
  appends (write_entry crc32 env w e) (trace_record w e) [].
Proof.
  unfold write_entry, trace_record.
  repeat (apply (appends_bind _ _ _ [] _ []); [apply appends_write|]).
  destruct (decide _); apply appends_write.
Qed.

Lemma appends_write_match (key : Z) (m : Z * Z) :
  appends (write_match crc32 env key m) (match_record key m) [].
Proof.
  unfold write_match, match_record.
  repeat (apply (appends_bind _ _ _ [] _ []); [apply appends_write|]).
  apply appends_write.
Qed.

Lemma appends_write_group (off_list : list Coord3D) grp :
  appends (write_group crc32 env off_list grp)
          (mjoin (group_records off_list grp)) (group_log off_list grp).
Proof.
  unfold write_group, group_records, group_log, out_of_bounds.
  destruct (decide _) as [Hoob|Hin].
  - intros st. exists (ws_crc st), 0%nat. simpl.
    now rewrite app_nil_r, Nat.add_0_r.
  - replace (@nil Z) with (mjoin ((fun _ : Z * Z => @nil Z) <$> grp.2))
      by (induction grp.2; simpl; auto).
    apply appends_forM. intros m _. apply appends_write_match.
Qed.

End WriterFacts.

(** [le_bytes] is the little-endian encoding: decoding gives the value back,
    modulo the width. *)
Lemma le_bytes_decode (w v : Z) :
  0 <= w -> little_endian_to_Z 8 (le_bytes w v) = v mod 2 ^ (w * 8).
Proof.
  intros Hw. unfold le_bytes.
  now rewrite little_endian_to_Z_to_little_endian by lia.
Qed.

Example zlib_crc32_check :
  zlib_crc32 0 [49; 50; 51; 52; 53; 54; 55; 56; 57] = 3421780262.
Proof. vm_compute. reflexivity. Qed.

Lemma join_join_fmap {A B} (f : A -> list (list B)) (l : list A) :
  mjoin ((fun x => mjoin (f x)) <$> l) = mjoin (mjoin (f <$> l)).
Proof.
  induction l as [|x l IH]; csimpl; [done|]. now rewrite join_app, IH.
Qed.

Lemma records_count (off_list : list Coord3D) (l : list (Z * list (Z * Z))) :
  Forall (fun grp => ~ out_of_bounds off_list grp) l ->
  length (mjoin (group_records off_list <$> l))
  = sum_list ((fun grp => length grp.2) <$> l).
Proof.
  induction 1 as [|grp l Hgrp Hl IH]; csimpl; [done|].
  rewrite length_app, IH. f_equal.
  unfold group_records. rewrite decide_False by done. apply length_fmap.
Qed.

Lemma sum_list_perm (l k : list nat) : l ≡ₚ k -> sum_list l = sum_list k.
Proof. induction 1; simpl; lia. Qed.

(** Projections of a written-out writer state, the byte lists being left
    alone. *)
Tactic Notation "writer_cbn" :=
  cbn [ws_payload ws_writes ws_crc ws_created ws_open ws_stderr app Nat.add].
Tactic Notation "writer_cbn" "in" hyp(H) :=
  cbn [ws_payload ws_writes ws_crc ws_created ws_open ws_stderr app Nat.add]
    in H.

Section WriterTheorems.

Context (crc32 : Z -> list Z -> Z) (env : IoEnv).

(** C8 (amended). When the trace file cannot be opened the call fails with
    a runtime error, whatever the address width.  When it can: a width
    other than 4 or 8 makes the call fail with an invalid-argument error
    before any write, the file having been created by the open and its
    payload staying empty; with width 4 or 8, and no write failing, the
    payload is the little-endian 32-bit entry count followed by one record
    of [4 + width] bytes per trace entry. *)
Theorem write_gmem_trace_behaviour (mem_trace_v : list MemoryAccessEntry)
    (sizeof_addr : Z) (st : WriterState) :
  (open_ok env = false ->
   write_gmem_trace crc32 env mem_trace_v sizeof_addr st
   = Throw RuntimeError st)
  /\ (open_ok env = true -> sizeof_addr ≠ 4 -> sizeof_addr ≠ 8 ->
      exists st',
        write_gmem_trace crc32 env mem_trace_v sizeof_addr st
        = Throw InvalidArgument st'
        /\ ws_payload st' = [] /\ ws_writes st' = 0%nat
        /\ ws_created st' = true /\ ws_open st' = false)
  /\ (open_ok env = true -> sizeof_addr = 4 \/ sizeof_addr = 8 ->
      write_fail_at env = None ->
      exists crc st',
        write_gmem_trace crc32 env mem_trace_v sizeof_addr st = Ok crc st'
        /\ ws_payload st'
           = le_bytes 4 (to_u32 (Z.of_nat (length mem_trace_v)))
             ++ mjoin (trace_record sizeof_addr <$> mem_trace_v)
        /\ Forall (fun rec => length rec = Z.to_nat (4 + sizeof_addr))
                  (trace_record sizeof_addr <$> mem_trace_v)
        /\ ws_open st' = false).
Proof.
  unfold write_gmem_trace. repeat split.
  - intros Hopen. unfold mbind, ST_bind, gzopen. now rewrite Hopen.
  - intros Hopen H4 H8.
    unfold mbind at 1, ST_bind at 1, gzopen. rewrite Hopen.
    rewrite decide_True by done. eexists. split; [reflexivity|]. done.
  - intros Hopen Hw Hnofail.
    unfold mbind at 1, ST_bind at 1, gzopen. rewrite Hopen.
    rewrite decide_False by lia.
    rewrite (bind_ok (crc_init crc32) _ _ tt _ eq_refl).
    match goal with |- context [write_and_crc _ _ ?d ≫= _] =>
      destruct (appends_write crc32 env Hnofail d
                  (mkWriter [] 0 (crc32 0 []) true true (ws_stderr st)))
        as (c1 & n1 & E1) end.
    writer_cbn in E1. rewrite (bind_ok _ _ _ _ _ E1).
    match goal with |- context [forM_ ?l ?b ≫= _] =>
      destruct (appends_forM l b (trace_record sizeof_addr)
                  (fun _ => [])
                  (fun e _ => appends_write_entry crc32 env Hnofail
                                sizeof_addr e)
                  (mkWriter (le_bytes 4 (to_u32 (Z.of_nat
                               (length mem_trace_v))))
                            n1 c1 true true (ws_stderr st ++ [])))
        as (c2 & n2 & E2) end.
    writer_cbn in E2. rewrite (bind_ok _ _ _ _ _ E2).
    rewrite (bind_ok gzclose _ _ tt _ eq_refl).
    eexists _, _. split; [reflexivity|]. writer_cbn. split; [done|].
    split; [|done].
    apply Forall_fmap, Forall_forall. intros e _.
    now apply trace_record_length.
Qed.

(** C7 (amended). When the file opens and no write fails, the kernel-map
    writer produces the little-endian 32-bit sum of all match-list lengths
    and then 12-byte records, group by group in descending list-length
    order, every group of the map being visited once: a group whose offset
    index is in bounds gives one record per match, a group whose offset
    index is out of bounds gives no record and one logged message, and the
    groups after it are still written.  When no group is out of bounds the
    number of records is the sum of the list lengths. *)
Theorem write_kernel_map_format (kmap_data : gmap Z (list (Z * Z)))
    (off_list : list Coord3D) (st : WriterState) :
  open_ok env = true -> write_fail_at env = None ->
  let groups := get_sorted_items kmap_data in
  let records := mjoin (group_records off_list <$> groups) in
  exists crc st',
    write_kernel_map_to_gz crc32 env kmap_data off_list st = Ok crc st'
    /\ ws_payload st'
       = le_bytes 4 (to_u32 (Z.of_nat (total_matches kmap_data)))
         ++ mjoin records
    /\ Forall (fun rec => length rec = 12%nat) records
    /\ groups ≡ₚ map_to_list kmap_data
    /\ StronglySorted (fun a b => (length b.2 <= length a.2)%nat) groups
    /\ ws_stderr st' = ws_stderr st ++ mjoin (group_log off_list <$> groups)
    /\ (forall grp, grp ∈ groups ->
          (out_of_bounds off_list grp ->
             group_records off_list grp = []
             /\ group_log off_list grp = [to_u32 grp.1])
          /\ (~ out_of_bounds off_list grp ->
                length (group_records off_list grp) = length grp.2
                /\ group_log off_list grp = []))
    /\ (Forall (fun grp => ~ out_of_bounds off_list grp) groups ->
        length records = total_matches kmap_data).
Proof.
  intros Hopen Hnofail groups records.
  unfold write_kernel_map_to_gz.
  unfold mbind at 1, ST_bind at 1, gzopen. rewrite Hopen.
  rewrite (bind_ok (crc_init crc32) _ _ tt _ eq_refl).
  rewrite count_total_entries_sum.
  match goal with |- context [write_and_crc _ _ ?d ≫= _] =>
    destruct (appends_write crc32 env Hnofail d
                (mkWriter [] 0 (crc32 0 []) true true (ws_stderr st)))
      as (c1 & n1 & E1) end.
  writer_cbn in E1. rewrite (bind_ok _ _ _ _ _ E1).
  match goal with |- context [forM_ ?l ?b ≫= _] =>
    destruct (appends_forM l b
                (fun grp => mjoin (group_records off_list grp))
                (group_log off_list)
                (fun grp _ => appends_write_group crc32 env Hnofail
                                off_list grp)
                (mkWriter (le_bytes 4 (to_u32 (Z.of_nat
                             (total_matches kmap_data))))
                          n1 c1 true true (ws_stderr st ++ [])))
      as (c2 & n2 & E2) end.
  writer_cbn in E2. rewrite (bind_ok _ _ _ _ _ E2).
  rewrite (bind_ok gzclose _ _ tt _ eq_refl).
  eexists _, _. split; [reflexivity|]. writer_cbn.
  split.
  { f_equal. apply join_join_fmap. }
  split.
  { unfold records. apply Forall_forall. intros rec Hrec.
    apply list_elem_of_join in Hrec as (recs & Hrec & Hrecs).
    apply list_elem_of_fmap in Hrecs as (grp & -> & _).
    pose proof (group_records_length off_list grp) as Hl.
    rewrite Forall_forall in Hl. now apply Hl. }
  split; [apply get_sorted_items_perm|].
  split; [apply get_sorted_items_descending|].
  split; [now rewrite app_nil_r|].
  split.
  { intros grp _. unfold group_records, group_log. split.
    - intros Hoob. now rewrite !decide_True by done.
    - intros Hin. rewrite !decide_False by done.
      split; [apply length_fmap|done]. }
  intros Hall. unfold records, total_matches.
  rewrite (records_count off_list groups Hall).
  apply sum_list_perm, fmap_Permutation, get_sorted_items_perm.
Qed.

End WriterTheorems.

Lemma write_gmem_trace_behaviour_witness :
  (open_ok io_ok = true -> 4 = 4 \/ 4 = 8 -> write_fail_at io_ok = None ->
   exists crc st',
     write_gmem_trace zlib_crc32 io_ok [mkEntry 4 0 0 1 536870912] 4
       fresh_writer = Ok crc st'
     /\ ws_payload st'
        = [1; 0; 0; 0; 4; 0; 0; 1; 0; 0; 0; 32])
  /\ (open_ok io_ok = true -> 3 ≠ 4 -> 3 ≠ 8 ->
      exists st',
        write_gmem_trace zlib_crc32 io_ok [mkEntry 4 0 0 1 536870912] 3
          fresh_writer = Throw InvalidArgument st'
        /\ ws_payload st' = []).
Proof.
  split.
  - intros Hopen Hw Hnofail.
    destruct (write_gmem_trace_behaviour zlib_crc32 io_ok
                [mkEntry 4 0 0 1 536870912] 4 fresh_writer)
      as (_ & _ & H).
    destruct (H Hopen Hw Hnofail) as (crc & st' & E & Hp & _).
    exists crc, st'. split; [exact E|]. rewrite Hp. reflexivity.
  - intros Hopen H4 H8.
    destruct (write_gmem_trace_behaviour zlib_crc32 io_ok
                [mkEntry 4 0 0 1 536870912] 3 fresh_writer)
      as (_ & H & _).
    destruct (H Hopen H4 H8) as (st' & E & Hp & _). eauto.
Defined.

(** C8, as stated, fails when the file cannot be opened: the call with
    width 3 then ends in a runtime error, not in an invalid-argument
    error. *)
Lemma invalid_width_counterexample :
  write_gmem_trace zlib_crc32 (mkIo false None) [] 3 fresh_writer
  = Throw RuntimeError fresh_writer
  /\ ~ (exists st',
          write_gmem_trace zlib_crc32 (mkIo false None) [] 3 fresh_writer
          = Throw InvalidArgument st').
Proof.
  split; [reflexivity|]. intros (st' & E). vm_compute in E. discriminate E.
Qed.

Lemma write_kernel_map_format_witness :
  open_ok io_ok = true /\ write_fail_at io_ok = None
  /\ exists crc st',
       write_kernel_map_to_gz zlib_crc32 io_ok kmap_at_0
         [mkCoord 1 0 0] fresh_writer = Ok crc st'
       /\ ws_payload st'
          = [1; 0; 0; 0;  0; 0; 16; 0;  1; 0; 0; 0;  0; 0; 0; 0].
Proof.
  split; [reflexivity|]. split; [reflexivity|].
  destruct (write_kernel_map_format zlib_crc32 io_ok kmap_at_0
              [mkCoord 1 0 0] fresh_writer eq_refl eq_refl)
    as (crc & st' & E & Hp & _).
  exists crc, st'. split; [exact E|]. rewrite Hp. vm_compute. reflexivity.
Defined.

(** C7, as stated, fails when a group is skipped: the header announces one
    entry and no record follows. *)
Lemma skipped_group_counterexample :
  exists crc st',
    write_kernel_map_to_gz zlib_crc32 io_ok kmap_at_5
      [mkCoord 1 0 0] fresh_writer = Ok crc st'
    /\ total_matches kmap_at_5 = 1%nat
    /\ ws_payload st' = le_bytes 4 1
    /\ length (ws_payload st')
       ≠ (4 + 12 * total_matches kmap_at_5)%nat
    /\ ws_stderr st' = [5].
Proof.
  eexists _, _. split; [vm_compute; reflexivity|].
  repeat split; vm_compute; congruence.
Qed.

(** ** LKP: one query *)

Section LookupFacts.

Context (g_config : Config).
Context (uniq_coords : list IndexedCoord) (qry_keys_v : list IndexedCoord)
        (qry_off_idx_v : list Z)
        (tiles_v : list (list IndexedCoord)) (pivs : list IndexedCoord)
        (tile_size_param : Z).

Lemma make_entry_addr (tid : Z) (op_str : string) (a : Z) (o : Z) g :
  forward_find OPS op_str = Some o -> phase_ok g ->
  exists e, make_entry g_config tid op_str a g = Ok e g /\ addr e = a.
Proof.
  intros Ho [ph Hph]. destruct (addr_to_tensor_total g_config a) as [t Ht].
  unfold make_entry.
  rewrite (bind_ok get_curr_phase _ g (curr_phase g) g eq_refl).
  rewrite (bind_ok _ _ _ _ _ (forward_at_ok _ _ _ g Hph)).
  rewrite (bind_ok _ _ _ _ _ (forward_at_ok _ _ _ g Ho)).
  rewrite (bind_ok _ _ _ _ _ (Ht g)).
  eexists. split; reflexivity.
Qed.

Lemma record_access_local_run (tid : Z) (op_str : string) (a o : Z)
    (local : list MemoryAccessEntry) g :
  forward_find OPS op_str = Some o -> phase_ok g ->
  exists e,
    record_access_local g_config tid op_str a local g = Ok (local ++ [e]) g
    /\ addr e = a.
Proof.
  intros Ho Hg. destruct (make_entry_addr tid op_str a o g Ho Hg)
    as (e & E & Ha).
  exists e. split; [|exact Ha].
  unfold record_access_local. now rewrite (bind_ok _ _ _ _ _ E).
Qed.

Lemma pivot_search_run (fuel : nat) (tid key : Z) g :
  phase_ok g ->
  forall low high target local,
  exists tr,
    pivot_search g_config pivs fuel tid key low high target local g
    = Ok (pivot_target pivs fuel key low high target, local ++ tr) g
    /\ Forall (reads_array (PIV_BASE g_config) (SIZE_KEY g_config)) tr.
Proof.
  intros Hg. induction fuel as [|fuel IH]; intros low high target local;
    simpl.
  - exists []. rewrite app_nil_r. split; [done|constructor].
  - destruct (decide (low <= high)) as [Hle|Hgt].
    2:{ exists []. rewrite app_nil_r. split; [done|constructor]. }
    destruct (record_access_local_run tid "R"
                (elem_addr (PIV_BASE g_config) (low + (high - low) ÷ 2)
                           (SIZE_KEY g_config)) 0 local g eq_refl Hg)
      as (e & E & Ha).
    rewrite (bind_ok _ _ _ _ _ E).
    destruct (decide _).
    + destruct (IH (low + (high - low) ÷ 2 + 1) high
                   (low + (high - low) ÷ 2) (local ++ [e])) as (tr & E' & Htr).
      exists (e :: tr). rewrite E', <- app_assoc. split; [done|].
      constructor; [|done]. eexists; exact Ha.
    + destruct (IH low (low + (high - low) ÷ 2 - 1) target (local ++ [e]))
        as (tr & E' & Htr).
      exists (e :: tr). rewrite E', <- app_assoc. split; [done|].
      constructor; [|done]. eexists; exact Ha.
Qed.

Lemma find_tile_id_run (tid key : Z) (local : list MemoryAccessEntry) g :
  phase_ok g ->
  exists tr,
    find_tile_id g_config pivs tid key local g
    = Ok (tile_id pivs key, local ++ tr) g
    /\ Forall (reads_array (PIV_BASE g_config) (SIZE_KEY g_config)) tr
    /\ (pivs = [] -> tr = []).
Proof.
  intros Hg. unfold find_tile_id, tile_id. destruct pivs as [|p ps] eqn:Hp.
  - exists []. rewrite app_nil_r. split; [done|]. split; [constructor|done].
  - rewrite <- Hp.
    destruct (pivot_search_run (length pivs) tid key g Hg 0
                (to_int (Z.of_nat (length pivs)) - 1) 0 local)
      as (tr & E & Htr).
    exists tr. split; [exact E|]. split; [exact Htr|]. now rewrite Hp.
Qed.

Lemma tile_scan_run (tid key target : Z) g :
  phase_ok g ->
  forall (rest : list IndexedCoord) (idx : nat) local,
  exists tr,
    tile_scan g_config uniq_coords tile_size_param tid key target idx rest
              local g
    = Ok (tile_match key rest, local ++ tr) g
    /\ length tr = scan_reads key rest
    /\ Forall (reads_array (TILE_BASE g_config) (SIZE_KEY g_config)) tr.
Proof.
  intros Hg rest. induction rest as [|ic rest IH]; intros idx local; simpl.
  - exists []. rewrite app_nil_r. split; [done|]. split; [done|constructor].
  - match goal with |- context [record_access_local _ _ _ ?a _] =>
      destruct (record_access_local_run tid "R" a 0 local g eq_refl Hg)
        as (e & E & Ha) end.
    rewrite (bind_ok _ _ _ _ _ E).
    destruct (decide (ic_to_key ic = key)).
    + exists [e]. split; [done|]. split; [done|].
      constructor; [|constructor]. eexists; exact Ha.
    + destruct (IH (S idx) (local ++ [e])) as (tr & E' & Hlen & Htr).
      exists (e :: tr). rewrite E', <- app_assoc. simpl.
      split; [done|]. split; [lia|].
      constructor; [|done]. eexists; exact Ha.
Qed.

(** A query in range: the worker records the read of the query key, the
    pivot probes and the tile reads, and finds the match of the query. *)
Lemma lookup_query_run (tid : Z) (q : nat) (local : list MemoryAccessEntry)
    g :
  (q < length qry_keys_v)%nat -> phase_ok g ->
  let key := ic_to_key (qry_keys_v !!! q) in
  let t := tile_id pivs key in
  exists e probes reads,
    lookup_query g_config uniq_coords qry_keys_v qry_off_idx_v tiles_v pivs
                 tile_size_param tid q local g
    = Ok (query_match qry_keys_v qry_off_idx_v tiles_v pivs q,
          local ++ e :: probes ++ reads) g
    /\ addr e = elem_addr (QK_BASE g_config) (Z.of_nat q) (SIZE_KEY g_config)
    /\ Forall (reads_array (PIV_BASE g_config) (SIZE_KEY g_config)) probes
    /\ (pivs = [] -> probes = [])
    /\ Forall (reads_array (TILE_BASE g_config) (SIZE_KEY g_config)) reads
    /\ length reads
       = (if decide (t ≠ -1 /\ t < to_int (Z.of_nat (length tiles_v)))
          then scan_reads key (tiles_v !!! Z.to_nat t) else 0%nat).
Proof.
  intros Hq Hg key t. unfold lookup_query, query_match.
  rewrite decide_False by lia.
  match goal with |- context [record_access_local _ _ _ ?a _] =>
    destruct (record_access_local_run tid "R" a 0 local g eq_refl Hg)
      as (e & E & Ha) end.
  rewrite (bind_ok _ _ _ _ _ E).
  destruct (find_tile_id_run tid key (local ++ [e]) g Hg)
    as (probes & E2 & Hprobes & Hnil).
  fold key. rewrite (bind_ok _ _ _ _ _ E2). fold t.
  exists e, probes.
  destruct (decide (t ≠ -1 /\ t < to_int (Z.of_nat (length tiles_v)))).
  - destruct (tile_scan_run tid key t g Hg (tiles_v !!! Z.to_nat t) 0
                ((local ++ [e]) ++ probes)) as (reads & E3 & Hlen & Hreads).
    rewrite (bind_ok _ _ _ _ _ E3).
    exists reads. rewrite <- !app_assoc. simpl.
    split; [reflexivity|]. repeat (split; [done|]). done.
  - exists []. rewrite app_nil_r, <- app_assoc. simpl.
    repeat split; try done; constructor.
Qed.

End LookupFacts.

(** ** LKP: the pivot search *)

Lemma sorted_lookup_le (l : list Z) :
  StronglySorted Z.le l ->
  forall (i j : nat) x y,
    (i <= j)%nat -> l !! i = Some x -> l !! j = Some y -> x <= y.
Proof.
  induction 1 as [|a l Hl IH Ha]; intros i j x y Hij Hi Hj; [done|].
  destruct i as [|i], j as [|j]; simpl in *; try lia.
  - injection Hi as <-. injection Hj as <-. lia.
  - injection Hi as <-. rewrite Forall_forall in Ha. apply Ha.
    eapply list_elem_of_lookup_2, Hj.
  - eapply (IH i j); [lia|done|done].
Qed.

Lemma tile_id_nonempty (pivs : list IndexedCoord) (k : Z) :
  pivs ≠ [] ->
  tile_id pivs k
  = pivot_target pivs (length pivs) k 0
                 (to_int (Z.of_nat (length pivs)) - 1) 0.
Proof. now destruct pivs. Qed.

Section PivotSearch.

Context (pivs : list IndexedCoord).
Hypothesis Hsorted : StronglySorted Z.le (ic_to_key <$> pivs).

Lemma pivot_key_mono (i j : Z) :
  0 <= i <= j -> j < Z.of_nat (length pivs) ->
  pivot_key pivs i <= pivot_key pivs j.
Proof.
  intros Hij Hj. unfold pivot_key.
  apply (sorted_lookup_le _ Hsorted (Z.to_nat i) (Z.to_nat j)); [lia| |];
    rewrite list_lookup_fmap, list_lookup_lookup_total_lt by lia; done.
Qed.

(** The search keeps a boundary [b]: pivots below it have keys [<=] the
    query key, pivots from it on have larger keys; it ends with
    [max 0 (b - 1)]. *)
Lemma pivot_target_boundary (k : Z) (fuel : nat) :
  forall low high target,
    0 <= low <= high + 1 -> high < Z.of_nat (length pivs) ->
    high - low + 1 <= Z.of_nat fuel ->
    (forall j, 0 <= j < low -> pivot_key pivs j <= k) ->
    (forall j, high < j < Z.of_nat (length pivs) -> k < pivot_key pivs j) ->
    target = Z.max 0 (low - 1) ->
    exists b,
      0 <= b <= Z.of_nat (length pivs)
      /\ pivot_target pivs fuel k low high target = Z.max 0 (b - 1)
      /\ (forall j, 0 <= j < b -> pivot_key pivs j <= k)
      /\ (forall j, b <= j < Z.of_nat (length pivs) -> k < pivot_key pivs j).
Proof.
  induction fuel as [|fuel IH]; intros low high target Hlow Hhigh Hfuel
    Hbelow Habove Htarget; simpl.
  - exists low. repeat split; try lia; auto. intros j Hj. apply Habove. lia.
  - destruct (decide (low <= high)) as [Hle|Hgt].
    2:{ exists low. repeat split; try lia; auto.
        intros j Hj. apply Habove. lia. }
    assert ((high - low) ÷ 2 = (high - low) / 2) as Hq
      by (apply Z.quot_div_nonneg; lia).
    rewrite Hq.
    set (mid := low + (high - low) / 2).
    assert (low <= mid <= high) as Hmid.
    { unfold mid. split.
      - pose proof (Z.div_pos (high - low) 2). lia.
      - assert ((high - low) / 2 <= high - low); [|lia].
        apply Z.div_le_upper_bound; lia. }
    fold (pivot_key pivs mid).
    destruct (decide (pivot_key pivs mid <= k)) as [Hk|Hk].
    + apply IH; try lia.
      * intros j Hj. pose proof (pivot_key_mono j mid). lia.
      * exact Habove.
    + apply IH; try lia.
      * exact Hbelow.
      * intros j Hj. destruct (decide (high < j)); [apply Habove; lia|].
        pose proof (pivot_key_mono mid j). lia.
Qed.

(** With ascending pivot keys the search selects the last pivot whose key
    is [<=] the query key, and pivot 0 when there is none. *)
Lemma tile_id_selects (k : Z) :
  pivs ≠ [] -> Z.of_nat (length pivs) <= INT_MAX ->
  let t := tile_id pivs k in
  0 <= t < Z.of_nat (length pivs)
  /\ ((exists p, p ∈ pivs /\ ic_to_key p <= k) ->
      ic_to_key (pivs !!! Z.to_nat t) <= k
      /\ forall j, t < j < Z.of_nat (length pivs) ->
                   k < ic_to_key (pivs !!! Z.to_nat j))
  /\ ((forall p, p ∈ pivs -> k < ic_to_key p) -> t = 0).
Proof.
  intros Hne Hlen t. unfold t. rewrite tile_id_nonempty by assumption.
  assert (0 < Z.of_nat (length pivs)) as Hpos.
  { assert (length pivs ≠ 0%nat); [|lia]. now rewrite length_zero_iff_nil. }
  rewrite to_int_small by (unfold INT_MAX in *; lia).
  destruct (pivot_target_boundary k (length pivs) 0
              (Z.of_nat (length pivs) - 1) 0)
    as (b & Hb & -> & Hbelow & Habove); try lia.
  split; [lia|]. split.
  - intros (p & Hin & Hk).
    apply list_elem_of_lookup in Hin as [i Hi].
    apply lookup_lt_Some in Hi as Hlt.
    assert (0 < b) as Hbpos.
    { destruct (decide (0 < b)); [done|]. exfalso.
      specialize (Habove (Z.of_nat i) ltac:(lia)).
      unfold pivot_key in Habove.
      rewrite Nat2Z.id, (list_lookup_total_correct _ _ _ Hi) in Habove. lia. }
    rewrite Z.max_r by lia. split.
    + apply (Hbelow (b - 1)). lia.
    + intros j Hj. apply Habove. lia.
  - intros Hall. destruct (decide (b <= 0)); [lia|]. exfalso.
    specialize (Hbelow 0 ltac:(lia)). unfold pivot_key in Hbelow.
    specialize (Hall (pivs !!! Z.to_nat 0)).
    assert (k < ic_to_key (pivs !!! Z.to_nat 0)); [|lia].
    apply Hall. apply list_elem_of_lookup. exists (Z.to_nat 0).
    apply list_lookup_lookup_total_lt. lia.
Qed.

End PivotSearch.

Lemma tile_match_None (k : Z) (tile : list IndexedCoord) :
  (forall ic, ic ∈ tile -> ic_to_key ic ≠ k) -> tile_match k tile = None.
Proof.
  induction tile as [|ic tile IH]; intros Hall; simpl; [done|].
  rewrite decide_False by (apply Hall; left).
  apply IH. intros ic' Hin. apply Hall. now right.
Qed.

Lemma tile_match_Some (k : Z) (tile : list IndexedCoord) (a : Z) :
  tile_match k tile = Some a ->
  exists ic, ic ∈ tile /\ ic_to_key ic = k /\ orig_idx ic = a.
Proof.
  induction tile as [|ic tile IH]; simpl; [done|].
  destruct (decide (ic_to_key ic = k)) as [Hk|Hk].
  - intros [= <-]. exists ic. split; [left|done].
  - intros Hm. destruct (IH Hm) as (ic' & Hin & Hk' & Ha).
    exists ic'. split; [now right|done].
Qed.

Section PivotTheorem.

Context (g_config : Config).
Context (uniq_coords : list IndexedCoord) (qry_keys_v : list IndexedCoord)
        (qry_off_idx_v : list Z)
        (tiles_v : list (list IndexedCoord)) (pivs : list IndexedCoord)
        (tile_size_param : Z).

(** C6 (amended). With ascending pivot keys, the binary search of a query
    selects the last pivot whose key is [<=] the query key when there is
    one, and pivot 0 when the pivots are non-empty and none qualifies; in
    that case tile 0 is scanned, one read being recorded per probed element,
    and no match results when the keys of tile 0 are not below the key of
    pivot 0.  Only when there is no pivot at all is no tile searched: no
    pivot probe and no tile read is recorded, and there is no match. *)
Theorem pivot_search_selects (tid : Z) (q : nat)
    (local : list MemoryAccessEntry) (g : Globals) :
  (q < length qry_keys_v)%nat -> phase_ok g ->
  StronglySorted Z.le (ic_to_key <$> pivs) ->
  Z.of_nat (length pivs) <= INT_MAX ->
  Z.of_nat (length tiles_v) <= INT_MAX ->
  let key := ic_to_key (qry_keys_v !!! q) in
  let t := tile_id pivs key in
  (pivs ≠ [] ->
     0 <= t < Z.of_nat (length pivs)
     /\ ((exists p, p ∈ pivs /\ ic_to_key p <= key) ->
         ic_to_key (pivs !!! Z.to_nat t) <= key
         /\ forall j, t < j < Z.of_nat (length pivs) ->
                      key < ic_to_key (pivs !!! Z.to_nat j))
     /\ ((forall p, p ∈ pivs -> key < ic_to_key p) -> t = 0))
  /\ exists e probes reads,
       lookup_query g_config uniq_coords qry_keys_v qry_off_idx_v tiles_v
                    pivs tile_size_param tid q local g
       = Ok (query_match qry_keys_v qry_off_idx_v tiles_v pivs q,
             local ++ e :: probes ++ reads) g
       /\ Forall (reads_array (PIV_BASE g_config) (SIZE_KEY g_config)) probes
       /\ Forall (reads_array (TILE_BASE g_config) (SIZE_KEY g_config)) reads
       /\ (pivs = [] ->
           probes = [] /\ reads = []
           /\ query_match qry_keys_v qry_off_idx_v tiles_v pivs q = None)
       /\ (pivs ≠ [] -> (forall p, p ∈ pivs -> key < ic_to_key p) ->
           forall tile0, tiles_v !! 0%nat = Some tile0 ->
             length reads = scan_reads key tile0
             /\ (tile0 ≠ [] -> reads ≠ [])
             /\ ((forall ic, ic ∈ tile0 ->
                    ic_to_key (pivs !!! 0%nat) <= ic_to_key ic) ->
                 query_match qry_keys_v qry_off_idx_v tiles_v pivs q = None)).
Proof.
  intros Hq Hg Hsorted Hlen Hlent key t. split.
  - intros Hne. now apply tile_id_selects.
  - destruct (lookup_query_run g_config uniq_coords qry_keys_v qry_off_idx_v
                tiles_v pivs tile_size_param tid q local g Hq Hg)
      as (e & probes & reads & E & _ & Hprobes & Hnil & Hreads & Hcount).
    fold key in Hcount. fold t in Hcount.
    exists e, probes, reads. split; [exact E|].
    split; [exact Hprobes|]. split; [exact Hreads|]. split.
    + intros Hp. split; [now apply Hnil|].
      assert (t = -1) as Ht by (unfold t, tile_id; now rewrite Hp).
      rewrite decide_False in Hcount by lia.
      split; [now apply nil_length_inv|].
      unfold query_match. rewrite decide_False by lia.
      fold key. fold t. now rewrite decide_False by lia.
    + intros Hne Hnone tile0 Htile.
      destruct (tile_id_selects pivs Hsorted key Hne Hlen) as (_ & _ & H0).
      assert (t = 0) as Ht by now apply H0.
      apply lookup_lt_Some in Htile as Hlt.
      assert (t ≠ -1 /\ t < to_int (Z.of_nat (length tiles_v))) as Hcond.
      { rewrite to_int_small by (unfold INT_MAX in *; lia). lia. }
      rewrite decide_True in Hcount by done.
      rewrite Ht in Hcount. change (Z.to_nat 0) with 0%nat in Hcount.
      rewrite (list_lookup_total_correct _ _ _ Htile) in Hcount.
      split; [exact Hcount|]. split.
      * intros Ht0 ->. simpl in Hcount.
        destruct tile0 as [|ic rest]; [done|]. simpl in Hcount.
        destruct (decide _); discriminate.
      * intros Hall. unfold query_match. rewrite decide_False by lia.
        fold key. fold t. rewrite decide_True by done.
        rewrite Ht. change (Z.to_nat 0) with 0%nat.
        rewrite (list_lookup_total_correct _ _ _ Htile).
        rewrite tile_match_None; [done|].
        intros ic Hic. specialize (Hall ic Hic).
        assert (key < ic_to_key (pivs !!! 0%nat)); [|lia].
        apply Hnone. apply list_elem_of_lookup. exists 0%nat.
        apply list_lookup_lookup_total_lt.
        assert (length pivs ≠ 0%nat); [|lia].
        now rewrite length_zero_iff_nil.
Qed.

End PivotTheorem.

Lemma pivot_search_selects_witness :
  (0 < length [low_query])%nat /\ phase_ok lkp_globals
  /\ StronglySorted Z.le (ic_to_key <$> [lone_pivot])
  /\ Z.of_nat (length [lone_pivot]) <= INT_MAX
  /\ Z.of_nat (length [[lone_pivot]]) <= INT_MAX
  /\ exists e probes reads,
       lookup_query example_config [lone_pivot] [low_query] [0]
                    [[lone_pivot]] [lone_pivot] 1 0 0 [] lkp_globals
       = Ok (query_match [low_query] [0] [[lone_pivot]] [lone_pivot] 0,
             [] ++ e :: probes ++ reads) lkp_globals
       /\ Forall (reads_array (TILE_BASE example_config)
                              (SIZE_KEY example_config)) reads.
Proof.
  assert (0 < length [low_query])%nat as H1 by (simpl; lia).
  assert (phase_ok lkp_globals) as H2 by (now eexists).
  assert (StronglySorted Z.le (ic_to_key <$> [lone_pivot])) as H3
    by (repeat constructor).
  assert (Z.of_nat (length [lone_pivot]) <= INT_MAX) as H4
    by (vm_compute; discriminate).
  assert (Z.of_nat (length [[lone_pivot]]) <= INT_MAX) as H5
    by (vm_compute; discriminate).
  repeat (split; [assumption|]).
  destruct (pivot_search_selects example_config [lone_pivot] [low_query] [0]
              [[lone_pivot]] [lone_pivot] 1 0 0%nat [] lkp_globals
              H1 H2 H3 H4 H5)
    as (_ & e & probes & reads & E & _ & Hreads & _).
  exists e, probes, reads. split; [exact E|exact Hreads].
Defined.

(** C6, as stated, fails when pivots exist and none qualifies: the only
    pivot has a key above the query key, and still tile 0 is scanned, its
    element being read at the tile base address. *)
Lemma unqualified_pivot_counterexample :
  (forall p, p ∈ [lone_pivot] -> ic_to_key low_query < ic_to_key p)
  /\ lookup_query example_config [lone_pivot] [low_query] [0]
                  [[lone_pivot]] [lone_pivot] 1 0 0 [] lkp_globals
     = Ok (None,
           [mkEntry 4 0 0 1 (QK_BASE example_config);
            mkEntry 4 0 0 4 (PIV_BASE example_config);
            mkEntry 4 0 0 10 (TILE_BASE example_config)]) lkp_globals
  /\ elem_addr (TILE_BASE example_config) 0 (SIZE_KEY example_config)
     = TILE_BASE example_config.
Proof.
  split; [|split].
  - intros p Hp. apply list_elem_of_singleton in Hp as ->.
    vm_compute. reflexivity.
  - vm_compute. reflexivity.
  - vm_compute. reflexivity.
Qed.

(** ** LKP: workers and schedules *)

Lemma pool_todos_insert_same (pool : list Worker) (i : nat) (w w' : Worker) :
  pool !! i = Some w -> w_todo w' = w_todo w ->
  pool_todos (<[i := w']> pool) = pool_todos pool.
Proof.
  intros Hi Ht. unfold pool_todos. rewrite list_fmap_insert, Ht.
  rewrite list_insert_id; [done|]. now rewrite list_lookup_fmap, Hi.
Qed.

Lemma pool_todos_insert_pop (pool : list Worker) (i : nat) (w w' : Worker)
    (q : nat) :
  pool !! i = Some w -> w_todo w = q :: w_todo w' ->
  q :: pool_todos (<[i := w']> pool) ≡ₚ pool_todos pool.
Proof.
  intros Hi Ht. unfold pool_todos.
  apply lookup_lt_Some in Hi as Hlt.
  rewrite insert_take_drop by done.
  rewrite <- (take_drop_middle pool i w Hi) at 3.
  rewrite !fmap_app, !fmap_cons, !join_app. simpl. rewrite Ht. simpl.
  now rewrite Permutation_middle.
Qed.

Lemma apply_matches_app qk qo tl pv (l1 l2 : list nat) kmap :
  apply_matches qk qo tl pv (l1 ++ l2) kmap
  = apply_matches qk qo tl pv l2 (apply_matches qk qo tl pv l1 kmap).
Proof. unfold apply_matches. apply foldl_app. Qed.

Lemma quanta_cons_eq (i : nat) (sched : list nat) :
  quanta i (i :: sched) = S (quanta i sched).
Proof. unfold quanta. now rewrite filter_cons_True. Qed.

Lemma quanta_cons_ne (i j : nat) (sched : list nat) :
  j ≠ i -> quanta i (j :: sched) = quanta i sched.
Proof. intros Hne. unfold quanta. now rewrite filter_cons_False. Qed.

Lemma quanta_app (i : nat) (s1 s2 : list nat) :
  quanta i (s1 ++ s2) = (quanta i s1 + quanta i s2)%nat.
Proof. unfold quanta. now rewrite filter_app, length_app. Qed.

Lemma quanta_replicate_eq (i n : nat) : quanta i (replicate n i) = n.
Proof.
  induction n as [|n IH]; simpl; [done|]. now rewrite quanta_cons_eq, IH.
Qed.

Lemma quanta_replicate_ne (i j n : nat) :
  j ≠ i -> quanta i (replicate n j) = 0%nat.
Proof.
  intros Hne. induction n as [|n IH]; simpl; [done|].
  now rewrite quanta_cons_ne.
Qed.

Section ScheduleFacts.

Context (g_config : Config).
Context (uniq_coords : list IndexedCoord) (qry_keys_v : list IndexedCoord)
        (qry_off_idx_v : list Z)
        (tiles_v : list (list IndexedCoord)) (pivs : list IndexedCoord)
        (tile_size_param : Z).

Local Abbreviation step :=
  (worker_step g_config uniq_coords qry_keys_v qry_off_idx_v tiles_v pivs
               tile_size_param).
Local Abbreviation run :=
  (run_schedule g_config uniq_coords qry_keys_v qry_off_idx_v tiles_v pivs
                tile_size_param).
Local Abbreviation matches :=
  (apply_matches qry_keys_v qry_off_idx_v tiles_v pivs).
Local Abbreviation qmatch :=
  (query_match qry_keys_v qry_off_idx_v tiles_v pivs).

(** One quantum of a worker: it always succeeds, keeps the phase tag,
    processes at most one query, whose match (and nothing else) goes to the
    kernel map, and brings the worker nearer to its end. *)
Lemma worker_step_run (w : Worker) (k : KmState) (g : Globals) :
  phase_ok g ->
  exists w' k' g' done_now,
    step w k g = Ok (w', k') g'
    /\ curr_phase g' = curr_phase g
    /\ w_todo w = done_now ++ w_todo w'
    /\ (length done_now <= 1)%nat
    /\ km_map k' = matches done_now (km_map k)
    /\ (work_left w' <= work_left w - 1)%nat.
Proof.
  intros Hg. unfold worker_step, work_left.
  destruct w as [tid todo pending local merged]; simpl.
  destruct pending.
  - rewrite (bind_ok _ _ _ _ _ (inverse_at_ok OPS 1 "W" g eq_refl)).
    match goal with |- context [record_access_local _ _ _ ?a _] =>
      destruct (record_access_local_run g_config tid "W" a 1 local g
                  eq_refl Hg) as (e & E & _) end.
    rewrite (bind_ok _ _ _ _ _ E).
    eexists _, _, g, []. split; [reflexivity|]. simpl.
    repeat split; try done; lia.
  - destruct todo as [|q todo'].
    + destruct merged.
      * eexists _, _, g, []. split; [reflexivity|]. simpl.
        repeat split; try done; lia.
      * eexists _, _, _, []. split; [reflexivity|]. simpl.
        repeat split; try done; lia.
    + destruct (decide (length qry_keys_v <= q)%nat) as [Hge|Hlt].
      * eexists _, _, g, [q]. split; [reflexivity|]. simpl.
        repeat split; try done; try lia.
        unfold apply_match, query_match. now rewrite decide_True.
      * destruct (lookup_query_run g_config uniq_coords qry_keys_v
                    qry_off_idx_v tiles_v pivs tile_size_param tid q local g
                    ltac:(lia) Hg)
          as (e & probes & reads & E & _).
        rewrite (bind_ok _ _ _ _ _ E).
        destruct (qmatch q) as [[o p]|] eqn:Hm.
        -- eexists _, _, g, [q]. split; [reflexivity|]. simpl.
           repeat split; try done; try lia.
           unfold apply_match. now rewrite Hm.
        -- eexists _, _, g, [q]. split; [reflexivity|]. simpl.
           repeat split; try done; try lia.
           unfold apply_match. now rewrite Hm.
Qed.

(** A schedule, whatever it is: the run succeeds, the kernel map receives
    the matches of the queries processed, in the order [log] of their
    processing, no query is lost or duplicated, and every worker has used
    its quanta. *)
Lemma run_schedule_inv (sched : list nat) :
  forall (pool : list Worker) (k : KmState) (g : Globals),
    phase_ok g ->
    exists pool' k' g' log,
      run sched pool k g = Ok (pool', k') g'
      /\ curr_phase g' = curr_phase g
      /\ km_map k' = matches log (km_map k)
      /\ log ++ pool_todos pool' ≡ₚ pool_todos pool
      /\ length pool' = length pool
      /\ forall (i : nat) w, pool !! i = Some w ->
           exists w', pool' !! i = Some w'
             /\ (work_left w' <= work_left w - quanta i sched)%nat.
Proof.
  induction sched as [|i sched IH]; intros pool k g Hg; simpl.
  - exists pool, k, g, []. repeat split; try done.
    intros i w Hi. exists w. split; [done|]. unfold quanta. simpl. lia.
  - destruct (pool !! i) as [w|] eqn:Hi.
    + destruct (worker_step_run w k g Hg)
        as (w1 & k1 & g1 & dn & E & Hph & Htodo & Hdn & Hkm & Hwork).
      rewrite (bind_ok _ _ _ _ _ E).
      assert (phase_ok g1) as Hg1 by (unfold phase_ok; now rewrite Hph).
      destruct (IH (<[i := w1]> pool) k1 g1 Hg1)
        as (pool' & k' & g' & log & E' & Hph' & Hkm' & Hperm & Hlen & Hw).
      exists pool', k', g', (dn ++ log). split; [exact E'|].
      split; [congruence|]. split.
      { rewrite Hkm', Hkm. symmetry. apply apply_matches_app. }
      split.
      { rewrite <- app_assoc, Hperm.
        destruct dn as [|q [|? ?]]; simpl in *; try lia.
        - now rewrite (pool_todos_insert_same pool i w w1).
        - now apply pool_todos_insert_pop with w. }
      split; [now rewrite Hlen, length_insert|].
      intros j wj Hj. destruct (decide (j = i)) as [->|Hne].
      * rewrite Hi in Hj. injection Hj as <-.
        destruct (Hw i w1) as (w' & Hw' & Hle).
        { apply list_lookup_insert_eq. now apply lookup_lt_Some in Hi. }
        exists w'. split; [done|]. rewrite quanta_cons_eq. lia.
      * destruct (Hw j wj) as (w' & Hw' & Hle).
        { now rewrite list_lookup_insert_ne. }
        exists w'. split; [done|]. now rewrite quanta_cons_ne.
    + destruct (IH pool k g Hg)
        as (pool' & k' & g' & log & E' & Hph' & Hkm' & Hperm & Hlen & Hw).
      exists pool', k', g', log. repeat split; try done.
      intros j wj Hj. destruct (Hw j wj Hj) as (w' & Hw' & Hle).
      exists w'. split; [done|]. rewrite quanta_cons_ne; [done|].
      intros ->. congruence.
Qed.

End ScheduleFacts.

(** ** LKP: spawning and joining *)

Lemma quanta_join_schedule_from (pool : list Worker) (off i : nat) w :
  pool !! i = Some w ->
  quanta (off + i)%nat
    (mjoin (imap (fun j w => replicate (quanta_left w) (off + j)%nat) pool))
  = quanta_left w.
Proof.
  revert off i. induction pool as [|w0 pool IH]; intros off i Hi; [done|].
  simpl. rewrite quanta_app. destruct i as [|i]; simpl in Hi.
  - injection Hi as ->. rewrite Nat.add_0_r, quanta_replicate_eq.
    assert (forall (l : list Worker) (b : nat),
              quanta off
                (mjoin (imap (fun j w => replicate (quanta_left w)
                                           (off + S b + j)%nat) l)) = 0%nat)
      as Hrest.
    { induction l as [|x l IHl]; intros b; simpl; [done|].
      rewrite quanta_app, quanta_replicate_ne by lia. simpl.
      rewrite (imap_ext _ (fun j w => replicate (quanta_left w)
                                        (off + S (S b) + j)%nat)).
      - apply IHl.
      - intros j y _. simpl. f_equal. lia. }
    rewrite (imap_ext _ (fun j w => replicate (quanta_left w)
                                      (off + 1 + j)%nat)).
    + rewrite (Hrest pool 0%nat). lia.
    + intros j y _. simpl. f_equal. lia.
  - rewrite Nat.add_0_r, quanta_replicate_ne by lia. simpl.
    rewrite (imap_ext _ (fun j w => replicate (quanta_left w)
                                      (S off + j)%nat)).
    + replace (off + S i)%nat with (S off + i)%nat by lia. now apply IH.
    + intros j y _. simpl. f_equal. lia.
Qed.

Lemma quanta_join_schedule (pool : list Worker) (i : nat) w :
  pool !! i = Some w -> quanta i (join_schedule pool) = quanta_left w.
Proof. apply (quanta_join_schedule_from pool 0 i w). Qed.

Lemma work_left_quanta_left (w : Worker) :
  (work_left w <= quanta_left w)%nat.
Proof.
  unfold work_left, quanta_left. destruct (w_pending w), (w_merged w); lia.
Qed.

Lemma pool_todos_nil (pool : list Worker) :
  Forall (fun w => w_todo w = []) pool -> pool_todos pool = [].
Proof.
  unfold pool_todos. induction 1 as [|w pool Hw Hp IH]; csimpl; [done|].
  now rewrite Hw, IH.
Qed.

(** The sub-ranges of the workers of a batch, in thread order, make up the
    batch. *)
Lemma spawn_workers_todos (batch_start cur n : nat) :
  (0 < n)%nat ->
  pool_todos (spawn_workers batch_start cur n) = seq batch_start cur.
Proof.
  intros Hn. unfold spawn_workers.
  set (portion := ((cur + n - 1) / n)%nat).
  assert (cur <= n * portion)%nat as Hcover.
  { unfold portion.
    pose proof (Nat.div_mod_eq (cur + n - 1) n) as Hdm.
    pose proof (Nat.mod_upper_bound (cur + n - 1) n ltac:(lia)). nia. }
  assert (forall m,
            pool_todos
              (omap (fun tid =>
                 if decide (tid * portion < cur)%nat
                 then Some (mkWorker (Z.of_nat tid)
                        (seq (batch_start + tid * portion)
                             (Nat.min (tid * portion + portion) cur
                              - tid * portion)) false [] false)
                 else None) (seq 0 m))
            = seq batch_start (Nat.min (m * portion) cur)) as Hm.
  { induction m as [|m IH]; [done|].
    rewrite seq_S, omap_app. unfold pool_todos in *.
    rewrite fmap_app, join_app, IH. simpl.
    destruct (decide (m * portion < cur)%nat) as [Hlt|Hge]; simpl.
    - rewrite app_nil_r. rewrite (Nat.min_l (m * portion)) by lia.
      rewrite <- seq_app. f_equal. lia.
    - rewrite app_nil_r. f_equal. lia. }
  rewrite Hm. f_equal. lia.
Qed.

Lemma batch_ranges_cover (qry_count n : nat) :
  mjoin (batch_range qry_count <$> seq 0 n)
  = seq 0 (Nat.min (n * BATCH_SIZE) qry_count).
Proof.
  induction n as [|n IH]; [done|].
  rewrite seq_S, fmap_app, join_app, IH.
  change (mjoin (batch_range qry_count <$> [(0 + n)%nat]))
    with (batch_range qry_count n ++ []).
  rewrite app_nil_r. unfold batch_range.
  destruct (decide (n * BATCH_SIZE <= qry_count)%nat).
  - rewrite (Nat.min_l (n * BATCH_SIZE)) by lia.
    rewrite <- seq_app. f_equal. lia.
  - replace (qry_count - n * BATCH_SIZE)%nat with 0%nat by lia.
    rewrite Nat.min_0_r. change (seq (n * BATCH_SIZE) 0) with (@nil nat).
    rewrite app_nil_r. f_equal. lia.
Qed.

Lemma join_cons_app {A} (x : list A) (l : list (list A)) :
  mjoin (x :: l) = x ++ mjoin l.
Proof. reflexivity. Qed.

(** From a batch without queries on, the batches are empty. *)
Lemma batch_ranges_empty (qry_count first n : nat) :
  (qry_count <= first * BATCH_SIZE)%nat ->
  mjoin (batch_range qry_count <$> seq first n) = [].
Proof.
  revert first. induction n as [|n IH]; intros first Hle; [done|].
  cbn [seq]. rewrite fmap_cons, join_cons_app, IH by lia.
  unfold batch_range.
  replace (qry_count - first * BATCH_SIZE)%nat with 0%nat by lia.
  now rewrite Nat.min_0_r.
Qed.

Section BatchFacts.

Context (g_config : Config).
Context (uniq_coords : list IndexedCoord) (qry_keys_v : list IndexedCoord)
        (qry_off_idx_v : list Z)
        (tiles_v : list (list IndexedCoord)) (pivs : list IndexedCoord)
        (tile_size_param : Z).
Hypothesis Hthreads : (0 < Z.to_nat (to_u32 (NUM_THREADS g_config)))%nat.

Local Abbreviation matches :=
  (apply_matches qry_keys_v qry_off_idx_v tiles_v pivs).

(** One batch, whatever the interleaving of its workers: every query of
    the batch is processed exactly once. *)
Lemma run_batch_inv (sched : list nat) (batch_idx : nat) (k : KmState)
    (g : Globals) :
  phase_ok g ->
  exists k' g' log,
    run_batch g_config uniq_coords qry_keys_v qry_off_idx_v tiles_v pivs
              tile_size_param sched batch_idx k g = Ok k' g'
    /\ curr_phase g' = curr_phase g
    /\ km_map k' = matches log (km_map k)
    /\ log ≡ₚ batch_range (length qry_keys_v) batch_idx.
Proof using Hthreads.
  intros Hg. unfold run_batch.
  set (pool0 := spawn_workers _ _ _).
  destruct (run_schedule_inv g_config uniq_coords qry_keys_v qry_off_idx_v
              tiles_v pivs tile_size_param sched pool0 k g Hg)
    as (pool1 & k1 & g1 & log1 & E1 & Hph1 & Hkm1 & Hperm1 & Hlen1 & _).
  rewrite (bind_ok _ _ _ _ _ E1).
  assert (phase_ok g1) as Hg1 by (unfold phase_ok; now rewrite Hph1).
  destruct (run_schedule_inv g_config uniq_coords qry_keys_v qry_off_idx_v
              tiles_v pivs tile_size_param (join_schedule pool1) pool1 k1 g1
              Hg1)
    as (pool2 & k2 & g2 & log2 & E2 & Hph2 & Hkm2 & Hperm2 & Hlen2 & Hw).
  rewrite (bind_ok _ _ _ _ _ E2).
  exists k2, g2, (log1 ++ log2). split; [reflexivity|].
  split; [congruence|]. split.
  { rewrite Hkm2, Hkm1. symmetry. apply apply_matches_app. }
  assert (pool_todos pool2 = []) as Hdone.
  { apply pool_todos_nil, Forall_forall. intros w2 Hin.
    apply list_elem_of_lookup in Hin as [i Hi].
    apply lookup_lt_Some in Hi as Hlt. rewrite Hlen2 in Hlt.
    destruct (lookup_lt_is_Some_2 pool1 i Hlt) as [w1 Hw1].
    destruct (Hw i w1 Hw1) as (w2' & Hw2' & Hle).
    rewrite Hi in Hw2'. injection Hw2' as <-.
    rewrite (quanta_join_schedule pool1 i w1 Hw1) in Hle.
    pose proof (work_left_quanta_left w1) as Hq. unfold work_left in Hle, Hq.
    apply nil_length_inv.
    destruct (w_pending w2), (w_merged w2), (w_pending w1), (w_merged w1);
      lia. }
  rewrite Hdone, app_nil_r in Hperm2.
  rewrite Hperm2, Hperm1.
  unfold pool0. now rewrite spawn_workers_todos.
Qed.

Lemma run_batches_inv (scheds : nat -> list nat) (n : nat) :
  forall (first : nat) (k : KmState) (g : Globals),
    phase_ok g ->
    exists k' g' log,
      run_batches g_config uniq_coords qry_keys_v qry_off_idx_v tiles_v pivs
                  tile_size_param scheds (seq first n) k g = Ok k' g'
      /\ curr_phase g' = curr_phase g
      /\ km_map k' = matches log (km_map k)
      /\ log ≡ₚ mjoin (batch_range (length qry_keys_v) <$> seq first n).
Proof using Hthreads.
  induction n as [|n IH]; intros first k g Hg.
  - exists k, g, []. repeat split; done.
  - cbn [seq run_batches].
    destruct (decide (Nat.min BATCH_SIZE
                        (length qry_keys_v - first * BATCH_SIZE) = 0%nat))
      as [Hbreak|Hrun].
    + exists k, g, []. split; [reflexivity|]. split; [done|].
      split; [done|].
      change (first :: seq (S first) n) with (seq first (S n)).
      rewrite batch_ranges_empty; [done|]. unfold BATCH_SIZE in *. lia.
    + destruct (run_batch_inv (scheds first) first k g Hg)
        as (k1 & g1 & log1 & E1 & Hph1 & Hkm1 & Hperm1).
      rewrite (bind_ok _ _ _ _ _ E1).
      assert (phase_ok g1) as Hg1 by (unfold phase_ok; now rewrite Hph1).
      destruct (IH (S first) k1 g1 Hg1)
        as (k2 & g2 & log2 & E2 & Hph2 & Hkm2 & Hperm2).
      exists k2, g2, (log1 ++ log2). split; [exact E2|].
      split; [congruence|]. split.
      * rewrite Hkm2, Hkm1. symmetry. apply apply_matches_app.
      * rewrite fmap_cons, join_cons_app. now rewrite Hperm1, Hperm2.
Qed.

(** The LKP phase, whatever the interleaving of the workers: it returns,
    and the kernel map is the one obtained by processing every query
    exactly once, in some order, each query contributing its match if it
    has one. *)
Lemma perform_coordinate_lookup_run (scheds : nat -> list nat)
    (g : Globals) :
  exists kmap g' log,
    perform_coordinate_lookup g_config uniq_coords qry_keys_v qry_off_idx_v
      tiles_v pivs tile_size_param scheds g = Ok kmap g'
    /\ kmap = matches log ∅
    /\ NoDup log
    /\ (forall q, q ∈ log -> (q < length qry_keys_v)%nat)
    /\ (uniq_coords ≠ [] -> log ≡ₚ seq 0 (length qry_keys_v)).
Proof using Hthreads.
  unfold perform_coordinate_lookup.
  rewrite (bind_ok _ _ g "LKP"%string g) by reflexivity.
  rewrite (bind_ok _ _ g tt (mkGlobals (mem_trace g) "LKP")) by reflexivity.
  destruct (decide (uniq_coords = [] \/ qry_keys_v = [])) as [Hempty|Hne].
  - exists ∅, (mkGlobals (mem_trace g) "LKP"), [].
    split; [reflexivity|]. split; [reflexivity|]. split; [constructor|].
    split; [intros q Hq; now apply elem_of_nil in Hq|].
    intros Hu. destruct Hempty as [?| ->]; [done|]. reflexivity.
  - assert (phase_ok (mkGlobals (mem_trace g) "LKP")) as Hg by (now eexists).
    destruct (run_batches_inv scheds
                ((length qry_keys_v + BATCH_SIZE - 1) / BATCH_SIZE) 0
                (mkKm ∅ 0) _ Hg)
      as (k' & g' & log & E & Hph & Hkm & Hperm).
    rewrite (bind_ok _ _ _ _ _ E).
    rewrite batch_ranges_cover in Hperm.
    assert (Nat.min ((length qry_keys_v + BATCH_SIZE - 1) / BATCH_SIZE
                     * BATCH_SIZE) (length qry_keys_v)
            = length qry_keys_v) as Hmin.
    { apply Nat.min_r. unfold BATCH_SIZE.
      pose proof (Nat.div_mod_eq (length qry_keys_v + 128 - 1) 128).
      pose proof (Nat.mod_upper_bound (length qry_keys_v + 128 - 1) 128).
      lia. }
    rewrite Hmin in Hperm.
    eexists (km_map k'), _, log. split; [reflexivity|].
    split; [exact Hkm|]. split; [rewrite Hperm; apply NoDup_seq|].
    split; [|done].
    intros q Hq. rewrite Hperm in Hq. apply elem_of_seq in Hq. lia.
Qed.

End BatchFacts.

(** ** The kernel map *)

Lemma kmap_append_lookup (o o' : Z) (p : Z * Z) (m : gmap Z (list (Z * Z))) :
  kmap_append o p m !!! o'
  = if decide (o = o') then (m !!! o) ++ [p] else m !!! o'.
Proof.
  unfold kmap_append. destruct (decide (o = o')) as [->|Hne].
  - apply lookup_total_insert_eq.
  - now apply lookup_total_insert_ne.
Qed.

Lemma total_matches_insert_fresh (o : Z) (l : list (Z * Z))
    (m : gmap Z (list (Z * Z))) :
  m !! o = None ->
  total_matches (<[o := l]> m) = (length l + total_matches m)%nat.
Proof.
  intros Hnone. unfold total_matches.
  rewrite (sum_list_perm _ _ (fmap_Permutation _ _ _
             (map_to_list_insert m o l Hnone))).
  reflexivity.
Qed.

Lemma total_matches_append (o : Z) (p : Z * Z) (m : gmap Z (list (Z * Z))) :
  total_matches (kmap_append o p m) = S (total_matches m).
Proof.
  unfold kmap_append. rewrite lookup_total_alt.
  destruct (m !! o) as [l|] eqn:Hl; simpl.
  - rewrite <- insert_delete_eq.
    rewrite total_matches_insert_fresh by apply lookup_delete_eq.
    rewrite length_app. simpl.
    rewrite <- (insert_delete_id m o l Hl) at 2.
    rewrite total_matches_insert_fresh by apply lookup_delete_eq. lia.
  - now rewrite total_matches_insert_fresh.
Qed.

Section MatchFacts.

Context (qry_keys_v : list IndexedCoord) (qry_off_idx_v : list Z)
        (tiles_v : list (list IndexedCoord)) (pivs : list IndexedCoord).

Local Abbreviation matches :=
  (apply_matches qry_keys_v qry_off_idx_v tiles_v pivs).
Local Abbreviation qmatch :=
  (query_match qry_keys_v qry_off_idx_v tiles_v pivs).



(** A match comes from an element of one of the tiles, with the key of the
    query. *)
Lemma query_match_Some (q : nat) (o : Z) (a b : Z) :
  qmatch q = Some (o, (a, b)) ->
  (q < length qry_keys_v)%nat
  /\ o = qry_off_idx_v !!! q
  /\ b = orig_idx (qry_keys_v !!! q)
  /\ exists tile ic,
       tile ∈ tiles_v /\ ic ∈ tile
       /\ ic_to_key ic = ic_to_key (qry_keys_v !!! q)
       /\ orig_idx ic = a.
Proof.
  unfold query_match. destruct (decide _) as [|Hq]; [done|].
  destruct (decide _) as [Ht|]; [|done].
  destruct (tile_match _ _) as [a'|] eqn:Hm; [|done].
  intros [= <- <- <-]. split; [lia|]. split; [done|]. split; [done|].
  apply tile_match_Some in Hm as (ic & Hic & Hk & Ha).
  exists (tiles_v !!! Z.to_nat (tile_id pivs (ic_to_key (qry_keys_v !!! q)))),
         ic.
  split; [|done].
  destruct (decide (Z.to_nat (tile_id pivs (ic_to_key (qry_keys_v !!! q)))
                    < length tiles_v)%nat) as [Hlt|Hge].
  - apply list_elem_of_lookup. eexists.
    now apply list_lookup_lookup_total_lt.
  - rewrite list_lookup_total_alt, lookup_ge_None_2 in Hic by lia.
    now apply elem_of_nil in Hic.
Qed.

End MatchFacts.

Lemma total_matches_empty : total_matches ∅ = 0%nat.
Proof. unfold total_matches. now rewrite map_to_list_empty. Qed.

(** ** The pipeline *)

Section PipelineTheorems.

Context (g_config : Config).
Hypothesis Hthreads : 0 < to_u32 (NUM_THREADS g_config).


(** Where the queries come from. *)
Lemma query_origin (uc : list IndexedCoord) (stride : Z)
    (off_coords : list Coord3D) (r : BuildQueriesResult) (q : nat) :
  Z.of_nat (length off_coords) <= INT_MAX + 1 ->
  sized r (length uc * length off_coords) ->
  (forall (o i : nat) off ic,
     off_coords !! o = Some off -> uc !! i = Some ic ->
     query_at r (o * length uc + i) = Some (query_entry o off i ic)) ->
  (q < length uc * length off_coords)%nat ->
  exists (oi i : nat) off ic,
    off_coords !! oi = Some off /\ uc !! i = Some ic
    /\ qry_keys r !!! q
       = mkIndexed (coord_add (coord ic) off) (orig_idx ic)
    /\ qry_off_idx r !!! q = Z.of_nat oi.
Proof.
  intros HK Hsized Hq Hlt.
  assert (0 < length uc)%nat as HU by lia.
  pose proof (Nat.div_mod_eq q (length uc)) as Hdm.
  pose proof (Nat.mod_upper_bound q (length uc) ltac:(lia)) as Hmod.
  assert (q / length uc < length off_coords)%nat as Ho.
  { apply Nat.Div0.div_lt_upper_bound. lia. }
  destruct (lookup_lt_is_Some_2 off_coords _ Ho) as [off Hoff].
  destruct (lookup_lt_is_Some_2 uc _ Hmod) as [ic Hic].
  specialize (Hq _ _ off ic Hoff Hic).
  replace (q / length uc * length uc + q mod length uc)%nat with q in Hq
    by lia.
  exists (q / length uc)%nat, (q mod length uc)%nat, off, ic.
  split; [done|]. split; [done|].
  unfold query_at, query_entry in Hq.
  destruct (qry_keys r !! q) as [qk|] eqn:E1; [|done].
  destruct (qry_in_idx r !! q) as [a|]; [|done].
  destruct (qry_off_idx r !! q) as [b|] eqn:E3; [|done].
  destruct (wt_offsets r !! q) as [w|]; [|done].
  simpl in Hq. injection Hq as -> -> -> ->.
  rewrite (list_lookup_total_correct _ _ _ E1).
  rewrite (list_lookup_total_correct _ _ _ E3).
  split; [done|]. apply to_int_small. unfold INT_MAX in *. lia.
Qed.


End PipelineTheorems.

Lemma aligned_single (tile : list IndexedCoord) (pivots_v : list IndexedCoord)
    (first : IndexedCoord) :
  head tile = Some first -> pivots_aligned [tile] pivots_v ->
  pivots_v = [first].
Proof.
  intros Hh Hal. inversion Hal as [|? p ? ps Hp Hrest]; subst.
  inversion Hrest; subst. congruence.
Qed.

(** The tilings of a two-element sequence. *)
Lemma tiles_of_pair (u0 u1 : IndexedCoord) (T : TilesPivotsResult)
    (tile_size : Z) :
  mjoin (tiles T) = [u0; u1] ->
  pivots_aligned (tiles T) (pivots T) ->
  (tile_size <= 0 -> [u0; u1] ≠ [] -> tiles T = [[u0; u1]]) ->
  (0 < tile_size ->
   Forall (fun tile => (length tile <= Z.to_nat tile_size)%nat) (tiles T)) ->
  (Z.of_nat (length [u0; u1]) <= tile_size -> [u0; u1] ≠ [] ->
   tiles T = [[u0; u1]]) ->
  T = mkTiles [[u0; u1]] [u0] \/ T = mkTiles [[u0]; [u1]] [u0; u1].
Proof.
  intros Hcat Hal Hneg Hbound Hbig. destruct T as [ts ps]; simpl in *.
  destruct (decide (tile_size <= 0)) as [Hle|Hgt].
  { left. assert (ts = [[u0; u1]]) as -> by now apply Hneg.
    now rewrite (aligned_single [u0; u1] ps u0 eq_refl Hal). }
  destruct (decide (2 <= tile_size)) as [H2|H1].
  { left. assert (ts = [[u0; u1]]) as -> by now apply Hbig.
    now rewrite (aligned_single [u0; u1] ps u0 eq_refl Hal). }
  right. assert (tile_size = 1) as -> by lia.
  specialize (Hbound ltac:(lia)). change (Z.to_nat 1) with 1%nat in Hbound.
  inversion Hal as [|t0 p0 ts0 ps0 Hh0 Hal0]; subst; [done|].
  apply Forall_cons in Hbound as [Hb0 Hbound].
  destruct t0 as [|x0 [|? ?]]; [done| |simpl in Hb0; lia].
  simpl in Hh0, Hcat. injection Hh0 as <-. injection Hcat as <- Hcat.
  inversion Hal0 as [|t1 p1 ts1 ps1 Hh1 Hal1]; subst; [done|].
  apply Forall_cons in Hbound as [Hb1 Hbound].
  destruct t1 as [|x1 [|? ?]]; [done| |simpl in Hb1; lia].
  simpl in Hh1, Hcat. injection Hh1 as <-. injection Hcat as <- Hcat.
  inversion Hal1 as [|t2 p2 ts2 ps2 Hh2 Hal2]; subst; [done|].
  destruct t2; [done|]. discriminate Hcat.
Qed.

Section Scenario.

Context (g_config : Config).
Hypothesis Hthreads : 0 < to_u32 (NUM_THREADS g_config).

(** C2. On the input [(0,0,0); (1,0,0); (0,0,0)] with stride 1 and the
    single offset (1,0,0) the pipeline yields the unique coordinates
    (0,0,0) with original index 0 and (1,0,0) with original index 1, the
    queries for (1,0,0) and (2,0,0), and the kernel map whose only list,
    at offset index 0, is [(1, 0)]; this for every tile size and every
    interleaving of the workers. *)
Theorem concrete_scenario (tile_size : Z) (scheds : nat -> list nat)
    (g : Globals) :
  tile_size <= INT_MAX ->
  exists Q T g',
    run_pipeline g_config scenario_coords 1 scenario_offsets tile_size
                 scheds g
    = Ok (scenario_unique, Q, T, kmap_at_0) g'
    /\ qry_keys Q
       = [mkIndexed (mkCoord 1 0 0) 0; mkIndexed (mkCoord 2 0 0) 1]
    /\ ic_to_key <$> qry_keys Q
       = [to_key (mkCoord 1 0 0); to_key (mkCoord 2 0 0)]
    /\ kmap_at_0 !!! 0 = [(1, 0)].
Proof using Hthreads.
  intros Hts.
  destruct (compute_unique_sorted_coords_run g_config scenario_coords 1 g
              (threads_nonzero g_config Hthreads))
    as (tr1 & E1).
  assert (dedup_sorted (stable_sort (idx_keys_pairs scenario_coords 1))
          = scenario_unique) as Hu by (vm_compute; reflexivity).
  rewrite Hu in E1.
  set (g1 := mkGlobals (mem_trace g ++ tr1) "RDX") in *.
  set (Q := mkBuild [mkIndexed (mkCoord 1 0 0) 0; mkIndexed (mkCoord 2 0 0) 1]
                    [0; 1] [0; 0] [mkCoord 1 0 0; mkCoord 1 0 0]).
  assert (build_coordinate_queries scenario_unique 1 scenario_offsets g1
          = Ok Q (mkGlobals (mem_trace g1) "QRY")) as E2 by reflexivity.
  destruct (create_tiles_and_pivots_run g_config scenario_unique tile_size
              (mkGlobals (mem_trace g1) "QRY")
              ltac:(vm_compute; discriminate) Hts)
    as (T & tr3 & E3 & Hcat & Hal & Hneg & _ & Hbound & Hbig).
  assert (0 < Z.to_nat (to_u32 (NUM_THREADS g_config)))%nat as Hth by lia.
  destruct (perform_coordinate_lookup_run g_config scenario_unique
              (qry_keys Q) (qry_off_idx Q) (tiles T) (pivots T) tile_size
              Hth scheds
              (mkGlobals (mem_trace (mkGlobals (mem_trace g1) "QRY") ++ tr3)
                         "PVT"))
    as (kmap & g' & log & E4 & Hkmap & _ & _ & Hperm).
  specialize (Hperm ltac:(done)).
  exists Q, T, g'. split; [|repeat split].
  unfold run_pipeline.
  rewrite (bind_ok _ _ _ _ _ E1), (bind_ok _ _ _ _ _ E2).
  rewrite (bind_ok _ _ _ _ _ E3), (bind_ok _ _ _ _ _ E4).
  replace kmap with kmap_at_0; [reflexivity|].
  rewrite Hkmap.
  change (seq 0 (length (qry_keys Q))) with [0%nat; 1%nat] in Hperm.
  symmetry in Hperm. apply Permutation_length_2_inv in Hperm.
  destruct (tiles_of_pair _ _ T tile_size Hcat Hal Hneg Hbound Hbig)
    as [-> | ->];
    destruct Hperm as [-> | ->]; vm_compute; reflexivity.
Qed.

End Scenario.




Lemma concrete_scenario_witness :
  0 < to_u32 (NUM_THREADS example_config)
  /\ 1 <= INT_MAX
  /\ exists Q T g',
       run_pipeline example_config scenario_coords 1 scenario_offsets 1
                    sequential initial_globals
       = Ok (scenario_unique, Q, T, kmap_at_0) g'
       /\ qry_keys Q
          = [mkIndexed (mkCoord 1 0 0) 0; mkIndexed (mkCoord 2 0 0) 1].
Proof.
  assert (0 < to_u32 (NUM_THREADS example_config)) as H0
    by (vm_compute; reflexivity).
  assert (1 <= INT_MAX) as H1 by (vm_compute; discriminate).
  split; [exact H0|]. split; [exact H1|].
  destruct (concrete_scenario example_config H0 1 sequential initial_globals
              H1) as (Q & T & g' & E & HQ & _).
  exists Q, T, g'. split; [exact E|exact HQ].
Defined.

(** ** The pivots of the pipeline *)

Lemma aligned_sublist (tiles_v : list (list IndexedCoord))
    (pivots_v : list IndexedCoord) :
  pivots_aligned tiles_v pivots_v -> sublist pivots_v (mjoin tiles_v).
Proof.
  induction 1 as [|tile piv ts ps Hh Hal IH]; [constructor|].
  destruct tile as [|first rest]; [done|]. injection Hh as ->.
  rewrite join_cons_app. simpl. constructor.
  now apply sublist_inserts_l.
Qed.

Lemma sorted_sublist (l k : list Z) :
  sublist l k -> StronglySorted Z.lt k -> StronglySorted Z.le l.
Proof.
  intros Hsub Hk. revert l Hsub.
  induction Hk as [|x k Hk IH Hx]; intros l Hsub.
  - apply sublist_nil_r in Hsub as ->. constructor.
  - apply sublist_cons_r in Hsub as [Hsub|(l' & -> & Hsub)]; [now apply IH|].
    constructor; [now apply IH|].
    apply Forall_forall. intros y Hy.
    rewrite Forall_forall in Hx.
    assert (y ∈ k) as Hyk by (eapply elem_of_sublist; eauto).
    specialize (Hx y Hyk). lia.
Qed.

(** The pivots the PVT phase makes from coordinates in strictly ascending
    key order, as the RDX phase returns them, have ascending keys: the
    pivot search of the LKP phase runs on sorted pivots. *)
Lemma pipeline_pivots_ascending (g_config : Config)
    (uniq_coords : list IndexedCoord) (tile_size : Z) (g : Globals)
    (T : TilesPivotsResult) (g' : Globals) :
  Z.of_nat (length uniq_coords) <= INT_MAX -> tile_size <= INT_MAX ->
  StronglySorted Z.lt (ic_to_key <$> uniq_coords) ->
  create_tiles_and_pivots g_config uniq_coords tile_size g = Ok T g' ->
  StronglySorted Z.le (ic_to_key <$> pivots T).
Proof.
  intros Hlen Hts Hsorted E.
  destruct (create_tiles_and_pivots_run g_config uniq_coords tile_size g
              Hlen Hts) as (T' & tr & E' & Hcat & Hal & _).
  rewrite E in E'. injection E' as <- _.
  apply (sorted_sublist _ (ic_to_key <$> uniq_coords)); [|done].
  rewrite <- Hcat. apply fmap_sublist. now apply aligned_sublist.
Qed.

(** ** Runs on concrete inputs *)

Example to_key_example : to_key (mkCoord 1 2 3) = 1050627.
Proof. reflexivity. Qed.

Example from_key_example : from_key 1050627 = mkCoord 1 2 3.
Proof. reflexivity. Qed.

Example quantized_example : quantized (mkCoord 9 5 (-7)) 2 = mkCoord 4 2 (-3).
Proof. reflexivity. Qed.

(** Equal keys keep their input order. *)
Example stable_sort_example :
  stable_sort [(2, 0); (1, 1); (2, 2); (1, 3)]
  = [(1, 1); (1, 3); (2, 0); (2, 2)].
Proof. reflexivity. Qed.

(** The RDX phase on the scenario: the unique coordinates, and the 36
    accesses of the simulated radix sort (four passes of three reads, then
    three reads and three writes). *)
Example rdx_example :
  match compute_unique_sorted_coords example_config scenario_coords 1
          initial_globals with
  | Ok out g' =>
      out = scenario_unique /\ length (mem_trace g') = 36%nat
      /\ curr_phase g' = "RDX"%string
  | Throw _ _ => False
  end.
Proof. vm_compute. repeat split. Qed.

(** The whole pipeline on the scenario, one tile per coordinate, the
    workers of each batch running one after the other. *)
Example pipeline_example :
  match run_pipeline example_config scenario_coords 1 scenario_offsets 1
          sequential initial_globals with
  | Ok (uc, Q, T, kmap) g' =>
      uc = scenario_unique
      /\ T = mkTiles [[mkIndexed (mkCoord 0 0 0) 0];
                      [mkIndexed (mkCoord 1 0 0) 1]]
                     [mkIndexed (mkCoord 0 0 0) 0;
                      mkIndexed (mkCoord 1 0 0) 1]
      /\ kmap = kmap_at_0
      /\ curr_phase g' = ""%string
  | Throw _ _ => False
  end.
Proof. vm_compute. repeat split. Qed.

(** Before a phase has set it the phase tag is empty, and recording an
    access throws. *)
Example record_access_without_phase :
  record_access example_config 0 "R" 0 initial_globals
  = Throw OutOfRange initial_globals.
Proof. reflexivity. Qed.

(** * Part III: further properties *)

(** ** Tracing *)

Lemma traces_ret {A} (a : A) : traces (mret a) a (fun _ => []).
Proof. intros g ph _. rewrite app_nil_r. now destruct g. Qed.

Lemma traces_bind {A B} (m : M A) (f : A -> M B) a b t1 t2 :
  traces m a t1 -> traces (f a) b t2 ->
  traces (m ≫= f) b (fun ph => t1 ph ++ t2 ph).
Proof.
  intros Hm Hf g ph Hph. rewrite (bind_ok _ _ _ _ _ (Hm g ph Hph)).
  rewrite (Hf (mkGlobals (mem_trace g ++ t1 ph) (curr_phase g)) ph Hph).
  simpl. now rewrite app_assoc.
Qed.

Lemma traces_bind_silent {A B} (m : M A) (f : A -> M B) a b t :
  traces m a (fun _ => []) -> traces (f a) b t -> traces (m ≫= f) b t.
Proof.
  intros Hm Hf g ph Hph. pose proof (Hm g ph Hph) as E.
  rewrite app_nil_r in E.
  replace (mkGlobals (mem_trace g) (curr_phase g)) with g in E
    by now destruct g.
  rewrite (bind_ok _ _ _ _ _ E). now apply Hf.
Qed.

Lemma traces_ext {A} (m : M A) a t t' :
  (forall ph, t ph = t' ph) -> traces m a t -> traces m a t'.
Proof. intros E H g ph Hph. rewrite <- E. now apply H. Qed.

Lemma traces_forM {A} (l : list A) (body : A -> M unit)
    (t : A -> Z -> list MemoryAccessEntry) :
  (forall x, x ∈ l -> traces (body x) tt (t x)) ->
  traces (forM_ l body) tt (fun ph => mjoin ((fun x => t x ph) <$> l)).
Proof.
  induction l as [|x l IH]; intros Hb.
  - apply traces_ret.
  - simpl.
    apply (traces_bind _ _ tt tt (t x)
             (fun ph => mjoin ((fun y => t y ph) <$> l))).
    + apply Hb. left.
    + apply IH. intros y Hy. apply Hb. now right.
Qed.

Lemma traces_inverse_at (d : bidict) (code : Z) (n : string) :
  inverse_find d code = Some n -> traces (inverse_at d code) n (fun _ => []).
Proof. intros E. unfold inverse_at. rewrite E. apply traces_ret. Qed.

Lemma phase_code_range (n : string) (ph : Z) :
  forward_find PHASES n = Some ph -> 0 <= ph <= 6.
Proof.
  unfold PHASES. simpl. repeat case_decide; intros [= <-]; lia.
Qed.

Lemma ops_code (op_str : string) (o : Z) :
  forward_find OPS op_str = Some o <->
  (op_str = "R"%string /\ o = 0) \/ (op_str = "W"%string /\ o = 1).
Proof.
  unfold OPS. simpl. repeat case_decide; subst; split.
  all: try (intros [= <-]; auto).
  all: try (intros [[? ->]|[? ->]]; congruence).
  all: try done.
  all: intros [[? ?]|[? ?]]; congruence.
Qed.

Lemma to_u8_to_int (v : Z) : to_u8 (to_int v) = v mod 256.
Proof.
  unfold to_u8, to_int, UINT32_MOD.
  pose proof (Z.div_mod (v + 2 ^ 31) (2 ^ 32) ltac:(lia)) as E.
  replace ((v + 2 ^ 31) mod 2 ^ 32 - 2 ^ 31)
    with (v + (- (256 * 16777216 * ((v + 2 ^ 31) / 2 ^ 32)))) by lia.
  rewrite <- Z.mul_opp_r, <- Z.mul_assoc, Z.mul_comm.
  now rewrite Z_mod_plus_full.
Qed.

Section TracingFacts.

Context (g_config : Config).

Lemma addr_to_tensor_tensor_of (a : Z) (g : Globals) :
  addr_to_tensor g_config a g = Ok (tensor_of g_config a) g.
Proof.
  unfold tensor_of, addr_to_tensor.
  repeat (match goal with
          | |- context [if ?b then _ else _] => destruct b
          end; [reflexivity|]).
  reflexivity.
Qed.

Lemma tensor_of_codes (a : Z) :
  tensor_of g_config a ∈ [0; 1; 2; 3; 4; 5; 6; 8; 9; 10; 255].
Proof.
  unfold tensor_of, addr_to_tensor.
  repeat (match goal with
          | |- context [if ?b then _ else _] => destruct b
          end; [cbn; set_solver|]).
  cbn; set_solver.
Qed.

Lemma make_entry_entry (tid : Z) (op_str : string) (a o ph : Z) g :
  forward_find PHASES (curr_phase g) = Some ph ->
  forward_find OPS op_str = Some o ->
  make_entry g_config tid op_str a g = Ok (entry_of g_config ph tid o a) g.
Proof.
  intros Hph Ho. unfold make_entry.
  rewrite (bind_ok get_curr_phase _ g (curr_phase g) g eq_refl).
  rewrite (bind_ok _ _ _ _ _ (forward_at_ok _ _ _ g Hph)).
  rewrite (bind_ok _ _ _ _ _ (forward_at_ok _ _ _ g Ho)).
  rewrite (bind_ok _ _ _ _ _ (addr_to_tensor_tensor_of a g)).
  reflexivity.
Qed.

Lemma record_access_entry (tid : Z) (op_str : string) (a o ph : Z) g :
  forward_find PHASES (curr_phase g) = Some ph ->
  forward_find OPS op_str = Some o ->
  record_access g_config tid op_str a g
  = Ok tt (mkGlobals (mem_trace g ++ [entry_of g_config ph tid o a])
                     (curr_phase g)).
Proof.
  intros Hph Ho. unfold record_access.
  now rewrite (bind_ok _ _ _ _ _ (make_entry_entry tid op_str a o ph g Hph Ho)).
Qed.

Lemma traces_record_access (tid : Z) (op_str : string) (a o : Z) :
  forward_find OPS op_str = Some o ->
  traces (record_access g_config tid op_str a) tt
         (fun ph => [entry_of g_config ph tid o a]).
Proof. intros Ho g ph Hph. now apply record_access_entry. Qed.

End TracingFacts.

Section TracingTheorems.

Context (g_config : Config).

Lemma tensor_of_I (a : Z) :
  I_BASE g_config <= a < QK_BASE g_config -> tensor_of g_config a = 0.
Proof.
  intros Ha. unfold tensor_of, addr_to_tensor, in_range.
  rewrite !bool_decide_eq_true_2 by lia. reflexivity.
Qed.

Lemma tensor_of_regions (a : Z) :
  ascending_bases g_config ->
  (I_BASE g_config <= a < QK_BASE g_config -> tensor_of g_config a = 0)
  /\ (QK_BASE g_config <= a < QI_BASE g_config -> tensor_of g_config a = 1)
  /\ (QI_BASE g_config <= a < QO_BASE g_config -> tensor_of g_config a = 2)
  /\ (QO_BASE g_config <= a < PIV_BASE g_config -> tensor_of g_config a = 3)
  /\ (PIV_BASE g_config <= a < KM_BASE g_config -> tensor_of g_config a = 4)
  /\ (KM_BASE g_config <= a < WO_BASE g_config -> tensor_of g_config a = 5)
  /\ (WO_BASE g_config <= a < IV_BASE g_config -> tensor_of g_config a = 6)
  /\ (IV_BASE g_config <= a < GM_BASE g_config -> tensor_of g_config a = 8)
  /\ (GM_BASE g_config <= a < WV_BASE g_config -> tensor_of g_config a = 9)
  /\ (WV_BASE g_config <= a < WV_BASE g_config + 2 * 2 ^ 32 ->
      tensor_of g_config a = 10)
  /\ (a < I_BASE g_config \/ WV_BASE g_config + 2 * 2 ^ 32 <= a ->
      tensor_of g_config a = 255).
Proof.
  unfold ascending_bases, UINT64_MOD. intros Hasc.
  assert (to_u64 (WV_BASE g_config + 2 * 2 ^ 32)
          = WV_BASE g_config + 2 * 2 ^ 32) as Hwv.
  { unfold to_u64, UINT64_MOD. apply Z.mod_small. lia. }
  unfold tensor_of, addr_to_tensor, in_range. rewrite Hwv.
  repeat split; intros Ha;
    repeat (match goal with
            | |- context [bool_decide ?P] =>
                destruct (bool_decide_reflect P); [|]; try (exfalso; lia)
            end; cbn [andb]);
    reflexivity.
Qed.

(** X1. [addr_to_tensor] never throws and leaves the globals alone; its
    result is a code of the tensor table, and never the code registered for
    TILE, whatever the configuration and the address. *)
Theorem addr_to_tensor_never_tile (a : Z) (g : Globals) :
  exists t,
    addr_to_tensor g_config a g = Ok t g
    /\ is_Some (inverse_find TENSORS t)
    /\ forward_find TENSORS "TILE" ≠ Some t.
Proof.
  exists (tensor_of g_config a). split; [apply addr_to_tensor_tensor_of|].
  pose proof (tensor_of_codes g_config a) as Hc.
  repeat (apply elem_of_cons in Hc as [->|Hc]; [split; [by eexists|done]|]).
  by apply elem_of_nil in Hc.
Qed.

(** X2. With ascending region bases every address is classified by the
    region it lies in, each region reaching from its base to the next base
    and the region of WV being [2 * 2^32] bytes long; an address below
    [I_BASE] or beyond the region of WV is Unknown. *)
Theorem addr_to_tensor_regions (a : Z) (g : Globals) :
  ascending_bases g_config ->
  (I_BASE g_config <= a < QK_BASE g_config ->
   addr_to_tensor g_config a g = Ok 0 g)
  /\ (QK_BASE g_config <= a < QI_BASE g_config ->
      addr_to_tensor g_config a g = Ok 1 g)
  /\ (QI_BASE g_config <= a < QO_BASE g_config ->
      addr_to_tensor g_config a g = Ok 2 g)
  /\ (QO_BASE g_config <= a < PIV_BASE g_config ->
      addr_to_tensor g_config a g = Ok 3 g)
  /\ (PIV_BASE g_config <= a < KM_BASE g_config ->
      addr_to_tensor g_config a g = Ok 4 g)
  /\ (KM_BASE g_config <= a < WO_BASE g_config ->
      addr_to_tensor g_config a g = Ok 5 g)
  /\ (WO_BASE g_config <= a < IV_BASE g_config ->
      addr_to_tensor g_config a g = Ok 6 g)
  /\ (IV_BASE g_config <= a < GM_BASE g_config ->
      addr_to_tensor g_config a g = Ok 8 g)
  /\ (GM_BASE g_config <= a < WV_BASE g_config ->
      addr_to_tensor g_config a g = Ok 9 g)
  /\ (WV_BASE g_config <= a < WV_BASE g_config + 2 * 2 ^ 32 ->
      addr_to_tensor g_config a g = Ok 10 g)
  /\ (a < I_BASE g_config \/ WV_BASE g_config + 2 * 2 ^ 32 <= a ->
      addr_to_tensor g_config a g = Ok 255 g).
Proof.
  intros Hasc. rewrite addr_to_tensor_tensor_of.
  destruct (tensor_of_regions a Hasc)
    as (H0 & H1 & H2 & H3 & H4 & H5 & H6 & H8 & H9 & H10 & H255).
  repeat split; intros Ha; f_equal; auto.
Qed.

(** X3. [addr_to_tensor_str] never throws and leaves the globals alone: it
    returns the name the tensor table registers for the code
    [addr_to_tensor] gives the address, so the fallback of its handler is
    never taken, and the name is never TILE. *)
Theorem addr_to_tensor_str_name (a : Z) (g : Globals) :
  exists (n : string) (t : Z),
    addr_to_tensor_str g_config a g = Ok n g
    /\ addr_to_tensor g_config a g = Ok t g
    /\ forward_find TENSORS n = Some t
    /\ inverse_at TENSORS t g = Ok n g
    /\ n ≠ "TILE"%string.
Proof.
  unfold addr_to_tensor_str.
  rewrite (bind_ok _ _ _ _ _ (addr_to_tensor_tensor_of g_config a g)).
  rewrite addr_to_tensor_tensor_of.
  pose proof (tensor_of_codes g_config a) as Hc.
  repeat (apply elem_of_cons in Hc as [->|Hc];
          [eexists _, _; repeat split; try reflexivity; done|]).
  by apply elem_of_nil in Hc.
Qed.

(** X4. [record_access] throws [std::out_of_range] and records nothing when
    the current phase is not a name of the phase table or the operation is
    neither R nor W; otherwise it appends exactly one entry, made of the
    phase code, the thread id reduced modulo 256, the operation code, the
    tensor code of the address and the address itself, and it leaves the
    phase alone. *)
Theorem record_access_outcome (tid : Z) (op_str : string) (a : Z)
    (g : Globals) :
  (curr_phase g ∉ PHASES.*1
   \/ (op_str ≠ "R"%string /\ op_str ≠ "W"%string) ->
   record_access g_config tid op_str a g = Throw OutOfRange g)
  /\ (curr_phase g ∈ PHASES.*1 ->
      op_str = "R"%string \/ op_str = "W"%string ->
      exists ph t,
        forward_find PHASES (curr_phase g) = Some ph
        /\ addr_to_tensor g_config a g = Ok t g
        /\ record_access g_config tid op_str a g
           = Ok tt (mkGlobals
                      (mem_trace g
                       ++ [mkEntry ph (tid mod 256)
                             (if decide (op_str = "R"%string) then 0 else 1)
                             t a])
                      (curr_phase g))).
Proof.
  assert (forall n, n ∈ PHASES.*1 <-> is_Some (forward_find PHASES n)) as Hin.
  { intros n. unfold PHASES. cbn [fmap list_fmap fst forward_find].
    split.
    - intros Hn. repeat case_decide; try by eexists.
      repeat (apply elem_of_cons in Hn as [->|Hn]; [done|]).
      by apply elem_of_nil in Hn.
    - intros [c Hc]. repeat case_decide; subst; set_solver. }
  split.
  - intros [Hph|[HR HW]].
    + assert (forward_find PHASES (curr_phase g) = None) as E.
      { apply eq_None_not_Some. now rewrite <- Hin. }
      unfold record_access, make_entry, forward_at.
      unfold mbind, ST_bind, get_curr_phase. now rewrite E.
    + assert (forward_find OPS op_str = None) as E.
      { apply eq_None_not_Some. intros [o Ho].
        apply ops_code in Ho as [[? _]|[? _]]; congruence. }
      unfold record_access, make_entry, forward_at.
      unfold mbind, ST_bind, get_curr_phase. rewrite E.
      now destruct (forward_find PHASES (curr_phase g)).
  - intros Hph Hop. apply Hin in Hph as [ph Hph].
    pose proof (phase_code_range _ _ Hph) as Hr.
    exists ph, (tensor_of g_config a).
    split; [done|]. split; [apply addr_to_tensor_tensor_of|].
    assert (forward_find OPS op_str
            = Some (if decide (op_str = "R"%string) then 0 else 1)) as Ho.
    { apply ops_code. destruct Hop as [->| ->]; [left|right]; done. }
    rewrite (record_access_entry g_config _ _ _ _ _ _ Hph Ho).
    unfold entry_of, to_u8. repeat f_equal.
    + apply Z.mod_small. lia.
    + destruct (decide _); done.
    + pose proof (tensor_of_codes g_config a) as Hc.
      repeat (apply elem_of_cons in Hc as [->|Hc]; [done|]).
      by apply elem_of_nil in Hc.
Qed.

End TracingTheorems.

Lemma example_config_ascending : ascending_bases example_config.
Proof. unfold ascending_bases, example_config, UINT64_MOD. simpl. lia. Qed.

Lemma addr_to_tensor_regions_witness :
  ascending_bases example_config
  /\ (PIV_BASE example_config <= 1342177284 < KM_BASE example_config ->
      addr_to_tensor example_config 1342177284 lkp_globals
      = Ok 4 lkp_globals).
Proof.
  split.
  - unfold ascending_bases, example_config, UINT64_MOD. simpl. lia.
  - apply (addr_to_tensor_regions example_config 1342177284 lkp_globals).
    unfold ascending_bases, example_config, UINT64_MOD. simpl. lia.
Defined.

(** ** The trace of the simulated radix sort *)

Lemma join_singletons {A B} (f : A -> B) (l : list A) :
  mjoin ((fun x => [f x]) <$> l) = f <$> l.
Proof.
  induction l as [|x l IH]; [done|].
  rewrite !fmap_cons, join_cons_app, IH. reflexivity.
Qed.

Lemma length_join_replicate {A} (n : nat) (l : list A) :
  length (mjoin (replicate n l)) = (n * length l)%nat.
Proof.
  induction n as [|n IH]; [done|].
  change (replicate (S n) l) with (l :: replicate n l).
  rewrite join_cons_app, length_app, IH. lia.
Qed.

Lemma length_join_fmap_const {A B} (f : A -> list B) (k : nat) (l : list A) :
  (forall x, length (f x) = k) ->
  length (mjoin (f <$> l)) = (k * length l)%nat.
Proof.
  intros Hf. induction l as [|x l IH]; [simpl; lia|].
  rewrite fmap_cons, join_cons_app, length_app, IH, Hf. simpl. lia.
Qed.

Section RadixTrace.

Context (g_config : Config).

Lemma traces_thread_of (i : nat) :
  NUM_THREADS g_config <> 0 ->
  traces (thread_of g_config i) (radix_thread g_config i) (fun _ => []).
Proof.
  intros Hnz. unfold thread_of. rewrite decide_False by exact Hnz.
  apply traces_ret.
Qed.

Lemma traces_radix_pass (N : nat) (base_addr : Z) :
  NUM_THREADS g_config <> 0 ->
  traces (radix_pass g_config N base_addr) tt
         (fun ph => pass_trace g_config ph N base_addr).
Proof.
  intros Hnz. unfold radix_pass, pass_trace.
  apply (traces_bind _ _ tt tt
           (fun ph => (fun i => entry_of g_config ph (radix_thread g_config i)
                                  0 (elem_addr base_addr (Z.of_nat i)
                                                (SIZE_KEY g_config)))
                        <$> seq 0 N)).
  - eapply traces_ext; [|apply traces_forM].
    + intros ph. apply join_singletons.
    + intros i _.
      apply (traces_bind_silent _ _ (radix_thread g_config i));
        [now apply traces_thread_of|].
      now apply traces_record_access.
  - apply traces_forM. intros i _.
    apply (traces_bind_silent _ _ (radix_thread g_config i));
      [now apply traces_thread_of|].
    apply (traces_bind _ _ tt tt (fun ph => [_]) (fun ph => [_])).
    + now apply traces_record_access.
    + apply (traces_bind _ _ "W"%string tt (fun _ => []) (fun ph => [_])).
      * now apply traces_inverse_at.
      * now apply traces_record_access.
Qed.

Lemma traces_radix_sort (arr : list Z) (base_addr : Z) :
  NUM_THREADS g_config <> 0 ->
  traces (radix_sort_with_memtrace g_config arr base_addr) arr
         (fun ph => radix_trace g_config ph (length arr) base_addr).
Proof.
  intros Hnz. unfold radix_sort_with_memtrace, radix_trace.
  destruct (decide _) as [E|_].
  - rewrite E. apply traces_ret.
  - apply (traces_ext _ _
             (fun ph => mjoin ((fun _ : nat =>
                                  pass_trace g_config ph (length arr)
                                             base_addr) <$> seq 0 4) ++ [])).
    + intros ph. now rewrite app_nil_r.
    + apply (traces_bind _ _ tt arr _ (fun _ => [])).
      * apply traces_forM. intros _ _. now apply traces_radix_pass.
      * apply traces_ret.
Qed.

Lemma pass_trace_length (ph : Z) (N : nat) (base : Z) :
  length (pass_trace g_config ph N base) = (3 * N)%nat.
Proof.
  unfold pass_trace. rewrite length_app, length_fmap.
  rewrite (length_join_fmap_const _ 2) by done.
  rewrite length_seq. lia.
Qed.

Lemma radix_trace_length (ph : Z) (N : nat) (base : Z) :
  length (radix_trace g_config ph N base) = (12 * N)%nat.
Proof.
  unfold radix_trace. rewrite length_join_replicate, pass_trace_length. lia.
Qed.

Lemma pass_trace_writes (ph : Z) (N : nat) (base : Z) :
  length (filter (fun e => op e = 1) (pass_trace g_config ph N base)) = N.
Proof.
  unfold pass_trace. rewrite filter_app, length_app.
  assert (forall l : list nat,
    (length (filter (fun e => op e = 1%Z)
       ((fun i => entry_of g_config ph (radix_thread g_config i) 0%Z
                    (elem_addr base (Z.of_nat i) (SIZE_KEY g_config)))
          <$> l))
     + length (filter (fun e => op e = 1%Z)
         (mjoin ((fun i =>
                    [entry_of g_config ph (radix_thread g_config i) 0%Z
                       (elem_addr base (Z.of_nat i) (SIZE_KEY g_config));
                     entry_of g_config ph (radix_thread g_config i) 1%Z
                       (elem_addr base (Z.of_nat i) (SIZE_KEY g_config))])
                   <$> l)))
     = length l)%nat) as H.
  { induction l as [|i l IH]; [done|].
    rewrite !fmap_cons, join_cons_app, filter_cons, filter_app, length_app.
    rewrite !filter_cons, filter_nil. cbn [entry_of op].
    change (to_u8 0) with 0. change (to_u8 1) with 1.
    repeat case_decide; try done. simpl in *. lia. }
  rewrite H. apply length_seq.
Qed.

Lemma radix_trace_writes (ph : Z) (N : nat) (base : Z) :
  length (filter (fun e => op e = 1) (radix_trace g_config ph N base))
  = (4 * N)%nat.
Proof.
  unfold radix_trace. simpl.
  rewrite !filter_app, !length_app, filter_nil, pass_trace_writes.
  simpl. lia.
Qed.

Lemma radix_trace_elem (ph : Z) (N : nat) (base : Z) (e : MemoryAccessEntry) :
  e ∈ radix_trace g_config ph N base ->
  exists (i : nat) (o : Z),
    (i < N)%nat /\ (o = 0 \/ o = 1)
    /\ e = entry_of g_config ph (radix_thread g_config i) o
             (elem_addr base (Z.of_nat i) (SIZE_KEY g_config)).
Proof.
  unfold radix_trace. intros He.
  apply list_elem_of_join in He as (l & He & Hl).
  apply elem_of_replicate in Hl as [-> _].
  unfold pass_trace in He. apply elem_of_app in He as [He|He].
  - apply list_elem_of_fmap in He as (i & -> & Hi).
    apply elem_of_seq in Hi. exists i, 0. split; [lia|]. auto.
  - apply list_elem_of_join in He as (l & He & Hl).
    apply list_elem_of_fmap in Hl as (i & -> & Hi).
    apply elem_of_seq in Hi.
    apply elem_of_cons in He as [->|He]; [exists i, 0; split; [lia|]; auto|].
    apply elem_of_cons in He as [->|He]; [exists i, 1; split; [lia|]; auto|].
    by apply elem_of_nil in He.
Qed.

(** X5. [radix_sort_with_memtrace] returns its argument as it is, sorted or
    not, and records four passes of three accesses per key: [12 * N]
    entries, [4 * N] of them writes, each at the address of a key [i < N] of
    the array, charged to thread [i mod NUM_THREADS] (stored modulo 256) and
    tagged with the current phase.  For an empty array nothing is
    recorded. *)
Theorem radix_sort_trace (arr : list Z) (base_addr : Z) (g : Globals)
    (ph : Z) :
  forward_find PHASES (curr_phase g) = Some ph ->
  0 < NUM_THREADS g_config ->
  let N := length arr in
  exists tr,
    radix_sort_with_memtrace g_config arr base_addr g
    = Ok arr (mkGlobals (mem_trace g ++ tr) (curr_phase g))
    /\ length tr = (12 * N)%nat
    /\ length (filter (fun e => op e = 1) tr) = (4 * N)%nat
    /\ Forall (fun e =>
                 phase e = ph
                 /\ exists i : nat,
                      (i < N)%nat
                      /\ addr e = elem_addr base_addr (Z.of_nat i)
                                    (SIZE_KEY g_config)
                      /\ thread_id e
                         = (Z.of_nat i mod NUM_THREADS g_config) mod 256)
              tr.
Proof.
  intros Hph Hth N. exists (radix_trace g_config ph N base_addr).
  split; [apply traces_radix_sort; [lia|exact Hph]|].
  split; [apply radix_trace_length|].
  split; [apply radix_trace_writes|].
  apply Forall_forall. intros e He.
  apply radix_trace_elem in He as (i & o & Hi & _ & ->).
  cbn [entry_of phase addr thread_id]. split.
  - pose proof (phase_code_range _ _ Hph). unfold to_u8.
    apply Z.mod_small. lia.
  - exists i. split; [done|]. split; [done|]. apply to_u8_to_int.
Qed.

(** The RDX phase with its trace: the accesses are those of the simulated
    radix sort over one key per input coordinate. *)
Lemma compute_unique_sorted_coords_trace (in_coords : list Coord3D)
    (stride : Z) (g : Globals) :
  NUM_THREADS g_config <> 0 ->
  compute_unique_sorted_coords g_config in_coords stride g
  = Ok (dedup_sorted (stable_sort (idx_keys_pairs in_coords stride)))
       (mkGlobals
          (mem_trace g
           ++ radix_trace g_config 0 (length in_coords) (I_BASE g_config))
          "RDX").
Proof.
  intros Hnz. unfold compute_unique_sorted_coords.
  pose proof (traces_radix_sort (idx_keys_pairs in_coords stride).*1
                (I_BASE g_config) Hnz (mkGlobals (mem_trace g) "RDX") 0
                eq_refl) as E.
  rewrite length_fmap, idx_keys_pairs_length in E.
  unfold mbind at 1 2, ST_bind. simpl.
  rewrite (bind_ok _ _ _ _ _ E). reflexivity.
Qed.

(** X6. [compute_unique_sorted_coords] returns whatever the phase was on
    entry, and leaves the phase RDX; the accesses it records are those of
    the simulated radix sort over one key per input coordinate at
    [I_BASE], [12 * N] entries tagged RDX, and none for an empty input, for
    which the result is empty.  When the key array lies within the region
    between [I_BASE] and [QK_BASE], every one of these entries is tagged
    with the tensor I. *)
Theorem rdx_trace (in_coords : list Coord3D) (stride : Z) (g : Globals) :
  0 < NUM_THREADS g_config ->
  let N := length in_coords in
  exists out tr,
    compute_unique_sorted_coords g_config in_coords stride g
    = Ok out (mkGlobals (mem_trace g ++ tr) "RDX")
    /\ length tr = (12 * N)%nat
    /\ Forall (fun e => phase e = 0) tr
    /\ (in_coords = [] -> out = [] /\ tr = [])
    /\ (0 <= I_BASE g_config -> 0 < SIZE_KEY g_config ->
        I_BASE g_config + Z.of_nat N * SIZE_KEY g_config
          <= QK_BASE g_config ->
        QK_BASE g_config <= UINT64_MOD ->
        Forall (fun e => tensor e = 0) tr).
Proof.
  intros Hth N.
  exists (dedup_sorted (stable_sort (idx_keys_pairs in_coords stride))),
         (radix_trace g_config 0 N (I_BASE g_config)).
  split; [apply compute_unique_sorted_coords_trace; lia|].
  split; [apply radix_trace_length|].
  split.
  { apply Forall_forall. intros e He.
    apply radix_trace_elem in He as (i & o & _ & _ & ->). reflexivity. }
  split.
  { intros ->. split; reflexivity. }
  intros HI HS Hfit HQK. apply Forall_forall. intros e He.
  apply radix_trace_elem in He as (i & o & Hi & _ & ->).
  cbn [entry_of tensor]. rewrite tensor_of_I; [reflexivity|].
  unfold elem_addr, to_u64. unfold UINT64_MOD in *.
  rewrite Z.mod_small by nia. nia.
Qed.

End RadixTrace.

Lemma radix_sort_trace_witness :
  forward_find PHASES (curr_phase (mkGlobals [] "RDX")) = Some 0
  /\ 0 < NUM_THREADS example_config
  /\ exists tr,
       radix_sort_with_memtrace example_config [7; 3] 268435456
         (mkGlobals [] "RDX")
       = Ok [7; 3] (mkGlobals ([] ++ tr) "RDX")
       /\ length tr = 24%nat.
Proof.
  split; [reflexivity|]. split; [reflexivity|].
  destruct (radix_sort_trace example_config [7; 3] 268435456
              (mkGlobals [] "RDX") 0 eq_refl eq_refl)
    as (tr & E & Hlen & _).
  exists tr. split; [exact E|exact Hlen].
Defined.

Lemma rdx_trace_witness :
  0 < NUM_THREADS example_config
  /\ exists out tr,
       compute_unique_sorted_coords example_config scenario_coords 1
         initial_globals
       = Ok out (mkGlobals (mem_trace initial_globals ++ tr) "RDX")
       /\ length tr = 36%nat
       /\ Forall (fun e => tensor e = 0) tr.
Proof.
  split; [reflexivity|].
  destruct (rdx_trace example_config scenario_coords 1 initial_globals
              eq_refl)
    as (out & tr & E & Hlen & _ & _ & Htensor).
  exists out, tr. split; [exact E|]. split; [exact Hlen|].
  apply Htensor; unfold example_config, UINT64_MOD; simpl; lia.
Defined.

(** ** The tiles, exactly *)

Lemma tile_count_done (U c t0 : nat) :
  (0 < c)%nat -> (U <= t0 * c)%nat -> (tile_count U c - t0 = 0)%nat.
Proof.
  intros Hc HU. unfold tile_count.
  assert ((U + c - 1) / c < S t0)%nat; [|lia].
  apply Nat.Div0.div_lt_upper_bound. lia.
Qed.

Lemma tile_count_more (U c t0 : nat) :
  (0 < c)%nat -> (t0 * c < U)%nat ->
  (tile_count U c - t0 = S (tile_count U c - S t0))%nat.
Proof.
  intros Hc HU. unfold tile_count.
  assert (S t0 <= (U + c - 1) / c)%nat; [|lia].
  apply Nat.div_le_lower_bound; lia.
Qed.

Section ExactTiles.

Context (g_config : Config).

Lemma tiles_loop_exact (uniq_coords : list IndexedCoord) (cts : Z)
    (fuel : nat) :
  1 <= cts <= INT_MAX -> Z.of_nat (length uniq_coords) <= INT_MAX ->
  forall (t0 : nat) (result : TilesPivotsResult),
    length (pivots result) = t0 ->
    Z.of_nat (length uniq_coords) - Z.of_nat t0 * cts <= Z.of_nat fuel ->
    let c := Z.to_nat cts in
    let m := (tile_count (length uniq_coords) c - t0)%nat in
    traces (tiles_loop g_config uniq_coords cts fuel (Z.of_nat t0 * cts)
                       result)
      (mkTiles (tiles result ++ (tile_at uniq_coords c <$> seq t0 m))
               (pivots result
                ++ ((fun t => uniq_coords !!! (t * c)%nat) <$> seq t0 m)))
      (fun ph => (fun t : nat =>
                    entry_of g_config ph 0 1
                      (elem_addr (PIV_BASE g_config) (Z.of_nat t)
                                 (SIZE_KEY g_config)))
                   <$> seq t0 m).
Proof.
  intros Hcts HU. induction fuel as [|fuel IH];
    intros t0 result Hlen Hfuel c m.
  - subst m. rewrite tile_count_done by lia. simpl. rewrite !app_nil_r.
    destruct result. apply traces_ret.
  - cbn [tiles_loop].
    destruct (decide (Z.of_nat t0 * cts < Z.of_nat (length uniq_coords)))
      as [Hlt|Hge].
    2:{ subst m. rewrite tile_count_done by lia. simpl. rewrite !app_nil_r.
        destruct result. apply traces_ret. }
    assert (to_u64 (Z.of_nat t0 * cts + cts) = Z.of_nat (S t0) * cts) as Hu.
    { unfold to_u64, UINT64_MOD. rewrite Z.mod_small; unfold INT_MAX in *; lia. }
    rewrite Hu.
    assert (slice uniq_coords (Z.of_nat t0 * cts)
              (Z.min (Z.of_nat (S t0) * cts) (Z.of_nat (length uniq_coords)))
            = tile_at uniq_coords c t0) as Hslice.
    { unfold slice, tile_at.
      replace (Z.to_nat (Z.of_nat t0 * cts)) with (t0 * c)%nat by lia.
      destruct (decide (Z.of_nat (S t0) * cts
                        <= Z.of_nat (length uniq_coords))).
      - rewrite Z.min_l by lia. f_equal. lia.
      - rewrite Z.min_r by lia.
        rewrite !take_ge; [done| |]; rewrite length_drop; lia. }
    rewrite Hslice.
    assert (exists tl, tile_at uniq_coords c t0
                       = uniq_coords !!! (t0 * c)%nat :: tl) as [tl Htile].
    { unfold tile_at.
      destruct (lookup_lt_is_Some_2 uniq_coords (t0 * c)%nat ltac:(lia))
        as [x Hx].
      rewrite (list_lookup_total_correct _ _ _ Hx).
      rewrite (drop_S _ _ _ Hx).
      destruct c as [|c'] eqn:Hc; [lia|]. simpl. eauto. }
    subst m. rewrite tile_count_more by lia.
    cbn [seq fmap list_fmap].
    rewrite Htile.
    set (first := uniq_coords !!! (t0 * c)%nat).
    set (result' := mkTiles (tiles result ++ [first :: tl])
                            (pivots result ++ [first])).
    specialize (IH (S t0) result').
    set (rest_trace := fun ph : Z =>
           (fun t : nat =>
              entry_of g_config ph 0 1
                (elem_addr (PIV_BASE g_config) (Z.of_nat t)
                           (SIZE_KEY g_config)))
             <$> seq (S t0) (tile_count (length uniq_coords) c - S t0)).
    set (here := fun ph : Z =>
           [entry_of g_config ph 0 1
              (elem_addr (PIV_BASE g_config) (Z.of_nat t0)
                         (SIZE_KEY g_config))]).
    apply (traces_ext _ _ (fun ph => here ph ++ rest_trace ph));
      [intros ph; reflexivity|].
    apply (traces_bind _ _ result' _ here rest_trace).
    + apply (traces_ext _ _ (fun ph => here ph ++ []));
        [intros ph; apply app_nil_r|].
      apply (traces_bind _ _ tt result' here (fun _ => [])).
      * rewrite length_app, Hlen. simpl.
        replace (Z.of_nat (t0 + 1) - 1) with (Z.of_nat t0) by lia.
        now apply traces_record_access.
      * apply traces_ret.
    + replace (tiles result ++ (first :: tl) :: _)
        with (tiles result' ++ (tile_at uniq_coords c <$>
               seq (S t0) (tile_count (length uniq_coords) c - S t0))).
      2:{ unfold result'. cbn [tiles]. now rewrite <- app_assoc. }
      replace (pivots result ++ first :: _)
        with (pivots result' ++ ((fun t => uniq_coords !!! (t * c)%nat) <$>
               seq (S t0) (tile_count (length uniq_coords) c - S t0))).
      2:{ unfold result'. cbn [pivots]. now rewrite <- app_assoc. }
      apply IH.
      * unfold result'. cbn [pivots]. rewrite length_app, Hlen. simpl. lia.
      * lia.
Qed.

End ExactTiles.

Section ExactTilesTheorem.

Context (g_config : Config).

Lemma tile_at_length (uniq_coords : list IndexedCoord) (c t : nat) :
  (0 < c)%nat -> (t < tile_count (length uniq_coords) c)%nat ->
  (1 <= length (tile_at uniq_coords c t) <= c)%nat
  /\ ((S t < tile_count (length uniq_coords) c)%nat ->
      length (tile_at uniq_coords c t) = c).
Proof.
  intros Hc Ht. unfold tile_at. rewrite length_take, length_drop.
  assert (t * c < length uniq_coords)%nat as Hlt.
  { destruct (decide (t * c < length uniq_coords)%nat); [done|].
    pose proof (tile_count_done (length uniq_coords) c t Hc). lia. }
  split; [lia|]. intros Hst.
  assert (S t * c < length uniq_coords)%nat as Hlt'.
  { destruct (decide (S t * c < length uniq_coords)%nat); [done|].
    pose proof (tile_count_done (length uniq_coords) c (S t) Hc). lia. }
  lia.
Qed.

(** The PVT phase with its result and its trace. *)
Lemma create_tiles_and_pivots_trace (uniq_coords : list IndexedCoord)
    (tile_size_param : Z) (g : Globals) :
  Z.of_nat (length uniq_coords) <= INT_MAX -> tile_size_param <= INT_MAX ->
  let c := effective_tile_size uniq_coords tile_size_param in
  let n := tile_count (length uniq_coords) c in
  create_tiles_and_pivots g_config uniq_coords tile_size_param g
  = Ok (mkTiles (tile_at uniq_coords c <$> seq 0 n)
                ((fun t => uniq_coords !!! (t * c)%nat) <$> seq 0 n))
       (mkGlobals
          (mem_trace g
           ++ ((fun t : nat =>
                  entry_of g_config 3 0 1
                    (elem_addr (PIV_BASE g_config) (Z.of_nat t)
                               (SIZE_KEY g_config)))
                 <$> seq 0 n))
          "PVT").
Proof.
  intros HU Hts c n.
  unfold create_tiles_and_pivots.
  unfold mbind at 1 2, ST_bind. simpl.
  destruct uniq_coords as [|u0 rest] eqn:Huc.
  { subst n c. unfold effective_tile_size, tile_count.
    destruct (decide _); simpl.
    - now rewrite app_nil_r.
    - rewrite Nat.div_small by lia. simpl. now rewrite app_nil_r. }
  rewrite <- Huc in *.
  assert (0 < length uniq_coords)%nat as Hpos by (rewrite Huc; simpl; lia).
  rewrite to_int_small by (unfold INT_MAX in *; lia).
  rewrite decide_False by lia.
  set (cts := if decide (tile_size_param <= 0)
              then Z.of_nat (length uniq_coords) else tile_size_param).
  assert (Z.to_nat cts = c) as Hc.
  { subst cts c. unfold effective_tile_size. rewrite <- Huc.
    destruct (decide _); lia. }
  assert (1 <= cts <= INT_MAX) as Hcts.
  { subst cts. destruct (decide _); lia. }
  pose proof (tiles_loop_exact g_config uniq_coords cts (length uniq_coords)
                Hcts HU 0 (mkTiles [] []) eq_refl ltac:(lia)
                (mkGlobals (mem_trace g) "PVT") 3 eq_refl) as E.
  cbv zeta in E. rewrite Hc, Nat.sub_0_r in E. subst n. rewrite <- Huc.
  change (Z.of_nat 0 * cts) with 0 in E. exact E.
Qed.

(** X7. [create_tiles_and_pivots] cuts the sequence every [c] elements,
    [c] being the tile size, or the length of the sequence when the tile
    size is not positive: there are [ceil(U / c)] tiles, tile [t] holds the
    elements from [t * c] on, every tile but the last has exactly [c]
    elements and no tile is empty; pivot [t] is element [t * c]; and the
    trace grows by exactly one write per pivot, by thread 0, at the address
    of pivot [t] in the array at [PIV_BASE], tagged PVT.  Sizes are within
    the range of [int]. *)
Theorem create_tiles_and_pivots_exact (uniq_coords : list IndexedCoord)
    (tile_size_param : Z) (g : Globals) :
  Z.of_nat (length uniq_coords) <= INT_MAX -> tile_size_param <= INT_MAX ->
  let c := effective_tile_size uniq_coords tile_size_param in
  let n := tile_count (length uniq_coords) c in
  create_tiles_and_pivots g_config uniq_coords tile_size_param g
  = Ok (mkTiles (tile_at uniq_coords c <$> seq 0 n)
                ((fun t => uniq_coords !!! (t * c)%nat) <$> seq 0 n))
       (mkGlobals
          (mem_trace g
           ++ ((fun t : nat =>
                  entry_of g_config 3 0 1
                    (elem_addr (PIV_BASE g_config) (Z.of_nat t)
                               (SIZE_KEY g_config)))
                 <$> seq 0 n))
          "PVT")
  /\ length (tile_at uniq_coords c <$> seq 0 n)
     = Nat.div (length uniq_coords + c - 1) c
  /\ (forall t, (t < n)%nat ->
        (1 <= length (tile_at uniq_coords c t) <= c)%nat
        /\ ((S t < n)%nat -> length (tile_at uniq_coords c t) = c)).
Proof.
  intros HU Hts c n.
  split; [now apply create_tiles_and_pivots_trace|].
  split; [now rewrite length_fmap, length_seq|].
  intros t Ht. apply tile_at_length; [|done].
  destruct (decide (0 < c)%nat); [done|].
  subst n. replace c with 0%nat in Ht by lia.
  unfold tile_count in Ht. simpl in Ht. lia.
Qed.

End ExactTilesTheorem.

Lemma create_tiles_and_pivots_exact_witness :
  Z.of_nat (length scenario_unique) <= INT_MAX /\ 1 <= INT_MAX
  /\ create_tiles_and_pivots example_config scenario_unique 1 initial_globals
     = Ok (mkTiles [[mkIndexed (mkCoord 0 0 0) 0];
                    [mkIndexed (mkCoord 1 0 0) 1]]
                   [mkIndexed (mkCoord 0 0 0) 0;
                    mkIndexed (mkCoord 1 0 0) 1])
          (mkGlobals [mkEntry 3 0 1 4 1342177280;
                      mkEntry 3 0 1 4 1342177284] "PVT").
Proof.
  split; [unfold INT_MAX; simpl; lia|]. split; [unfold INT_MAX; lia|].
  apply (create_tiles_and_pivots_exact example_config scenario_unique 1
           initial_globals); unfold INT_MAX; simpl; lia.
Defined.

(** ** Queries, slot by slot *)

(** X8. [build_coordinate_queries] never throws and records no access,
    whatever the phase on entry; it leaves the phase QRY and does not look
    at the stride.  Each of the four vectors has [U * K] elements, and slot
    [q] is filled from the unique coordinate [q mod U] and the offset
    [q / U]: no slot keeps the value it had after the resize. *)
Theorem build_coordinate_queries_slots (uniq_coords : list IndexedCoord)
    (stride : Z) (off_coords : list Coord3D) (g : Globals) :
  exists r,
    build_coordinate_queries uniq_coords stride off_coords g
    = Ok r (mkGlobals (mem_trace g) "QRY")
    /\ (forall stride',
          build_coordinate_queries uniq_coords stride' off_coords g
          = Ok r (mkGlobals (mem_trace g) "QRY"))
    /\ sized r (length uniq_coords * length off_coords)
    /\ forall q : nat,
         (q < length uniq_coords * length off_coords)%nat ->
         exists off ic,
           off_coords !! (q / length uniq_coords)%nat = Some off
           /\ uniq_coords !! (q mod length uniq_coords)%nat = Some ic
           /\ query_at r q
              = Some (mkIndexed (coord_add (coord ic) off) (orig_idx ic),
                      to_int (Z.of_nat (q mod length uniq_coords)),
                      to_int (Z.of_nat (q / length uniq_coords)),
                      off).
Proof.
  destruct (build_coordinate_queries_run uniq_coords stride off_coords g)
    as (r & E & Hsized & Hq).
  exists r. split; [exact E|]. split; [intros stride'; exact E|].
  split; [exact Hsized|]. intros q Hlt.
  assert (0 < length uniq_coords)%nat as HU by lia.
  pose proof (Nat.div_mod_eq q (length uniq_coords)) as Hdm.
  pose proof (Nat.mod_upper_bound q (length uniq_coords) ltac:(lia)) as Hmod.
  assert (q / length uniq_coords < length off_coords)%nat as Ho.
  { apply Nat.Div0.div_lt_upper_bound. lia. }
  destruct (lookup_lt_is_Some_2 off_coords _ Ho) as [off Hoff].
  destruct (lookup_lt_is_Some_2 uniq_coords _ Hmod) as [ic Hic].
  exists off, ic. split; [done|]. split; [done|].
  specialize (Hq _ _ off ic Hoff Hic).
  replace (q / length uniq_coords * length uniq_coords
           + q mod length uniq_coords)%nat with q in Hq by lia.
  exact Hq.
Qed.

(** ** The unique coordinates as coordinates *)

(** X9. With a positive thread count, and when every quantized input
    coordinate is within the bit budget of the key, the coordinates
    [compute_unique_sorted_coords] returns are exactly the quantized input
    coordinates, each once, and the coordinate of an entry is the quantized
    input coordinate at its [orig_idx]. *)
Theorem unique_coords_quantized (g_config : Config)
    (in_coords : list Coord3D) (stride : Z) (g : Globals) :
  0 < NUM_THREADS g_config ->
  Z.of_nat (length in_coords) <= INT_MAX + 1 ->
  (forall c, c ∈ in_coords -> representable (quantized c stride)) ->
  exists out g',
    compute_unique_sorted_coords g_config in_coords stride g = Ok out g'
    /\ (forall c', c' ∈ coord <$> out
                   <-> c' ∈ (fun c => quantized c stride) <$> in_coords)
    /\ NoDup (coord <$> out)
    /\ forall ic, ic ∈ out ->
         exists (i : nat) (c : Coord3D),
           orig_idx ic = Z.of_nat i /\ in_coords !! i = Some c
           /\ coord ic = quantized c stride.
Proof.
  intros Hth Hlen Hrep.
  destruct (unique_sorted_coords_shape g_config in_coords stride g
              ltac:(lia))
    as (g' & E & _ & Hsel & Hkeys).
  set (pairs := idx_keys_pairs in_coords stride) in *.
  set (sel := select_sorted (stable_sort pairs)) in *.
  assert (forall p, p ∈ sel ->
            exists (i : nat) (c : Coord3D),
              p.2 = Z.of_nat i /\ in_coords !! i = Some c
              /\ p.1 = key_of stride c
              /\ coord (to_indexed p) = quantized c stride) as Horigin.
  { intros p Hp. destruct (Hsel p Hp) as (Hin & _ & _).
    unfold pairs, idx_keys_pairs in Hin.
    apply elem_of_lookup_imap in Hin as (j & c & -> & Hj).
    apply lookup_lt_Some in Hj as Hlt.
    exists j, c. simpl. split; [|split; [done|split; [done|]]].
    - apply to_int_small. unfold INT_MAX in *. lia.
    - apply from_key_to_key, Hrep. eapply list_elem_of_lookup_2, Hj. }
  exists (to_indexed <$> sel), g'. split; [exact E|]. split; [|split].
  - intros c'. split.
    + intros Hc. apply list_elem_of_fmap in Hc as (ic & -> & Hic).
      apply list_elem_of_fmap in Hic as (p & -> & Hp).
      destruct (Horigin p Hp) as (i & c & _ & Hi & _ & Hcoord).
      rewrite Hcoord. apply list_elem_of_fmap. exists c. split; [done|].
      eapply list_elem_of_lookup_2, Hi.
    + intros Hc. apply list_elem_of_fmap in Hc as (c & -> & Hc).
      assert (key_of stride c ∈ sel.*1) as Hk.
      { unfold sel. apply select_sorted_keys.
        rewrite (stable_sort_perm pairs). unfold pairs.
        rewrite idx_keys_pairs_keys. apply list_elem_of_fmap. eauto. }
      apply list_elem_of_fmap in Hk as (p & Hpk & Hp).
      destruct (Horigin p Hp) as (i & c0 & _ & Hi & Hkey & Hcoord).
      apply list_elem_of_fmap. exists (to_indexed p). split.
      * rewrite Hcoord. apply to_key_inj.
        -- apply Hrep, Hc.
        -- apply Hrep. eapply list_elem_of_lookup_2, Hi.
        -- unfold key_of in *. congruence.
      * apply list_elem_of_fmap. eauto.
  - apply (NoDup_fmap_1 to_key). rewrite <- list_fmap_compose.
    change (to_key ∘ coord) with ic_to_key. rewrite Hkeys.
    apply strictly_sorted_NoDup, select_sorted_sorted.
    apply stable_sort_stably_sorted.
  - intros ic Hic. apply list_elem_of_fmap in Hic as (p & -> & Hp).
    destruct (Horigin p Hp) as (i & c & Hi & Hl & _ & Hcoord).
    exists i, c. done.
Qed.

Lemma unique_coords_quantized_witness :
  0 < NUM_THREADS example_config
  /\ Z.of_nat (length scenario_coords) <= INT_MAX + 1
  /\ (forall c, c ∈ scenario_coords -> representable (quantized c 1))
  /\ exists out g',
       compute_unique_sorted_coords example_config scenario_coords 1
         initial_globals = Ok out g'
       /\ NoDup (coord <$> out).
Proof.
  assert (forall c, c ∈ scenario_coords -> representable (quantized c 1))
    as Hrep.
  { intros c Hc. unfold scenario_coords in Hc.
    repeat (apply elem_of_cons in Hc as [->|Hc];
            [vm_compute; repeat split; (discriminate || reflexivity)|]).
    by apply elem_of_nil in Hc. }
  split; [reflexivity|].
  split; [unfold INT_MAX; simpl; lia|]. split; [exact Hrep|].
  destruct (unique_coords_quantized example_config scenario_coords 1
              initial_globals eq_refl ltac:(unfold INT_MAX; simpl; lia)
              Hrep)
    as (out & g' & E & _ & Hnd & _).
  exists out, g'. split; [exact E|exact Hnd].
Defined.

(** ** The kernel map, list by list *)

Section MatchLists.

Context (qry_keys_v : list IndexedCoord) (qry_off_idx_v : list Z)
        (tiles_v : list (list IndexedCoord)) (pivs : list IndexedCoord).

Local Abbreviation matches :=
  (apply_matches qry_keys_v qry_off_idx_v tiles_v pivs).
Local Abbreviation qmatch :=
  (query_match qry_keys_v qry_off_idx_v tiles_v pivs).
Local Abbreviation mfor :=
  (matches_for qry_keys_v qry_off_idx_v tiles_v pivs).

Lemma matches_for_cons (o : Z) (q : nat) (log : list nat) :
  mfor o (q :: log)
  = match qmatch q with
    | Some (o', p) => if decide (o' = o) then p :: mfor o log else mfor o log
    | None => mfor o log
    end.
Proof.
  unfold matches_for. cbn [omap list_omap].
  destruct (qmatch q) as [[o' p]|]; [|done]. now destruct (decide _).
Qed.

Lemma apply_matches_cons (q : nat) (log : list nat)
    (m : gmap Z (list (Z * Z))) :
  matches (q :: log) m
  = matches log (apply_match qry_keys_v qry_off_idx_v tiles_v pivs m q).
Proof. reflexivity. Qed.

(** The list of an offset index after a run of queries. *)
Lemma apply_matches_lookup (log : list nat) :
  forall (m : gmap Z (list (Z * Z))) (o : Z),
    matches log m !!! o = m !!! o ++ mfor o log.
Proof.
  induction log as [|q log IH]; intros m o.
  - unfold matches_for. simpl. now rewrite app_nil_r.
  - rewrite apply_matches_cons, IH, matches_for_cons. unfold apply_match.
    destruct (qmatch q) as [[o' p]|]; [|done].
    rewrite kmap_append_lookup.
    destruct (decide (o' = o)) as [->|]; [|done].
    now rewrite <- app_assoc.
Qed.

(** The offset indices of the kernel map after a run of queries. *)
Lemma apply_matches_dom (log : list nat) :
  forall (m : gmap Z (list (Z * Z))) (o : Z),
    is_Some (matches log m !! o) <-> is_Some (m !! o) \/ mfor o log ≠ [].
Proof.
  induction log as [|q log IH]; intros m o.
  - unfold matches_for. simpl. split; [auto|intros [?|?]; [done|congruence]].
  - rewrite apply_matches_cons, IH, matches_for_cons. unfold apply_match.
    destruct (qmatch q) as [[o' p]|]; [|done].
    unfold kmap_append.
    destruct (decide (o' = o)) as [->|Hne].
    + rewrite lookup_insert_eq. split; [intros _; right; done|].
      intros _. left. by eexists.
    + now rewrite lookup_insert_ne.
Qed.

(** The number of pairs of the kernel map after a run of queries. *)
Lemma total_matches_apply_eq (log : list nat) :
  forall m : gmap Z (list (Z * Z)),
    total_matches (matches log m)
    = (total_matches m + length (omap qmatch log))%nat.
Proof.
  induction log as [|q log IH]; intros m.
  - simpl. lia.
  - rewrite apply_matches_cons, IH. unfold apply_match. cbn [omap list_omap].
    destruct (qmatch q) as [[o p]|]; [|done].
    rewrite total_matches_append. simpl. lia.
Qed.

End MatchLists.

(** ** The lookup as a whole *)

Section LookupTheorems.

Context (g_config : Config).
Context (uniq_coords : list IndexedCoord) (qry_keys_v : list IndexedCoord)
        (qry_off_idx_v : list Z)
        (tiles_v : list (list IndexedCoord)) (pivs : list IndexedCoord)
        (tile_size_param : Z).

Local Abbreviation lookup :=
  (perform_coordinate_lookup g_config uniq_coords qry_keys_v qry_off_idx_v
     tiles_v pivs tile_size_param).
Local Abbreviation mfor :=
  (matches_for qry_keys_v qry_off_idx_v tiles_v pivs).

Lemma lookup_early_return (scheds : nat -> list nat) (g : Globals) :
  uniq_coords = [] \/ qry_keys_v = [] ->
  lookup scheds g = Ok ∅ (mkGlobals (mem_trace g) "LKP").
Proof.
  intros Hempty. unfold perform_coordinate_lookup.
  rewrite (bind_ok _ _ g "LKP"%string g) by reflexivity.
  rewrite (bind_ok _ _ g tt (mkGlobals (mem_trace g) "LKP")) by reflexivity.
  now rewrite decide_True.
Qed.

(** What the lookup returns, for every interleaving: the list of every
    offset index holds the matches of all queries, in some order. *)
Lemma lookup_lists (scheds : nat -> list nat) (g : Globals) :
  (0 < Z.to_nat (to_u32 (NUM_THREADS g_config)))%nat ->
  exists kmap g' log,
    lookup scheds g = Ok kmap g'
    /\ log ≡ₚ (if decide (uniq_coords = []) then []
               else seq 0 (length qry_keys_v))
    /\ (forall o, kmap !!! o = mfor o log)
    /\ (forall o, is_Some (kmap !! o) <-> mfor o log ≠ [])
    /\ total_matches kmap
       = length (omap (query_match qry_keys_v qry_off_idx_v tiles_v pivs)
                      log).
Proof.
  intros Hth.
  assert (forall log,
            (forall o, apply_matches qry_keys_v qry_off_idx_v tiles_v pivs
                         log ∅ !!! o = mfor o log)
            /\ (forall o, is_Some (apply_matches qry_keys_v qry_off_idx_v
                                     tiles_v pivs log ∅ !! o)
                          <-> mfor o log ≠ [])
            /\ total_matches (apply_matches qry_keys_v qry_off_idx_v tiles_v
                                pivs log ∅)
               = length (omap (query_match qry_keys_v qry_off_idx_v tiles_v
                                 pivs) log)) as Hfacts.
  { intros log. split; [|split].
    - intros o. now rewrite apply_matches_lookup, lookup_total_empty.
    - intros o. rewrite apply_matches_dom, lookup_empty.
      split; [intros [[? ?]|?]; done|auto].
    - now rewrite total_matches_apply_eq, total_matches_empty. }
  destruct (decide (uniq_coords = [])) as [Hu|Hu].
  - exists ∅, (mkGlobals (mem_trace g) "LKP"), [].
    split; [apply lookup_early_return; auto|]. split; [done|].
    apply (Hfacts []).
  - destruct (perform_coordinate_lookup_run g_config uniq_coords qry_keys_v
                qry_off_idx_v tiles_v pivs tile_size_param Hth scheds g)
      as (kmap & g' & log & E & Hk & _ & _ & Hperm).
    exists kmap, g', log. split; [exact E|]. split; [auto|].
    rewrite Hk. apply Hfacts.
Qed.

(** X10. The kernel map does not depend on how the worker threads of the
    lookup interleave, except for the order within each list: two runs of
    [perform_coordinate_lookup] on the same arguments, under any two
    interleavings, return maps with the same offset indices, with lists
    that are permutations of each other, and with the same number of
    pairs. *)
Theorem lookup_schedule_independent (scheds1 scheds2 : nat -> list nat)
    (g1 g2 : Globals) :
  0 < to_u32 (NUM_THREADS g_config) ->
  exists k1 k2 g1' g2',
    lookup scheds1 g1 = Ok k1 g1'
    /\ lookup scheds2 g2 = Ok k2 g2'
    /\ (forall o, is_Some (k1 !! o) <-> is_Some (k2 !! o))
    /\ (forall o, k1 !!! o ≡ₚ k2 !!! o)
    /\ total_matches k1 = total_matches k2.
Proof.
  intros Hth.
  assert (0 < Z.to_nat (to_u32 (NUM_THREADS g_config)))%nat as Hth' by lia.
  destruct (lookup_lists scheds1 g1 Hth')
    as (k1 & g1' & log1 & E1 & Hp1 & Hl1 & Hd1 & Ht1).
  destruct (lookup_lists scheds2 g2 Hth')
    as (k2 & g2' & log2 & E2 & Hp2 & Hl2 & Hd2 & Ht2).
  assert (log1 ≡ₚ log2) as Hperm by (now rewrite Hp1, Hp2).
  assert (forall o, mfor o log1 ≡ₚ mfor o log2) as Hmfor.
  { intros o. unfold matches_for. now rewrite Hperm. }
  exists k1, k2, g1', g2'. split; [exact E1|]. split; [exact E2|].
  split; [|split].
  - intros o. rewrite Hd1, Hd2. specialize (Hmfor o).
    split; intros Hne Hnil; apply Hne.
    + rewrite Hnil in Hmfor. now apply Permutation_nil_r in Hmfor.
    + rewrite Hnil in Hmfor. now apply Permutation_nil_l in Hmfor.
  - intros o. rewrite Hl1, Hl2. apply Hmfor.
  - rewrite Ht1, Ht2. now rewrite Hperm.
Qed.

(** X11. When there is no unique coordinate or no query,
    [perform_coordinate_lookup] returns the empty map at once: nothing is
    recorded and the phase stays LKP.  Otherwise, for every interleaving,
    it returns with the phase cleared, so that a [record_access] made after
    it, before another phase starts, throws. *)
Theorem lookup_phase_tag (scheds : nat -> list nat) (g : Globals) :
  0 < to_u32 (NUM_THREADS g_config) ->
  exists kmap g',
    lookup scheds g = Ok kmap g'
    /\ (uniq_coords = [] \/ qry_keys_v = [] ->
        kmap = ∅ /\ g' = mkGlobals (mem_trace g) "LKP")
    /\ (uniq_coords ≠ [] -> qry_keys_v ≠ [] ->
        curr_phase g' = ""%string
        /\ forall tid op_str a,
             record_access g_config tid op_str a g' = Throw OutOfRange g').
Proof.
  intros Hth.
  assert (0 < Z.to_nat (to_u32 (NUM_THREADS g_config)))%nat as Hth' by lia.
  destruct (decide (uniq_coords = [] \/ qry_keys_v = [])) as [Hempty|Hne].
  - exists ∅, (mkGlobals (mem_trace g) "LKP").
    split; [now apply lookup_early_return|]. split; [done|].
    intros Hu Hq. destruct Hempty; done.
  - unfold perform_coordinate_lookup.
    rewrite (bind_ok _ _ g "LKP"%string g) by reflexivity.
    rewrite (bind_ok _ _ g tt (mkGlobals (mem_trace g) "LKP"))
      by reflexivity.
    rewrite decide_False by done.
    assert (phase_ok (mkGlobals (mem_trace g) "LKP")) as Hg by (now eexists).
    destruct (run_batches_inv g_config uniq_coords qry_keys_v qry_off_idx_v
                tiles_v pivs tile_size_param Hth' scheds
                ((length qry_keys_v + BATCH_SIZE - 1) / BATCH_SIZE) 0
                (mkKm ∅ 0) _ Hg)
      as (k' & g' & log & E & _ & _ & _).
    rewrite (bind_ok _ _ _ _ _ E).
    exists (km_map k'), (mkGlobals (mem_trace g') "").
    split; [reflexivity|]. split; [intros He; done|].
    intros _ _. split; [reflexivity|]. intros tid op_str a. reflexivity.
Qed.

End LookupTheorems.

Lemma lookup_schedule_independent_witness :
  0 < to_u32 (NUM_THREADS example_config)
  /\ exists k1 k2 g1' g2',
       perform_coordinate_lookup example_config [lone_pivot] [lone_pivot]
         [0] [[lone_pivot]] [lone_pivot] 1 sequential lkp_globals
       = Ok k1 g1'
       /\ perform_coordinate_lookup example_config [lone_pivot] [lone_pivot]
            [0] [[lone_pivot]] [lone_pivot] 1 (fun _ => [0; 0]%nat)
            initial_globals
          = Ok k2 g2'
       /\ (forall o, k1 !!! o ≡ₚ k2 !!! o).
Proof.
  split; [reflexivity|].
  destruct (lookup_schedule_independent example_config [lone_pivot]
              [lone_pivot] [0] [[lone_pivot]] [lone_pivot] 1 sequential
              (fun _ => [0; 0]%nat) lkp_globals initial_globals eq_refl)
    as (k1 & k2 & g1' & g2' & E1 & E2 & _ & Hl & _).
  exists k1, k2, g1', g2'. split; [exact E1|]. split; [exact E2|exact Hl].
Defined.

Lemma lookup_phase_tag_witness :
  0 < to_u32 (NUM_THREADS example_config)
  /\ exists kmap g',
       perform_coordinate_lookup example_config [] [lone_pivot] [0] [] [] 1
         sequential initial_globals = Ok kmap g'
       /\ kmap = ∅ /\ g' = mkGlobals [] "LKP".
Proof.
  split; [reflexivity|].
  destruct (lookup_phase_tag example_config [] [lone_pivot] [0] [] [] 1
              sequential initial_globals eq_refl)
    as (kmap & g' & E & Hempty & _).
  exists kmap, g'. split; [exact E|]. apply Hempty. now left.
Defined.

(** ** Completeness of the lookup *)

Lemma sorted_fmap_inv {A} (f : A -> Z) (l : list A) :
  StronglySorted Z.lt (f <$> l) -> StronglySorted (fun x y => f x < f y) l.
Proof.
  induction l as [|x l IH]; intros Hs; [constructor|].
  rewrite fmap_cons in Hs. apply StronglySorted_inv in Hs as [Hs Hx].
  constructor; [now apply IH|].
  apply Forall_forall. intros y Hy. rewrite Forall_forall in Hx.
  apply Hx, list_elem_of_fmap. eauto.
Qed.

Lemma sorted_join_within {A} (R : relation A) (ls : list (list A)) a :
  StronglySorted R (mjoin ls) -> a ∈ ls -> StronglySorted R a.
Proof.
  induction ls as [|l ls IH]; intros Hs Ha; [by apply elem_of_nil in Ha|].
  rewrite join_cons_app in Hs. apply StronglySorted_app in Hs as (_ & Hl & Hr).
  apply elem_of_cons in Ha as [->|Ha]; [done|]. now apply IH.
Qed.

Lemma sorted_join_between {A} (R : relation A) (ls : list (list A)) :
  StronglySorted R (mjoin ls) ->
  forall (j j' : nat) a b x y,
    (j < j')%nat -> ls !! j = Some a -> ls !! j' = Some b ->
    x ∈ a -> y ∈ b -> R x y.
Proof.
  induction ls as [|l ls IH]; intros Hs j j' a b x y Hlt Ha Hb Hx Hy;
    [done|].
  rewrite join_cons_app in Hs.
  destruct j' as [|j']; [lia|]. simpl in Hb.
  destruct j as [|j]; simpl in Ha.
  - injection Ha as ->.
    apply (StronglySorted_app_1_elem_of R _ (mjoin ls) x y Hs Hx).
    apply list_elem_of_join. exists b. split; [done|].
    eapply list_elem_of_lookup_2, Hb.
  - apply StronglySorted_app_1_r in Hs.
    apply (IH Hs j j' a b x y); [lia|done..].
Qed.

Lemma sorted_key_inj (l : list IndexedCoord) (x y : IndexedCoord) :
  StronglySorted Z.lt (ic_to_key <$> l) -> x ∈ l -> y ∈ l ->
  ic_to_key x = ic_to_key y -> x = y.
Proof.
  intros Hs Hx Hy Hk. apply strictly_sorted_NoDup in Hs.
  apply list_elem_of_lookup_1 in Hx as [i Hi].
  apply list_elem_of_lookup_1 in Hy as [j Hj].
  assert (i = j) as ->.
  { apply (NoDup_lookup _ i j (ic_to_key x) Hs).
    - now rewrite list_lookup_fmap, Hi.
    - now rewrite list_lookup_fmap, Hj, Hk. }
  congruence.
Qed.

Lemma tile_match_found (k : Z) (tile : list IndexedCoord) (ic : IndexedCoord) :
  ic ∈ tile -> ic_to_key ic = k ->
  (forall ic', ic' ∈ tile -> ic_to_key ic' = k -> ic' = ic) ->
  tile_match k tile = Some (orig_idx ic).
Proof.
  induction tile as [|x tile IH]; intros Hin Hk Huniq;
    [by apply elem_of_nil in Hin|].
  simpl. destruct (decide (ic_to_key x = k)) as [Hx|Hx].
  - rewrite (Huniq x); [done|left|done].
  - apply elem_of_cons in Hin as [->|Hin]; [done|].
    apply IH; [done|done|]. intros ic' Hic'. apply Huniq. now right.
Qed.

Lemma to_key_add_masked (c off : Coord3D) :
  to_key (coord_add (from_key (to_key c)) off) = to_key (coord_add c off).
Proof.
  pose proof (to_key_of_key c) as E.
  pose proof (from_key_representable (to_key c)) as (Hx & Hy & Hz).
  set (c' := from_key (to_key c)) in *.
  rewrite !to_key_arith in *. unfold coord_add. cbn [cx cy cz].
  unfold fits_axis, AXIS_BITS in *.
  pose proof (Z.mod_pos_bound (cx c) 1024 ltac:(lia)).
  pose proof (Z.mod_pos_bound (cy c) 1024 ltac:(lia)).
  pose proof (Z.mod_pos_bound (cz c) 1024 ltac:(lia)).
  pose proof (Z.mod_pos_bound (cx c') 1024 ltac:(lia)).
  pose proof (Z.mod_pos_bound (cy c') 1024 ltac:(lia)).
  pose proof (Z.mod_pos_bound (cz c') 1024 ltac:(lia)).
  assert (cx c' mod 1024 = cx c mod 1024) as Ex by lia.
  assert (cy c' mod 1024 = cy c mod 1024) as Ey by lia.
  assert (cz c' mod 1024 = cz c mod 1024) as Ez by lia.
  rewrite (Zplus_mod (cx c')), (Zplus_mod (cy c')), (Zplus_mod (cz c')).
  rewrite Ex, Ey, Ez. now rewrite <- !Zplus_mod.
Qed.

Section MatchComplete.

Context (qry_keys_v : list IndexedCoord) (qry_off_idx_v : list Z)
        (tiles_v : list (list IndexedCoord)) (pivs : list IndexedCoord).

(** With aligned tiles over strictly ascending keys, a query whose key is
    the key of an element has that element as its match. *)
Lemma query_match_complete (q : nat) (ic : IndexedCoord) :
  pivots_aligned tiles_v pivs ->
  StronglySorted Z.lt (ic_to_key <$> mjoin tiles_v) ->
  Z.of_nat (length pivs) <= INT_MAX ->
  (q < length qry_keys_v)%nat ->
  ic ∈ mjoin tiles_v ->
  ic_to_key ic = ic_to_key (qry_keys_v !!! q) ->
  query_match qry_keys_v qry_off_idx_v tiles_v pivs q
  = Some (qry_off_idx_v !!! q, (orig_idx ic, orig_idx (qry_keys_v !!! q))).
Proof.
  intros Hal Hsorted Hlen Hq Hic Hkey.
  set (k := ic_to_key (qry_keys_v !!! q)) in *.
  pose proof (sorted_fmap_inv _ _ Hsorted) as Hs.
  apply list_elem_of_join in Hic as (tile & Hic & Htile).
  apply list_elem_of_lookup_1 in Htile as [j Hj].
  destruct (Forall2_lookup_l _ _ _ _ _ Hal Hj) as (p & Hp & Hhead).
  assert (pivs ≠ []) as Hne by (intros ->; done).
  apply lookup_lt_Some in Hp as Hjlt.
  assert (ic_to_key p <= k) as Hpk.
  { destruct tile as [|x rest]; [done|]. simpl in Hhead.
    injection Hhead as ->.
    apply elem_of_cons in Hic as [->|Hic]; [lia|].
    assert (StronglySorted (fun x y => ic_to_key x < ic_to_key y) (p :: rest))
      as Ht.
    { eapply sorted_join_within; [exact Hs|].
      eapply list_elem_of_lookup_2, Hj. }
    apply StronglySorted_inv in Ht as [_ Hall].
    rewrite Forall_forall in Hall. specialize (Hall ic Hic). lia. }
  assert (StronglySorted Z.le (ic_to_key <$> pivs)) as Hpsorted.
  { eapply sorted_sublist; [|exact Hsorted].
    apply fmap_sublist, aligned_sublist, Hal. }
  destruct (tile_id_selects pivs Hpsorted k Hne Hlen) as (Hrange & Hsel & _).
  destruct Hsel as [Ht1 Ht2].
  { exists p. split; [|done]. eapply list_elem_of_lookup_2, Hp. }
  set (t := tile_id pivs k) in *.
  assert (t = Z.of_nat j) as Ht.
  { destruct (Z.lt_trichotomy t (Z.of_nat j)) as [Hlt|[Heq|Hgt]]; [|done|].
    - specialize (Ht2 (Z.of_nat j) ltac:(lia)).
      rewrite Nat2Z.id, (list_lookup_total_correct _ _ _ Hp) in Ht2. lia.
    - destruct (lookup_lt_is_Some_2 pivs (Z.to_nat t) ltac:(lia))
        as [pt Hpt].
      rewrite (list_lookup_total_correct _ _ _ Hpt) in Ht1.
      destruct (Forall2_lookup_r _ _ _ _ _ Hal Hpt) as (tile' & Ht' & Hh').
      assert (pt ∈ tile') as Hin'.
      { destruct tile'; [done|]. simpl in Hh'. injection Hh' as ->. left. }
      pose proof (sorted_join_between _ _ Hs j (Z.to_nat t) tile tile' ic pt
                    ltac:(lia) Hj Ht' Hic Hin') as Hlt.
      simpl in Hlt. lia. }
  unfold query_match. rewrite decide_False by lia.
  fold k. fold t. rewrite Ht.
  apply Forall2_length in Hal as Hlens.
  rewrite to_int_small by (unfold INT_MAX in *; lia).
  rewrite decide_True by lia.
  rewrite Nat2Z.id, (list_lookup_total_correct _ _ _ Hj).
  rewrite (tile_match_found k tile ic Hic Hkey); [done|].
  intros ic' Hic' Hk'. apply (sorted_key_inj (mjoin tiles_v)); [done| | |lia].
  - apply list_elem_of_join. exists tile. split; [done|].
    eapply list_elem_of_lookup_2, Hj.
  - apply list_elem_of_join. exists tile. split; [done|].
    eapply list_elem_of_lookup_2, Hj.
Qed.

End MatchComplete.

Section PipelineComplete.

Context (g_config : Config).

(** What the lookup needs to know of the unique coordinates. *)
Lemma rdx_facts (in_coords : list Coord3D) (stride : Z) (g : Globals) :
  NUM_THREADS g_config <> 0 ->
  Z.of_nat (length in_coords) <= INT_MAX + 1 ->
  exists uc g',
    compute_unique_sorted_coords g_config in_coords stride g = Ok uc g'
    /\ (length uc <= length in_coords)%nat
    /\ StronglySorted Z.lt (ic_to_key <$> uc)
    /\ (forall c, c ∈ in_coords -> key_of stride c ∈ ic_to_key <$> uc)
    /\ forall ic, ic ∈ uc ->
         coord ic = from_key (ic_to_key ic)
         /\ exists a : nat,
              orig_idx ic = Z.of_nat a
              /\ least_index stride in_coords (ic_to_key ic) a.
Proof.
  intros Hnz Hlen.
  destruct (unique_sorted_coords_shape g_config in_coords stride g Hnz)
    as (g' & E & _ & Hsel & Hkeys).
  set (pairs := idx_keys_pairs in_coords stride) in *.
  set (sel := select_sorted (stable_sort pairs)) in *.
  exists (to_indexed <$> sel), g'. split; [exact E|].
  split; [|split; [|split]].
  - rewrite length_fmap.
    pose proof (select_sorted_length (stable_sort pairs)) as Hl.
    unfold pairs in Hl.
    now rewrite stable_sort_length, idx_keys_pairs_length in Hl.
  - rewrite Hkeys. apply select_sorted_sorted, stable_sort_stably_sorted.
  - intros c Hc. rewrite Hkeys. unfold sel. apply select_sorted_keys.
    rewrite (stable_sort_perm pairs). unfold pairs.
    rewrite idx_keys_pairs_keys. apply list_elem_of_fmap. eauto.
  - intros ic Hic. apply list_elem_of_fmap in Hic as (p & -> & Hp).
    destruct (Hsel p Hp) as (_ & Hf & Hk). rewrite Hk.
    split; [reflexivity|].
    unfold first_with_key, pairs, idx_keys_pairs in Hf.
    apply head_filter_imap in Hf as (i & c & Hi & -> & Hkc & Hmin).
    simpl in *. exists i.
    apply lookup_lt_Some in Hi as Hlt.
    split; [apply to_int_small; unfold INT_MAX in *; lia|].
    split; [exists c; done|].
    intros j c' Hj Hk'. now apply (Hmin j c').
Qed.

(** X12. The pipeline finds every neighbour, whatever the interleaving of
    the lookup workers: whenever the packed key of a quantized input
    coordinate is the packed key of another quantized input coordinate
    shifted by the offset of index [o], the list of [o] in the kernel map
    holds the pair made of the least input index carrying the first key and
    the least input index carrying the second.  Sizes are within the range
    of [int]. *)
Theorem lookup_complete (in_coords : list Coord3D) (stride : Z)
    (off_coords : list Coord3D) (tile_size : Z) (scheds : nat -> list nat)
    (g : Globals) :
  0 < to_u32 (NUM_THREADS g_config) ->
  Z.of_nat (length in_coords) <= INT_MAX ->
  Z.of_nat (length off_coords) <= INT_MAX ->
  tile_size <= INT_MAX ->
  exists uc Q T kmap g',
    run_pipeline g_config in_coords stride off_coords tile_size scheds g
    = Ok (uc, Q, T, kmap) g'
    /\ forall (i s oi : nat) ci cs off,
         in_coords !! i = Some ci -> in_coords !! s = Some cs ->
         off_coords !! oi = Some off ->
         key_of stride ci = to_key (coord_add (quantized cs stride) off) ->
         exists a b : nat,
           (Z.of_nat a, Z.of_nat b) ∈ kmap !!! Z.of_nat oi
           /\ least_index stride in_coords (key_of stride ci) a
           /\ least_index stride in_coords (key_of stride cs) b.
Proof.
  intros Hth Hin Hoff Hts.
  destruct (rdx_facts in_coords stride g (threads_nonzero g_config Hth)
              ltac:(lia))
    as (uc & g1 & E1 & Hlen & Hsorted & Hkeys & Huc).
  destruct (build_coordinate_queries_run uc stride off_coords g1)
    as (Q & E2 & HQ & Hq).
  destruct (create_tiles_and_pivots_run g_config uc tile_size
              (mkGlobals (mem_trace g1) "QRY") ltac:(lia) Hts)
    as (T & tr & E3 & Hcat & Hal & _).
  assert (0 < Z.to_nat (to_u32 (NUM_THREADS g_config)))%nat as Hth' by lia.
  destruct (perform_coordinate_lookup_run g_config uc (qry_keys Q)
              (qry_off_idx Q) (tiles T) (pivots T) tile_size Hth' scheds
              (mkGlobals (mem_trace (mkGlobals (mem_trace g1) "QRY") ++ tr)
                         "PVT"))
    as (kmap & g' & log & E4 & Hkmap & _ & _ & Hperm).
  exists uc, Q, T, kmap, g'. split.
  { unfold run_pipeline.
    rewrite (bind_ok _ _ _ _ _ E1), (bind_ok _ _ _ _ _ E2).
    rewrite (bind_ok _ _ _ _ _ E3), (bind_ok _ _ _ _ _ E4). reflexivity. }
  intros i s oi ci cs off Hi Hs Ho Hnb.
  assert (exists ici, ici ∈ uc /\ ic_to_key ici = key_of stride ci)
    as (ici & Hici & Hkici).
  { specialize (Hkeys ci (list_elem_of_lookup_2 _ _ _ Hi)).
    apply list_elem_of_fmap in Hkeys as (ici & ? & ?). eauto. }
  assert (exists js ics, uc !! js = Some ics
                         /\ ic_to_key ics = key_of stride cs)
    as (js & ics & Hjs & Hkics).
  { specialize (Hkeys cs (list_elem_of_lookup_2 _ _ _ Hs)).
    apply list_elem_of_fmap in Hkeys as (ics & ? & Hics).
    apply list_elem_of_lookup_1 in Hics as [js Hjs]. eauto. }
  pose proof (list_elem_of_lookup_2 _ _ _ Hjs) as Hics.
  destruct (Huc ici Hici) as (_ & a & Ha & Hleast_a).
  destruct (Huc ics Hics) as (Hcoord & b & Hb & Hleast_b).
  exists a, b. rewrite Hkici in Hleast_a. rewrite Hkics in Hleast_b.
  split; [|done].
  set (q := (oi * length uc + js)%nat).
  apply lookup_lt_Some in Hjs as Hjslt. apply lookup_lt_Some in Ho as Holt.
  assert (q < length uc * length off_coords)%nat as Hqlt by (unfold q; nia).
  specialize (Hq oi js off ics Ho Hjs). fold q in Hq.
  unfold query_at, query_entry in Hq.
  destruct (qry_keys Q !! q) as [qk|] eqn:Eqk; [|done].
  destruct (qry_in_idx Q !! q) as [x|]; [|done].
  destruct (qry_off_idx Q !! q) as [y|] eqn:Eqo; [|done].
  destruct (wt_offsets Q !! q) as [w|]; [|done].
  simpl in Hq. injection Hq as -> -> -> ->.
  apply list_lookup_total_correct in Eqk, Eqo.
  rewrite to_int_small in Eqo by (unfold INT_MAX in *; lia).
  assert (ic_to_key ici = ic_to_key (qry_keys Q !!! q)) as Hkey.
  { rewrite Eqk, Hkici, Hnb. unfold ic_to_key at 1. cbn [coord].
    rewrite Hcoord, Hkics. unfold key_of. now rewrite to_key_add_masked. }
  assert (Z.of_nat (length (pivots T)) <= INT_MAX) as Hplen.
  { pose proof (sublist_length _ _ (aligned_sublist _ _ Hal)) as Hl.
    rewrite Hcat in Hl. lia. }
  pose proof (query_match_complete (qry_keys Q) (qry_off_idx Q) (tiles T)
                (pivots T) q ici Hal) as Hm.
  rewrite Hcat in Hm.
  specialize (Hm Hsorted Hplen ltac:(rewrite (proj1 HQ); lia) Hici Hkey).
  rewrite Eqk, Eqo in Hm. cbn [orig_idx] in Hm. rewrite Ha, Hb in Hm.
  rewrite Hkmap, apply_matches_lookup, lookup_total_empty. simpl.
  unfold matches_for. apply list_elem_of_omap. exists q. split.
  - rewrite Hperm; [apply elem_of_seq; rewrite (proj1 HQ); lia|].
    intros ->. done.
  - rewrite Hm. now rewrite decide_True.
Qed.

End PipelineComplete.

Lemma lookup_complete_witness :
  0 < to_u32 (NUM_THREADS example_config)
  /\ Z.of_nat (length scenario_coords) <= INT_MAX
  /\ Z.of_nat (length scenario_offsets) <= INT_MAX
  /\ 1 <= INT_MAX
  /\ exists uc Q T kmap g',
       run_pipeline example_config scenario_coords 1 scenario_offsets 1
                    sequential initial_globals
       = Ok (uc, Q, T, kmap) g'
       /\ exists a b : nat,
            (Z.of_nat a, Z.of_nat b) ∈ kmap !!! Z.of_nat 0
            /\ least_index 1 scenario_coords (key_of 1 (mkCoord 1 0 0)) a
            /\ least_index 1 scenario_coords (key_of 1 (mkCoord 0 0 0)) b.
Proof.
  split; [reflexivity|].
  split; [unfold INT_MAX; simpl; lia|].
  split; [unfold INT_MAX; simpl; lia|].
  split; [unfold INT_MAX; lia|].
  destruct (lookup_complete example_config scenario_coords 1
              scenario_offsets 1 sequential initial_globals eq_refl
              ltac:(unfold INT_MAX; simpl; lia)
              ltac:(unfold INT_MAX; simpl; lia)
              ltac:(unfold INT_MAX; lia))
    as (uc & Q & T & kmap & g' & E & Hall).
  exists uc, Q, T, kmap, g'. split; [exact E|].
  apply (Hall 1%nat 0%nat 0%nat (mkCoord 1 0 0) (mkCoord 0 0 0)
              (mkCoord 1 0 0)); reflexivity.
Defined.

(** ** The pivot search, probe by probe *)

Lemma record_access_local_entry (g_config : Config) (tid : Z)
    (op_str : string) (a o ph : Z) (local : list MemoryAccessEntry) g :
  forward_find PHASES (curr_phase g) = Some ph ->
  forward_find OPS op_str = Some o ->
  record_access_local g_config tid op_str a local g
  = Ok (local ++ [entry_of g_config ph tid o a]) g.
Proof.
  intros Hph Ho. unfold record_access_local.
  now rewrite (bind_ok _ _ _ _ _
                 (make_entry_entry g_config tid op_str a o ph g Hph Ho)).
Qed.

Lemma halves_below (d : Z) (k : nat) :
  0 <= d -> d + 1 < 2 ^ Z.of_nat (S k) ->
  d ÷ 2 < 2 ^ Z.of_nat k /\ d - d ÷ 2 < 2 ^ Z.of_nat k.
Proof.
  intros Hd Hlt. rewrite Z.quot_div_nonneg by lia.
  rewrite Nat2Z.inj_succ, Z.pow_succ_r in Hlt by lia.
  pose proof (Z.div_mod d 2 ltac:(lia)).
  pose proof (Z.mod_pos_bound d 2 ltac:(lia)). lia.
Qed.

Lemma pivot_search_probes (g_config : Config) (pivs : list IndexedCoord)
    (fuel : nat) (tid key : Z) (g : Globals) (ph : Z) :
  forward_find PHASES (curr_phase g) = Some ph ->
  forall (k : nat) low high target local,
    0 <= low -> high < Z.of_nat (length pivs) ->
    high - low + 1 < 2 ^ Z.of_nat k ->
    exists tr,
      pivot_search g_config pivs fuel tid key low high target local g
      = Ok (pivot_target pivs fuel key low high target, local ++ tr) g
      /\ (length tr <= k)%nat
      /\ (low <= high -> (0 < fuel)%nat -> (1 <= length tr)%nat)
      /\ Forall (fun e =>
                   exists mid : nat,
                     (mid < length pivs)%nat
                     /\ e = entry_of g_config ph tid 0
                              (elem_addr (PIV_BASE g_config) (Z.of_nat mid)
                                         (SIZE_KEY g_config)))
                tr.
Proof.
  intros Hph. induction fuel as [|fuel IH];
    intros k low high target local Hlow Hhigh Hsize.
  - exists []. simpl. rewrite app_nil_r.
    repeat split; [lia|lia|constructor].
  - cbn [pivot_search pivot_target].
    destruct (decide (low <= high)) as [Hle|Hgt].
    2:{ exists []. rewrite app_nil_r. repeat split; [simpl; lia|lia|constructor]. }
    destruct k as [|k]; [simpl in Hsize; lia|].
    destruct (halves_below (high - low) k ltac:(lia) ltac:(lia))
      as [Hh1 Hh2].
    assert (0 <= (high - low) ÷ 2 <= high - low) as Hmid.
    { rewrite Z.quot_div_nonneg by lia.
      pose proof (Z.div_mod (high - low) 2 ltac:(lia)).
      pose proof (Z.mod_pos_bound (high - low) 2 ltac:(lia)). lia. }
    set (mid := low + (high - low) ÷ 2) in *.
    rewrite (bind_ok _ _ _ _ _
               (record_access_local_entry g_config tid "R" _ 0 ph local g
                  Hph eq_refl)).
    set (e := entry_of g_config ph tid 0
                (elem_addr (PIV_BASE g_config) mid (SIZE_KEY g_config))).
    assert (exists m : nat, (m < length pivs)%nat
              /\ e = entry_of g_config ph tid 0
                       (elem_addr (PIV_BASE g_config) (Z.of_nat m)
                                  (SIZE_KEY g_config))) as He.
    { exists (Z.to_nat mid). split; [lia|]. unfold e.
      now rewrite Z2Nat.id by lia. }
    destruct (decide (ic_to_key (pivs !!! Z.to_nat mid) <= key)).
    + destruct (IH k (mid + 1) high mid (local ++ [e]) ltac:(lia) Hhigh
                  ltac:(lia)) as (tr & E & Hlen & _ & Hall).
      exists (e :: tr). rewrite E, <- app_assoc.
      repeat split; [simpl; lia|simpl; lia|now constructor].
    + destruct (IH k low (mid - 1) target (local ++ [e]) ltac:(lia)
                  ltac:(lia) ltac:(lia)) as (tr & E & Hlen & _ & Hall).
      exists (e :: tr). rewrite E, <- app_assoc.
      repeat split; [simpl; lia|simpl; lia|now constructor].
Qed.

(** X13. The pivot search of a query reads at least one and at most
    [floor(log2 P) + 1] of the [P >= 1] pivots; each read is recorded as a
    read by the worker's thread at the address of a pivot within the pivot
    array, and nothing else is recorded. *)
Theorem pivot_probes_logarithmic (g_config : Config)
    (pivs : list IndexedCoord) (tid key : Z)
    (local : list MemoryAccessEntry) (g : Globals) :
  phase_ok g -> pivs ≠ [] -> Z.of_nat (length pivs) <= INT_MAX ->
  exists tr,
    find_tile_id g_config pivs tid key local g
    = Ok (tile_id pivs key, local ++ tr) g
    /\ 1 <= Z.of_nat (length tr) <= Z.log2 (Z.of_nat (length pivs)) + 1
    /\ Forall (fun e =>
                 op e = 0 /\ thread_id e = tid mod 256
                 /\ exists mid : nat,
                      (mid < length pivs)%nat
                      /\ addr e = elem_addr (PIV_BASE g_config)
                                    (Z.of_nat mid) (SIZE_KEY g_config))
              tr.
Proof.
  intros [ph Hph] Hne Hlen.
  assert (0 < length pivs)%nat as Hpos by (destruct pivs; [done|simpl; lia]).
  pose proof (Z.log2_spec (Z.of_nat (length pivs)) ltac:(lia)) as Hlog.
  pose proof (Z.log2_nonneg (Z.of_nat (length pivs))) as Hnn.
  destruct (pivot_search_probes g_config pivs (length pivs) tid key g ph Hph
              (Z.to_nat (Z.log2 (Z.of_nat (length pivs)) + 1)) 0
              (to_int (Z.of_nat (length pivs)) - 1) 0 local ltac:(lia))
    as (tr & E & Hle & Hge & Hall).
  { rewrite to_int_small by (unfold INT_MAX in *; lia). lia. }
  { rewrite to_int_small by (unfold INT_MAX in *; lia).
    rewrite Z2Nat.id by lia. unfold Z.succ in Hlog. lia. }
  exists tr. split; [|split].
  - rewrite tile_id_nonempty by done.
    unfold find_tile_id. destruct pivs; [done|exact E].
  - rewrite to_int_small in Hge by (unfold INT_MAX in *; lia).
    specialize (Hge ltac:(lia) Hpos). lia.
  - eapply Forall_impl; [exact Hall|]. intros e (mid & Hmid & ->).
    cbn [entry_of op thread_id addr]. split; [reflexivity|].
    split; [reflexivity|]. eauto.
Qed.

Lemma pivot_probes_logarithmic_witness :
  phase_ok lkp_globals /\ [lone_pivot] ≠ []
  /\ Z.of_nat (length [lone_pivot]) <= INT_MAX
  /\ exists tr,
       find_tile_id example_config [lone_pivot] 0 3 [] lkp_globals
       = Ok (tile_id [lone_pivot] 3, [] ++ tr) lkp_globals
       /\ 1 <= Z.of_nat (length tr) <= 1.
Proof.
  assert (phase_ok lkp_globals) as Hok by (now eexists).
  split; [exact Hok|]. split; [done|].
  split; [unfold INT_MAX; simpl; lia|].
  destruct (pivot_probes_logarithmic example_config [lone_pivot] 0 3 []
              lkp_globals Hok ltac:(done)
              ltac:(unfold INT_MAX; simpl; lia))
    as (tr & E & Hlen & _).
  exists tr. split; [exact E|exact Hlen].
Defined.

(** ** The workers of a batch *)

Lemma length_omap_le {A B} (f : A -> option B) (l : list A) :
  (length (omap f l) <= length l)%nat.
Proof.
  induction l as [|x l IH]; [done|]. cbn [omap list_omap].
  destruct (f x); simpl; lia.
Qed.

(** X14. The queries of a batch are shared among at most as many workers
    as there are threads: every worker gets a non-empty run of at most
    [ceil(B / n)] consecutive queries, the runs follow each other in thread
    order and together make up the batch, and every worker starts with an
    empty private trace.  For an empty batch no worker is made. *)
Theorem spawn_workers_partition (batch_start current_batch_size
    num_hw_threads : nat) :
  (0 < num_hw_threads)%nat ->
  let pool :=
    spawn_workers batch_start current_batch_size num_hw_threads in
  let portion_size :=
    ((current_batch_size + num_hw_threads - 1) / num_hw_threads)%nat in
  (length pool <= num_hw_threads)%nat
  /\ mjoin (w_todo <$> pool) = seq batch_start current_batch_size
  /\ Forall (fun w =>
               w_todo w ≠ []
               /\ (length (w_todo w) <= portion_size)%nat
               /\ 0 <= w_tid w < Z.of_nat num_hw_threads
               /\ w_pending w = false /\ w_local w = []
               /\ w_merged w = false) pool
  /\ (current_batch_size = 0%nat -> pool = []).
Proof.
  intros Hn pool portion_size.
  split; [|split; [|split]].
  - unfold pool, spawn_workers.
    etransitivity; [apply length_omap_le|]. now rewrite length_seq.
  - apply (spawn_workers_todos batch_start current_batch_size
             num_hw_threads Hn).
  - apply Forall_forall. intros w Hw. unfold pool, spawn_workers in Hw.
    apply list_elem_of_omap in Hw as (tid & Htid & Hw).
    apply elem_of_seq in Htid. fold portion_size in Hw.
    destruct (decide (tid * portion_size < current_batch_size)%nat)
      as [Hlt|]; [|done].
    injection Hw as <-. cbn [w_todo w_tid w_pending w_local w_merged].
    rewrite length_seq.
    assert (0 < portion_size)%nat.
    { unfold portion_size. apply Nat.div_str_pos. lia. }
    repeat split; try lia.
    intros Hnil. apply (f_equal length) in Hnil.
    rewrite length_seq in Hnil. simpl in Hnil. lia.
  - intros ->. unfold pool, spawn_workers.
    assert (forall l : list nat,
              omap (fun tid : nat =>
                      let thread_start_in_batch :=
                        (tid * ((0 + num_hw_threads - 1) / num_hw_threads))%nat
                      in
                      let thread_end_in_batch :=
                        Nat.min (thread_start_in_batch
                                 + (0 + num_hw_threads - 1) / num_hw_threads)
                                0 in
                      if decide (thread_start_in_batch < 0)%nat
                      then Some (mkWorker (Z.of_nat tid)
                                   (seq (batch_start + thread_start_in_batch)
                                        (thread_end_in_batch
                                         - thread_start_in_batch))
                                   false [] false)
                      else None) l = []) as Hnone.
    { induction l as [|x l IH]; [done|]. cbn [omap list_omap].
      cbv zeta. rewrite decide_False by lia. exact IH. }
    apply Hnone.
Qed.

Lemma spawn_workers_partition_witness :
  (0 < 4)%nat
  /\ (length (spawn_workers 128 10 4) <= 4)%nat
  /\ mjoin (w_todo <$> spawn_workers 128 10 4) = seq 128 10.
Proof.
  split; [lia|].
  destruct (spawn_workers_partition 128 10 4 ltac:(lia))
    as (Hlen & Hcover & _).
  split; [exact Hlen|exact Hcover].
Defined.

(** ** The writers, write by write *)

Lemma bind_assoc {St A B C} (m : ST St A) (f : A -> ST St B)
    (k : B -> ST St C) (st : St) :
  ((m ≫= f) ≫= k) st = (m ≫= fun x => f x ≫= k) st.
Proof. unfold mbind, ST_bind. now destruct (m st). Qed.

Lemma bind_ext {St A B} (m m' : ST St A) (f f' : A -> ST St B) (st : St) :
  m st = m' st -> (forall a st', f a st' = f' a st') ->
  (m ≫= f) st = (m' ≫= f') st.
Proof.
  intros Em Ef. unfold mbind, ST_bind. rewrite Em.
  now destruct (m' st).
Qed.

Lemma bind_ret_unit {St} (m : ST St unit) (st : St) :
  (m ≫= fun _ => mret tt) st = m st.
Proof. unfold mbind, ST_bind. now destruct (m st) as [[] ?|]. Qed.

Lemma forM_app {St A} (l1 l2 : list A) (body : A -> ST St unit) (st : St) :
  forM_ (l1 ++ l2) body st = (forM_ l1 body ≫= fun _ => forM_ l2 body) st.
Proof.
  revert st. induction l1 as [|x l1 IH]; intros st; [reflexivity|].
  cbn [app forM_]. rewrite bind_assoc. apply bind_ext; [done|].
  intros _ st'. apply IH.
Qed.

Lemma forM_join {St A B} (f : A -> list B) (l : list A)
    (body : B -> ST St unit) (body' : A -> ST St unit) :
  (forall x st, body' x st = forM_ (f x) body st) ->
  forall st, forM_ l body' st = forM_ (mjoin (f <$> l)) body st.
Proof.
  intros Hb. induction l as [|x l IH]; intros st; [reflexivity|].
  rewrite fmap_cons, join_cons_app, forM_app. cbn [forM_].
  apply bind_ext; [apply Hb|]. intros _ st'. apply IH.
Qed.

Section WriteByWrite.

Context (crc32 : Z -> list Z -> Z) (env : IoEnv).

Local Abbreviation write := (write_and_crc crc32 env).

(** A run of writes: all of them succeed, or the first that fails closes
    the file, the writes before it having been made. *)
Lemma forM_write_chunks (chunks : list (list Z)) :
  forall st,
    forM_ chunks write st
    = match write_fail_at env with
      | Some n =>
          if decide (ws_writes st <= n < ws_writes st + length chunks)%nat
          then Throw RuntimeError
                 (mkWriter
                    (ws_payload st ++ mjoin (take (n - ws_writes st) chunks))
                    (S n)
                    (foldl crc32 (ws_crc st) (take (n - ws_writes st) chunks))
                    (ws_created st) false (ws_stderr st))
          else Ok tt
                 (mkWriter (ws_payload st ++ mjoin chunks)
                           (ws_writes st + length chunks)
                           (foldl crc32 (ws_crc st) chunks)
                           (ws_created st) (ws_open st) (ws_stderr st))
      | None =>
          Ok tt
            (mkWriter (ws_payload st ++ mjoin chunks)
                      (ws_writes st + length chunks)
                      (foldl crc32 (ws_crc st) chunks)
                      (ws_created st) (ws_open st) (ws_stderr st))
      end.
Proof.
  induction chunks as [|c chunks IH]; intros st.
  - cbn [forM_ length mjoin list_join foldl].
    rewrite app_nil_r, Nat.add_0_r.
    destruct (write_fail_at env) as [n|]; [rewrite decide_False by lia|];
      now destruct st.
  - cbn [forM_]. unfold mbind, ST_bind, write_and_crc at 1.
    destruct (decide (write_fail_at env = Some (ws_writes st))) as [E|E].
    + rewrite E. rewrite decide_True by (simpl; lia).
      rewrite Nat.sub_diag. cbn [take mjoin list_join foldl].
      now rewrite app_nil_r.
    + rewrite IH. cbn [ws_payload ws_writes ws_crc ws_created ws_open
                        ws_stderr length].
      destruct (write_fail_at env) as [n|].
      * assert (n ≠ ws_writes st) as Hn by congruence.
        destruct (decide (S (ws_writes st) <= n
                          < S (ws_writes st) + length chunks)%nat).
        -- rewrite decide_True by lia.
           replace (n - ws_writes st)%nat with (S (n - S (ws_writes st)))
             by lia.
           cbn [take foldl]. rewrite join_cons_app, app_assoc. reflexivity.
        -- rewrite decide_False by lia.
           rewrite join_cons_app, app_assoc. cbn [foldl].
           now rewrite Nat.add_succ_r.
      * rewrite join_cons_app, app_assoc. cbn [foldl].
        now rewrite Nat.add_succ_r.
Qed.

Lemma write_entry_chunks (sizeof_addr : Z) (e : MemoryAccessEntry)
    (st : WriterState) :
  write_entry crc32 env sizeof_addr e st
  = forM_ (entry_chunks sizeof_addr e) write st.
Proof.
  unfold write_entry, entry_chunks. cbn [forM_].
  repeat (apply bind_ext; [done|]; intros _ ?).
  symmetry. destruct (decide _); apply bind_ret_unit.
Qed.

(** [write_gmem_trace] as the run of its writes. *)
Lemma write_gmem_trace_chunks (mem_trace_v : list MemoryAccessEntry)
    (sizeof_addr : Z) (st : WriterState) :
  open_ok env = true -> sizeof_addr = 4 \/ sizeof_addr = 8 ->
  write_gmem_trace crc32 env mem_trace_v sizeof_addr st
  = (_ ← forM_ (trace_chunks sizeof_addr mem_trace_v) write;
     _ ← gzclose; get_crc)
      (mkWriter [] 0 (crc32 0 []) true true (ws_stderr st)).
Proof.
  intros Hopen Hw. unfold write_gmem_trace.
  unfold mbind at 1, ST_bind at 1, gzopen. rewrite Hopen.
  rewrite decide_False by lia.
  rewrite (bind_ok (crc_init crc32) _ _ tt _ eq_refl).
  cbn [ws_payload ws_writes ws_crc ws_created ws_open ws_stderr].
  unfold trace_chunks. cbn [forM_]. rewrite bind_assoc.
  apply bind_ext; [done|]. intros _ st1.
  apply bind_ext; [|done].
  apply forM_join. intros e st2. apply write_entry_chunks.
Qed.

Lemma join_entry_chunks (sizeof_addr : Z) (e : MemoryAccessEntry) :
  mjoin (entry_chunks sizeof_addr e) = trace_record sizeof_addr e.
Proof.
  unfold entry_chunks, trace_record.
  cbn [mjoin list_join]. now rewrite app_nil_r.
Qed.

Lemma join_trace_chunks (sizeof_addr : Z)
    (mem_trace_v : list MemoryAccessEntry) :
  mjoin (trace_chunks sizeof_addr mem_trace_v)
  = le_bytes 4 (to_u32 (Z.of_nat (length mem_trace_v)))
    ++ mjoin (trace_record sizeof_addr <$> mem_trace_v).
Proof.
  unfold trace_chunks. rewrite join_cons_app. f_equal.
  induction mem_trace_v as [|e l IH]; [reflexivity|].
  rewrite !fmap_cons, !join_cons_app, join_app, IH.
  now rewrite join_entry_chunks.
Qed.

Lemma length_trace_chunks (sizeof_addr : Z)
    (mem_trace_v : list MemoryAccessEntry) :
  length (trace_chunks sizeof_addr mem_trace_v)
  = (1 + 5 * length mem_trace_v)%nat.
Proof.
  unfold trace_chunks. cbn [length]. f_equal.
  rewrite (length_join_fmap_const _ 5) by done. lia.
Qed.

End WriteByWrite.

Lemma le_bytes_nonempty (w v : Z) : 1 <= w -> le_bytes w v ≠ [].
Proof.
  intros Hw Hnil. apply (f_equal length) in Hnil.
  rewrite le_bytes_length in Hnil by lia. simpl in Hnil. lia.
Qed.

Lemma trace_chunks_nonempty (sizeof_addr : Z)
    (mem_trace_v : list MemoryAccessEntry) :
  Forall (fun c => c ≠ []) (trace_chunks sizeof_addr mem_trace_v).
Proof.
  unfold trace_chunks. constructor; [now apply le_bytes_nonempty|].
  apply Forall_forall. intros c Hc.
  apply list_elem_of_join in Hc as (l & Hc & Hl).
  apply list_elem_of_fmap in Hl as (e & -> & _).
  unfold entry_chunks in Hc.
  repeat (apply elem_of_cons in Hc as [->|Hc];
          [try destruct (decide _); now apply le_bytes_nonempty|]).
  by apply elem_of_nil in Hc.
Qed.

Lemma join_take_shorter {A} (chunks : list (list A)) (n : nat) :
  Forall (fun c => c ≠ []) chunks -> (n < length chunks)%nat ->
  mjoin (take n chunks) `prefix_of` mjoin chunks
  /\ (length (mjoin (take n chunks)) < length (mjoin chunks))%nat.
Proof.
  intros Hne Hn. rewrite <- (take_drop n chunks) at 2 4.
  rewrite join_app. split; [by eexists|].
  rewrite length_app.
  destruct (drop n chunks) as [|c rest] eqn:Hd.
  { apply (f_equal length) in Hd. rewrite length_drop in Hd.
    simpl in Hd. lia. }
  assert (c ∈ chunks) as Hc.
  { rewrite <- (take_drop n chunks), Hd. apply elem_of_app. right. left. }
  rewrite Forall_forall in Hne. specialize (Hne c Hc).
  rewrite join_cons_app, length_app. destruct c; [done|]. simpl. lia.
Qed.

Section WriterOutcomes.

Context (crc32 : Z -> list Z -> Z) (env : IoEnv).

(** X15. When the trace file opens, the width is 4 or 8 and the
    environment makes the write of number [n] fail, [write_gmem_trace]
    makes one write for the count and five per entry: if [n] is one of
    them, the call throws a runtime error with the file closed, the payload
    being what the [n] writes before it appended, a proper prefix of the
    full stream; if it is not, the call succeeds with the full stream. *)
Theorem write_gmem_trace_write_failure
    (mem_trace_v : list MemoryAccessEntry) (sizeof_addr : Z)
    (st : WriterState) (n : nat) :
  open_ok env = true -> sizeof_addr = 4 \/ sizeof_addr = 8 ->
  write_fail_at env = Some n ->
  let chunks := trace_chunks sizeof_addr mem_trace_v in
  let full :=
    le_bytes 4 (to_u32 (Z.of_nat (length mem_trace_v)))
    ++ mjoin (trace_record sizeof_addr <$> mem_trace_v) in
  length chunks = (1 + 5 * length mem_trace_v)%nat
  /\ ((n < 1 + 5 * length mem_trace_v)%nat ->
      exists st',
        write_gmem_trace crc32 env mem_trace_v sizeof_addr st
        = Throw RuntimeError st'
        /\ ws_payload st' = mjoin (take n chunks)
        /\ ws_payload st' `prefix_of` full
        /\ (length (ws_payload st') < length full)%nat
        /\ ws_writes st' = S n
        /\ ws_created st' = true /\ ws_open st' = false)
  /\ ((1 + 5 * length mem_trace_v <= n)%nat ->
      exists crc st',
        write_gmem_trace crc32 env mem_trace_v sizeof_addr st = Ok crc st'
        /\ ws_payload st' = full /\ ws_open st' = false).
Proof.
  intros Hopen Hw Hfail chunks full.
  pose proof (length_trace_chunks sizeof_addr mem_trace_v) as Hlen.
  fold chunks in Hlen. split; [exact Hlen|].
  rewrite (write_gmem_trace_chunks crc32 env _ _ _ Hopen Hw).
  fold chunks.
  pose proof (forM_write_chunks crc32 env chunks
                (mkWriter [] 0 (crc32 0 []) true true (ws_stderr st))) as E.
  rewrite Hfail in E.
  cbn [ws_payload ws_writes ws_crc ws_created ws_open ws_stderr app] in E.
  rewrite Nat.sub_0_r in E. split.
  - intros Hn. rewrite decide_True in E by lia.
    rewrite (bind_throw _ _ _ _ _ E).
    eexists. split; [reflexivity|].
    cbn [ws_payload ws_writes ws_created ws_open].
    destruct (join_take_shorter chunks n
                (trace_chunks_nonempty sizeof_addr mem_trace_v)
                ltac:(lia)) as [Hpre Hshort].
    unfold chunks in Hpre at 2. unfold chunks in Hshort at 2.
    rewrite join_trace_chunks in Hpre, Hshort.
    repeat split; done.
  - intros Hn. rewrite decide_False in E by lia.
    rewrite (bind_ok _ _ _ _ _ E).
    eexists _, _. split; [reflexivity|].
    cbn [ws_payload ws_open]. split; [|done].
    apply join_trace_chunks.
Qed.

Lemma cof_ret : closes_on_failure env (mret tt).
Proof. intros st. simpl. done. Qed.

Lemma cof_bind (m : ST WriterState unit) (f : unit -> ST WriterState unit) :
  closes_on_failure env m -> closes_on_failure env (f tt) ->
  closes_on_failure env (m ≫= f).
Proof.
  intros Hm Hf st. specialize (Hm st). unfold mbind, ST_bind.
  destruct (m st) as [[] st1|e st1]; [|done].
  specialize (Hf st1). destruct (f tt st1) as [[] st2|e st2].
  - destruct Hm, Hf. split; congruence.
  - destruct Hm, Hf as (? & ? & ? & ?). repeat split; congruence.
Qed.

Lemma cof_forM {A} (l : list A) (body : A -> ST WriterState unit) :
  (forall x, closes_on_failure env (body x)) ->
  closes_on_failure env (forM_ l body).
Proof.
  intros Hb. induction l as [|x l IH]; [apply cof_ret|].
  cbn [forM_]. now apply cof_bind.
Qed.

Lemma cof_write (data : list Z) :
  closes_on_failure env (write_and_crc crc32 env data).
Proof.
  intros st. unfold write_and_crc.
  destruct (decide _) as [E|_]; simpl; [|done].
  repeat split. rewrite E. by eexists.
Qed.

Lemma cof_write_group (off_list : list Coord3D) grp :
  closes_on_failure env (write_group crc32 env off_list grp).
Proof.
  unfold write_group. destruct (decide _).
  - intros st. simpl. done.
  - apply cof_forM. intros m. unfold write_match.
    repeat (apply cof_bind; [apply cof_write|]). apply cof_write.
Qed.

(** X16. [write_kernel_map_to_gz] throws nothing but runtime errors: one
    when the file cannot be opened, nothing having been touched, and one
    when a write fails, the file having been created.  On every path on
    which the file was opened it is closed again, whether the call returns
    or throws; an offset index out of bounds never makes it throw. *)
Theorem write_kernel_map_outcomes (kmap_data : gmap Z (list (Z * Z)))
    (off_list : list Coord3D) (st : WriterState) :
  match write_kernel_map_to_gz crc32 env kmap_data off_list st with
  | Ok _ st' =>
      open_ok env = true /\ ws_created st' = true /\ ws_open st' = false
  | Throw e st' =>
      e = RuntimeError
      /\ ((open_ok env = false /\ st' = st)
          \/ (open_ok env = true /\ is_Some (write_fail_at env)
              /\ ws_created st' = true /\ ws_open st' = false))
  end.
Proof.
  unfold write_kernel_map_to_gz.
  unfold mbind at 1, ST_bind at 1, gzopen.
  destruct (open_ok env) eqn:Hopen; [|split; [done|left; done]].
  rewrite (bind_ok (crc_init crc32) _ _ tt _ eq_refl).
  cbn [ws_payload ws_writes ws_crc ws_created ws_open ws_stderr].
  match goal with
  | |- context [(write_and_crc crc32 env ?d ≫= _) ?s] =>
      pose proof (cof_bind (write_and_crc crc32 env d)
                    (fun _ => forM_ (get_sorted_items kmap_data)
                                (write_group crc32 env off_list))
                    (cof_write d)
                    (cof_forM _ _ (cof_write_group off_list)) s) as Hbody;
      rewrite <- (bind_assoc (write_and_crc crc32 env d))
  end.
  unfold mbind at 1, ST_bind at 1.
  match type of Hbody with
  | match ?b with _ => _ end => destruct b as [[] st1|e st1]
  end.
  - simpl in *. destruct Hbody as [_ Hc]. done.
  - simpl in *. destruct Hbody as (-> & Hsome & Hclosed & Hc).
    split; [done|]. right. done.
Qed.

End WriterOutcomes.

Lemma write_gmem_trace_write_failure_witness :
  open_ok (mkIo true (Some 3%nat)) = true /\ (4 = 4 \/ 4 = 8)
  /\ write_fail_at (mkIo true (Some 3%nat)) = Some 3%nat
  /\ exists st',
       write_gmem_trace zlib_crc32 (mkIo true (Some 3%nat))
         [mkEntry 4 0 0 1 536870912] 4 fresh_writer
       = Throw RuntimeError st'
       /\ ws_payload st' = [1; 0; 0; 0; 4; 0]
       /\ ws_open st' = false.
Proof.
  split; [reflexivity|]. split; [now left|]. split; [reflexivity|].
  destruct (write_gmem_trace_write_failure zlib_crc32
              (mkIo true (Some 3%nat)) [mkEntry 4 0 0 1 536870912] 4
              fresh_writer 3 eq_refl (or_introl eq_refl) eq_refl)
    as (_ & Hfail & _).
  destruct (Hfail ltac:(simpl; lia))
    as (st' & E & Hpay & _ & _ & _ & _ & Hclosed).
  exists st'. split; [exact E|]. split; [exact Hpay|exact Hclosed].
Defined.

(** ** The checksum *)

Lemma zlib_crc32_running : running_checksum zlib_crc32.
Proof.
  assert (forall x, Z.lxor (Z.lxor x 4294967295) 4294967295 = x) as Hinv.
  { intros x. now rewrite Z.lxor_assoc, Z.lxor_nilpotent, Z.lxor_0_r. }
  split.
  - intros c. unfold zlib_crc32. simpl. apply Hinv.
  - intros c a b. unfold zlib_crc32. now rewrite Hinv, foldl_app.
Qed.

Section Checksum.

Context (crc32 : Z -> list Z -> Z) (env : IoEnv).
Hypothesis Hnofail : write_fail_at env = None.
Hypothesis Hsum : running_checksum crc32.

Lemma summed_ret : appends_summed crc32 (mret tt) [] [].
Proof.
  intros st. exists 0%nat. destruct Hsum as [H0 _].
  rewrite H0, !app_nil_r, Nat.add_0_r. now destruct st.
Qed.

Lemma summed_bind (m : ST WriterState unit)
    (f : unit -> ST WriterState unit) b1 l1 b2 l2 :
  appends_summed crc32 m b1 l1 -> appends_summed crc32 (f tt) b2 l2 ->
  appends_summed crc32 (m ≫= f) (b1 ++ b2) (l1 ++ l2).
Proof.
  intros Hm Hf st. destruct (Hm st) as (n1 & E1).
  rewrite (bind_ok _ _ _ _ _ E1).
  destruct (Hf (mkWriter (ws_payload st ++ b1) (ws_writes st + n1)
                         (crc32 (ws_crc st) b1) (ws_created st) (ws_open st)
                         (ws_stderr st ++ l1))) as (n2 & E2).
  cbn [ws_payload ws_writes ws_crc ws_created ws_open ws_stderr] in E2.
  exists (n1 + n2)%nat. rewrite E2. destruct Hsum as [_ Happ].
  now rewrite Happ, <- !app_assoc, Nat.add_assoc.
Qed.

Lemma summed_forM {A} (l : list A) (body : A -> ST WriterState unit)
    (bytes log : A -> list Z) :
  (forall x, appends_summed crc32 (body x) (bytes x) (log x)) ->
  appends_summed crc32 (forM_ l body)
                 (mjoin (bytes <$> l)) (mjoin (log <$> l)).
Proof.
  intros Hb. induction l as [|x l IH]; [apply summed_ret|].
  rewrite !fmap_cons, !join_cons_app. cbn [forM_].
  now apply summed_bind.
Qed.

Lemma summed_write (data : list Z) :
  appends_summed crc32 (write_and_crc crc32 env data) data [].
Proof using Hnofail.
  intros st. unfold write_and_crc. rewrite Hnofail.
  rewrite decide_False by done. exists 1%nat.
  now rewrite app_nil_r, Nat.add_1_r.
Qed.

Lemma summed_write_entry (w : Z) (e : MemoryAccessEntry) :
  appends_summed crc32 (write_entry crc32 env w e) (trace_record w e) [].
Proof using Hnofail Hsum.
  unfold write_entry, trace_record.
  repeat (apply (summed_bind _ _ _ [] _ []); [apply summed_write|]).
  destruct (decide _); apply summed_write.
Qed.

Lemma summed_write_group (off_list : list Coord3D) grp :
  appends_summed crc32 (write_group crc32 env off_list grp)
                 (mjoin (group_records off_list grp))
                 (group_log off_list grp).
Proof using Hnofail Hsum.
  unfold write_group, group_records, group_log, out_of_bounds.
  destruct (decide _) as [Hoob|Hin].
  - intros st. exists 0%nat. destruct Hsum as [H0 _]. simpl.
    now rewrite H0, app_nil_r, Nat.add_0_r.
  - replace (@nil Z) with (mjoin ((fun _ : Z * Z => @nil Z) <$> grp.2))
      by (induction grp.2; simpl; auto).
    apply summed_forM. intros m. unfold write_match, match_record.
    repeat (apply (summed_bind _ _ _ [] _ []); [apply summed_write|]).
    apply summed_write.
Qed.

(** X17. With a checksum that runs, a file that opens and no failing
    write, each of the two writers returns the checksum of the very payload
    it wrote, taken from the initial checksum 0. *)
Theorem writers_return_payload_checksum :
  open_ok env = true ->
  (forall (mem_trace_v : list MemoryAccessEntry) (sizeof_addr : Z)
          (st : WriterState),
     sizeof_addr = 4 \/ sizeof_addr = 8 ->
     exists st',
       write_gmem_trace crc32 env mem_trace_v sizeof_addr st
       = Ok (crc32 0 (ws_payload st')) st')
  /\ (forall (kmap_data : gmap Z (list (Z * Z))) (off_list : list Coord3D)
             (st : WriterState),
        exists st',
          write_kernel_map_to_gz crc32 env kmap_data off_list st
          = Ok (crc32 0 (ws_payload st')) st').
Proof using Hnofail Hsum.
  intros Hopen. destruct Hsum as [H0 Happ]. split.
  - intros mem_trace_v sizeof_addr st Hw. unfold write_gmem_trace.
    unfold mbind at 1, ST_bind at 1, gzopen. rewrite Hopen.
    rewrite decide_False by lia.
    rewrite (bind_ok (crc_init crc32) _ _ tt _ eq_refl).
    match goal with
    | |- context [(write_and_crc crc32 env ?d ≫= _) ?s] =>
        destruct (summed_bind (write_and_crc crc32 env d)
                    (fun _ => forM_ mem_trace_v
                                (write_entry crc32 env sizeof_addr))
                    _ _ _ _ (summed_write d)
                    (summed_forM _ _ _ _
                       (fun e => summed_write_entry sizeof_addr e)) s)
          as (n & E);
        rewrite <- (bind_assoc (write_and_crc crc32 env d))
    end.
    rewrite (bind_ok _ _ _ _ _ E).
    rewrite (bind_ok gzclose _ _ tt _ eq_refl).
    unfold get_crc.
    cbn [ws_payload ws_writes ws_crc ws_created ws_open ws_stderr app].
    rewrite H0. eexists (mkWriter _ _ _ _ _ _). reflexivity.
  - intros kmap_data off_list st. unfold write_kernel_map_to_gz.
    unfold mbind at 1, ST_bind at 1, gzopen. rewrite Hopen.
    rewrite (bind_ok (crc_init crc32) _ _ tt _ eq_refl).
    match goal with
    | |- context [(write_and_crc crc32 env ?d ≫= _) ?s] =>
        destruct (summed_bind (write_and_crc crc32 env d)
                    (fun _ => forM_ (get_sorted_items kmap_data)
                                (write_group crc32 env off_list))
                    _ _ _ _ (summed_write d)
                    (summed_forM _ _ _ _
                       (fun grp => summed_write_group off_list grp)) s)
          as (n & E);
        rewrite <- (bind_assoc (write_and_crc crc32 env d))
    end.
    rewrite (bind_ok _ _ _ _ _ E).
    rewrite (bind_ok gzclose _ _ tt _ eq_refl).
    unfold get_crc.
    cbn [ws_payload ws_writes ws_crc ws_created ws_open ws_stderr app].
    rewrite H0. eexists (mkWriter _ _ _ _ _ _). reflexivity.
Qed.

End Checksum.

Lemma writers_return_payload_checksum_witness :
  write_fail_at io_ok = None /\ running_checksum zlib_crc32
  /\ open_ok io_ok = true
  /\ exists st',
       write_kernel_map_to_gz zlib_crc32 io_ok kmap_at_0 [mkCoord 1 0 0]
         fresh_writer
       = Ok (zlib_crc32 0 (ws_payload st')) st'.
Proof.
  split; [reflexivity|]. split; [exact zlib_crc32_running|].
  split; [reflexivity|].
  apply (writers_return_payload_checksum zlib_crc32 io_ok eq_refl
           zlib_crc32_running eq_refl).
Defined.

(** ** From the pipeline to the kernel-map file *)

Lemma length_join_const {A} (k : nat) (ls : list (list A)) :
  Forall (fun l => length l = k) ls ->
  length (mjoin ls) = (k * length ls)%nat.
Proof.
  induction 1 as [|l ls Hl _ IH]; [simpl; lia|].
  rewrite join_cons_app, length_app, IH, Hl. simpl. lia.
Qed.

Lemma group_log_in_bounds (off_list : list Coord3D)
    (l : list (Z * list (Z * Z))) :
  Forall (fun grp => ~ out_of_bounds off_list grp) l ->
  mjoin (group_log off_list <$> l) = [].
Proof.
  induction 1 as [|grp gs Hgrp _ IH]; [done|].
  rewrite fmap_cons, join_cons_app, IH. unfold group_log.
  now rewrite decide_False.
Qed.

Section KernelMapRun.

Context (crc32 : Z -> list Z -> Z) (env : IoEnv).

(** The kernel-map writer when the file opens and no write fails. *)
Lemma write_kernel_map_run (kmap_data : gmap Z (list (Z * Z)))
    (off_list : list Coord3D) (st : WriterState) :
  open_ok env = true -> write_fail_at env = None ->
  let groups := get_sorted_items kmap_data in
  exists crc st',
    write_kernel_map_to_gz crc32 env kmap_data off_list st = Ok crc st'
    /\ ws_payload st'
       = le_bytes 4 (to_u32 (Z.of_nat (total_matches kmap_data)))
         ++ mjoin (mjoin (group_records off_list <$> groups))
    /\ ws_stderr st' = ws_stderr st ++ mjoin (group_log off_list <$> groups)
    /\ ws_open st' = false.
Proof.
  intros Hopen Hnofail groups.
  unfold write_kernel_map_to_gz.
  unfold mbind at 1, ST_bind at 1, gzopen. rewrite Hopen.
  rewrite (bind_ok (crc_init crc32) _ _ tt _ eq_refl).
  rewrite count_total_entries_sum.
  match goal with |- context [write_and_crc _ _ ?d ≫= _] =>
    destruct (appends_write crc32 env Hnofail d
                (mkWriter [] 0 (crc32 0 []) true true (ws_stderr st)))
      as (c1 & n1 & E1) end.
  writer_cbn in E1. rewrite (bind_ok _ _ _ _ _ E1).
  match goal with |- context [forM_ ?l ?b ≫= _] =>
    destruct (appends_forM l b
                (fun grp => mjoin (group_records off_list grp))
                (group_log off_list)
                (fun grp _ => appends_write_group crc32 env Hnofail
                                off_list grp)
                (mkWriter (le_bytes 4 (to_u32 (Z.of_nat
                             (total_matches kmap_data))))
                          n1 c1 true true (ws_stderr st ++ [])))
      as (c2 & n2 & E2) end.
  writer_cbn in E2. rewrite (bind_ok _ _ _ _ _ E2).
  rewrite (bind_ok gzclose _ _ tt _ eq_refl).
  eexists _, _. split; [reflexivity|]. writer_cbn.
  split; [f_equal; apply join_join_fmap|].
  split; [now rewrite app_nil_r|done].
Qed.

(** A kernel map whose offset indices all index the offset list is
    written in full and without a warning. *)
Lemma write_kernel_map_in_bounds (kmap_data : gmap Z (list (Z * Z)))
    (off_list : list Coord3D) (st : WriterState) :
  open_ok env = true -> write_fail_at env = None ->
  Z.of_nat (length off_list) <= UINT32_MOD ->
  (forall o, is_Some (kmap_data !! o) ->
             0 <= o < Z.of_nat (length off_list)) ->
  exists crc st',
    write_kernel_map_to_gz crc32 env kmap_data off_list st = Ok crc st'
    /\ ws_stderr st' = ws_stderr st
    /\ length (ws_payload st') = (4 + 12 * total_matches kmap_data)%nat.
Proof.
  intros Hopen Hnofail HK Hkeys.
  destruct (write_kernel_map_run kmap_data off_list st Hopen Hnofail)
    as (crc & st' & E & Hpay & Herr & _).
  exists crc, st'. split; [exact E|].
  set (groups := get_sorted_items kmap_data) in *.
  assert (Forall (fun grp => ~ out_of_bounds off_list grp) groups) as Hin.
  { apply Forall_forall. intros [o l] Hgrp.
    unfold groups in Hgrp. rewrite get_sorted_items_perm in Hgrp.
    apply elem_of_map_to_list in Hgrp.
    specialize (Hkeys o ltac:(by eexists)).
    unfold out_of_bounds. cbn [fst].
    rewrite to_u32_small by lia. lia. }
  split.
  - rewrite Herr, (group_log_in_bounds off_list groups Hin).
    apply app_nil_r.
  - rewrite Hpay, length_app, le_bytes_length by lia.
    rewrite (length_join_const 12).
    + rewrite (records_count off_list groups Hin).
      unfold total_matches.
      rewrite (sum_list_perm _ _ (fmap_Permutation _ _ _
                 (get_sorted_items_perm kmap_data))). lia.
    + apply Forall_forall. intros rec Hrec.
      apply list_elem_of_join in Hrec as (recs & Hrec & Hrecs).
      apply list_elem_of_fmap in Hrecs as (grp & -> & _).
      pose proof (group_records_length off_list grp) as Hl.
      rewrite Forall_forall in Hl. now apply Hl.
Qed.

End KernelMapRun.

Section PipelineSerialised.

Context (g_config : Config) (crc32 : Z -> list Z -> Z) (env : IoEnv).

(** X18. A kernel map the pipeline produces, written with the offset list
    the pipeline was given, loses nothing: every offset index of the map
    indexes the offset list, so no group is skipped and no warning is
    logged, and the payload is the 4-byte count followed by exactly one
    12-byte record per pair.  The file opens and no write fails; sizes are
    within the range of [int]. *)
Theorem pipeline_kernel_map_serialises (in_coords : list Coord3D)
    (stride : Z) (off_coords : list Coord3D) (tile_size : Z)
    (scheds : nat -> list nat) (g : Globals) (st : WriterState) :
  0 < to_u32 (NUM_THREADS g_config) ->
  Z.of_nat (length in_coords) <= INT_MAX ->
  Z.of_nat (length off_coords) <= INT_MAX ->
  tile_size <= INT_MAX ->
  open_ok env = true -> write_fail_at env = None ->
  exists uc Q T kmap g' crc st',
    run_pipeline g_config in_coords stride off_coords tile_size scheds g
    = Ok (uc, Q, T, kmap) g'
    /\ write_kernel_map_to_gz crc32 env kmap off_coords st = Ok crc st'
    /\ (forall o, is_Some (kmap !! o) ->
                  0 <= o < Z.of_nat (length off_coords))
    /\ ws_stderr st' = ws_stderr st
    /\ length (ws_payload st') = (4 + 12 * total_matches kmap)%nat.
Proof.
  intros Hth Hin Hoff Hts Hopen Hnofail.
  destruct (rdx_facts g_config in_coords stride g
              (threads_nonzero g_config Hth) ltac:(lia))
    as (uc & g1 & E1 & Hlen & _).
  destruct (build_coordinate_queries_run uc stride off_coords g1)
    as (Q & E2 & HQ & Hq).
  destruct (create_tiles_and_pivots_run g_config uc tile_size
              (mkGlobals (mem_trace g1) "QRY") ltac:(lia) Hts)
    as (T & tr & E3 & _).
  assert (0 < Z.to_nat (to_u32 (NUM_THREADS g_config)))%nat as Hth' by lia.
  destruct (perform_coordinate_lookup_run g_config uc (qry_keys Q)
              (qry_off_idx Q) (tiles T) (pivots T) tile_size Hth' scheds
              (mkGlobals (mem_trace (mkGlobals (mem_trace g1) "QRY") ++ tr)
                         "PVT"))
    as (kmap & g' & log & E4 & Hkmap & _ & _ & _).
  assert (forall o, is_Some (kmap !! o) ->
                    0 <= o < Z.of_nat (length off_coords)) as Hkeys.
  { intros o Ho. rewrite Hkmap, apply_matches_dom, lookup_empty in Ho.
    destruct Ho as [[? ?]|Hne]; [done|].
    destruct (matches_for (qry_keys Q) (qry_off_idx Q) (tiles T) (pivots T)
                o log) as [|p l] eqn:Hm; [done|].
    assert (p ∈ matches_for (qry_keys Q) (qry_off_idx Q) (tiles T)
                  (pivots T) o log) as Hp by (rewrite Hm; left).
    unfold matches_for in Hp.
    apply list_elem_of_omap in Hp as (q & _ & Hqm).
    destruct (query_match (qry_keys Q) (qry_off_idx Q) (tiles T) (pivots T)
                q) as [[o' [a b]]|] eqn:Hmatch; [|done].
    destruct (decide (o' = o)) as [->|]; [|done].
    apply query_match_Some in Hmatch as (Hqlt & -> & _).
    rewrite (proj1 HQ) in Hqlt.
    destruct (query_origin uc stride off_coords Q q ltac:(lia) HQ Hq Hqlt)
      as (oi & i0 & off & ics & Hoi & _ & _ & ->).
    apply lookup_lt_Some in Hoi. lia. }
  destruct (write_kernel_map_in_bounds crc32 env kmap off_coords st Hopen
              Hnofail ltac:(unfold INT_MAX, UINT32_MOD in *; lia) Hkeys)
    as (crc & st' & E5 & Herr & Hpaylen).
  exists uc, Q, T, kmap, g', crc, st'. split.
  { unfold run_pipeline.
    rewrite (bind_ok _ _ _ _ _ E1), (bind_ok _ _ _ _ _ E2).
    rewrite (bind_ok _ _ _ _ _ E3), (bind_ok _ _ _ _ _ E4). reflexivity. }
  done.
Qed.

End PipelineSerialised.

Lemma pipeline_kernel_map_serialises_witness :
  0 < to_u32 (NUM_THREADS example_config)
  /\ Z.of_nat (length scenario_coords) <= INT_MAX
  /\ Z.of_nat (length scenario_offsets) <= INT_MAX
  /\ 1 <= INT_MAX
  /\ open_ok io_ok = true /\ write_fail_at io_ok = None
  /\ exists uc Q T kmap g' crc st',
       run_pipeline example_config scenario_coords 1 scenario_offsets 1
                    sequential initial_globals
       = Ok (uc, Q, T, kmap) g'
       /\ write_kernel_map_to_gz zlib_crc32 io_ok kmap scenario_offsets
            fresh_writer = Ok crc st'
       /\ ws_stderr st' = []
       /\ length (ws_payload st') = (4 + 12 * total_matches kmap)%nat.
Proof.
  split; [reflexivity|].
  split; [unfold INT_MAX; simpl; lia|].
  split; [unfold INT_MAX; simpl; lia|].
  split; [unfold INT_MAX; lia|].
  split; [reflexivity|]. split; [reflexivity|].
  destruct (pipeline_kernel_map_serialises example_config zlib_crc32 io_ok
              scenario_coords 1 scenario_offsets 1 sequential
              initial_globals fresh_writer eq_refl
              ltac:(unfold INT_MAX; simpl; lia)
              ltac:(unfold INT_MAX; simpl; lia)
              ltac:(unfold INT_MAX; lia) eq_refl eq_refl)
    as (uc & Q & T & kmap & g' & crc & st' & E & Ew & _ & Herr & Hlen).
  exists uc, Q, T, kmap, g', crc, st'.
  split; [exact E|]. split; [exact Ew|]. split; [exact Herr|exact Hlen].
Defined.

(** ** The kernel map as a matching *)

Lemma NoDup_omap_inj {A B C} (f : A -> option B) (g : B -> C) (l : list A) :
  NoDup l ->
  (forall x y b b', x ∈ l -> y ∈ l -> f x = Some b -> f y = Some b' ->
                    g b = g b' -> x = y) ->
  NoDup (g <$> omap f l).
Proof.
  induction 1 as [|x l Hx Hl IH]; intros Hinj; [constructor|].
  cbn [omap list_omap]. destruct (f x) as [b|] eqn:Hfx.
  - rewrite fmap_cons. constructor.
    + intros Hin. apply list_elem_of_fmap in Hin as (b' & Hg & Hb').
      apply list_elem_of_omap in Hb' as (y & Hy & Hfy).
      apply Hx. rewrite (Hinj x y b b'); [done|left|now right|done..].
    + apply IH. intros y z c c' Hy Hz. apply Hinj; now right.
  - apply IH. intros y z c c' Hy Hz. apply Hinj; now right.
Qed.

Lemma to_key_add_inj (a b off : Coord3D) :
  representable a -> representable b ->
  to_key (coord_add a off) = to_key (coord_add b off) -> a = b.
Proof.
  intros (Hax & Hay & Haz) (Hbx & Hby & Hbz) E.
  rewrite !to_key_arith in E. unfold coord_add in E. cbn [cx cy cz] in E.
  unfold fits_axis, AXIS_BITS in *.
  assert (forall u v o, 0 <= u < 2 ^ 10 -> 0 <= v < 2 ^ 10 ->
            (u + o) mod 1024 = (v + o) mod 1024 -> u = v) as Hmod.
  { intros u v o Hu Hv Huv.
    pose proof (Z.div_mod (u + o) 1024 ltac:(lia)).
    pose proof (Z.div_mod (v + o) 1024 ltac:(lia)). lia. }
  pose proof (Z.mod_pos_bound (cx a + cx off) 1024 ltac:(lia)).
  pose proof (Z.mod_pos_bound (cy a + cy off) 1024 ltac:(lia)).
  pose proof (Z.mod_pos_bound (cz a + cz off) 1024 ltac:(lia)).
  pose proof (Z.mod_pos_bound (cx b + cx off) 1024 ltac:(lia)).
  pose proof (Z.mod_pos_bound (cy b + cy off) 1024 ltac:(lia)).
  pose proof (Z.mod_pos_bound (cz b + cz off) 1024 ltac:(lia)).
  destruct a as [ax ay az], b as [bx by' bz]. cbn [cx cy cz] in *.
  f_equal;
    [apply (Hmod ax bx (cx off))|apply (Hmod ay by' (cy off))
    |apply (Hmod az bz (cz off))]; try done; lia.
Qed.

Section Matching.

Context (g_config : Config).

(** X19. For every offset index, the list of the kernel map the pipeline
    produces is a one-to-one matching, whatever the interleaving of the
    workers: no input index occurs twice as the matched coordinate of a
    pair, and none twice as its source.  Sizes are within the range of
    [int]. *)
Theorem kernel_map_one_to_one (in_coords : list Coord3D) (stride : Z)
    (off_coords : list Coord3D) (tile_size : Z) (scheds : nat -> list nat)
    (g : Globals) :
  0 < to_u32 (NUM_THREADS g_config) ->
  Z.of_nat (length in_coords) <= INT_MAX ->
  Z.of_nat (length off_coords) <= INT_MAX ->
  tile_size <= INT_MAX ->
  exists uc Q T kmap g',
    run_pipeline g_config in_coords stride off_coords tile_size scheds g
    = Ok (uc, Q, T, kmap) g'
    /\ forall o, NoDup (kmap !!! o).*1 /\ NoDup (kmap !!! o).*2.
Proof.
  intros Hth Hin HK Hts.
  destruct (rdx_facts g_config in_coords stride g
              (threads_nonzero g_config Hth) ltac:(lia))
    as (uc & g1 & E1 & Hlen & Hsorted & _ & Huc).
  destruct (build_coordinate_queries_run uc stride off_coords g1)
    as (Q & E2 & HQ & Hq).
  destruct (create_tiles_and_pivots_run g_config uc tile_size
              (mkGlobals (mem_trace g1) "QRY") ltac:(lia) Hts)
    as (T & tr & E3 & Hcat & _).
  assert (0 < Z.to_nat (to_u32 (NUM_THREADS g_config)))%nat as Hth' by lia.
  destruct (perform_coordinate_lookup_run g_config uc (qry_keys Q)
              (qry_off_idx Q) (tiles T) (pivots T) tile_size Hth' scheds
              (mkGlobals (mem_trace (mkGlobals (mem_trace g1) "QRY") ++ tr)
                         "PVT"))
    as (kmap & g' & log & E4 & Hkmap & Hnodup & _ & _).
  exists uc, Q, T, kmap, g'. split.
  { unfold run_pipeline.
    rewrite (bind_ok _ _ _ _ _ E1), (bind_ok _ _ _ _ _ E2).
    rewrite (bind_ok _ _ _ _ _ E3), (bind_ok _ _ _ _ _ E4). reflexivity. }
  (* an entry is determined by its orig_idx *)
  assert (forall x y, x ∈ uc -> y ∈ uc -> orig_idx x = orig_idx y -> x = y)
    as Horig.
  { intros x y Hx Hy Heq.
    destruct (Huc x Hx) as (_ & a & Ha & (c & Hc & Hk) & _).
    destruct (Huc y Hy) as (_ & b & Hb & (c' & Hc' & Hk') & _).
    assert (a = b) as -> by lia.
    apply (sorted_key_inj uc); [done..|]. congruence. }
  (* what a query with a match for [o] is made of *)
  assert (forall q a b o,
            query_match (qry_keys Q) (qry_off_idx Q) (tiles T) (pivots T) q
            = Some (o, (a, b)) ->
            exists off ic ics,
              o = Z.of_nat (q / length uc)
              /\ off_coords !! (q / length uc)%nat = Some off
              /\ uc !! (q mod length uc)%nat = Some ics
              /\ ic ∈ uc /\ a = orig_idx ic /\ b = orig_idx ics
              /\ ic_to_key ic = to_key (coord_add (coord ics) off))
    as Hparts.
  { intros q a b o Hm.
    apply query_match_Some in Hm
      as (Hqlt & -> & -> & tile & ic & Htile & Hic & Hkey & <-).
    rewrite (proj1 HQ) in Hqlt.
    assert (0 < length uc)%nat as HU by lia.
    pose proof (Nat.div_mod_eq q (length uc)) as Hdm.
    pose proof (Nat.mod_upper_bound q (length uc) ltac:(lia)) as Hmod.
    assert (q / length uc < length off_coords)%nat as Ho.
    { apply Nat.Div0.div_lt_upper_bound. lia. }
    destruct (lookup_lt_is_Some_2 off_coords _ Ho) as [off Hoffq].
    destruct (lookup_lt_is_Some_2 uc _ Hmod) as [ics Hics].
    specialize (Hq _ _ off ics Hoffq Hics).
    replace (q / length uc * length uc + q mod length uc)%nat with q in Hq
      by lia.
    unfold query_at, query_entry in Hq.
    destruct (qry_keys Q !! q) as [qk|] eqn:Eqk; [|done].
    destruct (qry_in_idx Q !! q) as [x|]; [|done].
    destruct (qry_off_idx Q !! q) as [y|] eqn:Eqo; [|done].
    destruct (wt_offsets Q !! q) as [w|]; [|done].
    simpl in Hq. injection Hq as -> -> -> ->.
    apply list_lookup_total_correct in Eqk, Eqo.
    rewrite to_int_small in Eqo by (unfold INT_MAX in *; lia).
    exists off, ic, ics. rewrite Eqo, Eqk. rewrite Eqk in Hkey.
    repeat split; try done.
    rewrite <- Hcat. apply list_elem_of_join. eauto. }
  (* two queries for the same offset and the same entry are the same *)
  assert (forall (q q' : nat) (ics : IndexedCoord),
            Z.of_nat (q / length uc) = Z.of_nat (q' / length uc) ->
            uc !! (q mod length uc)%nat = Some ics ->
            uc !! (q' mod length uc)%nat = Some ics -> q = q') as Hsame.
  { intros q q' ics Hdiv Hm Hm'.
    assert (NoDup uc) as Hnd.
    { apply (NoDup_fmap_1 ic_to_key). now apply strictly_sorted_NoDup. }
    pose proof (NoDup_lookup _ _ _ _ Hnd Hm Hm') as Hmod.
    pose proof (Nat.div_mod_eq q (length uc)).
    pose proof (Nat.div_mod_eq q' (length uc)).
    assert (q / length uc = q' / length uc)%nat by lia. congruence. }
  intros o. rewrite Hkmap, apply_matches_lookup, lookup_total_empty.
  cbn [app]. unfold matches_for. split.
  - apply NoDup_omap_inj; [done|].
    intros q q' [a b] [a' b'] _ _ Hf Hf' Heq. cbn [fst] in Heq. subst a'.
    destruct (query_match _ _ _ _ q) as [[o1 p1]|] eqn:Hm; [|done].
    destruct (decide (o1 = o)) as [->|]; [|done]. injection Hf as ->.
    destruct (query_match _ _ _ _ q') as [[o2 p2]|] eqn:Hm'; [|done].
    destruct (decide (o2 = o)) as [->|]; [|done]. injection Hf' as ->.
    destruct (Hparts _ _ _ _ Hm)
      as (off & ic & ics & Ho & Hoff & Hics & Hic & Ha & _ & Hk).
    destruct (Hparts _ _ _ _ Hm')
      as (off' & ic' & ics' & Ho' & Hoff' & Hics' & Hic' & Ha' & _ & Hk').
    assert (ic = ic') as <- by (apply Horig; [done..|congruence]).
    assert (off' = off) as ->.
    { assert (q / length uc = q' / length uc)%nat by lia. congruence. }
    assert (ics = ics') as <-.
    { pose proof (list_elem_of_lookup_2 _ _ _ Hics) as Hin1.
      pose proof (list_elem_of_lookup_2 _ _ _ Hics') as Hin2.
      apply (sorted_key_inj uc); [done..|].
      unfold ic_to_key. f_equal. apply (to_key_add_inj _ _ off).
      - rewrite (proj1 (Huc ics Hin1)). apply from_key_representable.
      - rewrite (proj1 (Huc ics' Hin2)). apply from_key_representable.
      - congruence. }
    apply (Hsame q q' ics); [lia|done..].
  - apply NoDup_omap_inj; [done|].
    intros q q' [a b] [a' b'] _ _ Hf Hf' Heq. cbn [snd] in Heq. subst b'.
    destruct (query_match _ _ _ _ q) as [[o1 p1]|] eqn:Hm; [|done].
    destruct (decide (o1 = o)) as [->|]; [|done]. injection Hf as ->.
    destruct (query_match _ _ _ _ q') as [[o2 p2]|] eqn:Hm'; [|done].
    destruct (decide (o2 = o)) as [->|]; [|done]. injection Hf' as ->.
    destruct (Hparts _ _ _ _ Hm)
      as (off & ic & ics & Ho & Hoff & Hics & _ & _ & Hb & _).
    destruct (Hparts _ _ _ _ Hm')
      as (off' & ic' & ics' & Ho' & Hoff' & Hics' & _ & _ & Hb' & _).
    assert (ics = ics') as <-.
    { apply Horig; [eapply list_elem_of_lookup_2, Hics
                   |eapply list_elem_of_lookup_2, Hics'|congruence]. }
    apply (Hsame q q' ics); [lia|done..].
Qed.

End Matching.

Lemma kernel_map_one_to_one_witness :
  0 < to_u32 (NUM_THREADS example_config)
  /\ Z.of_nat (length scenario_coords) <= INT_MAX
  /\ Z.of_nat (length scenario_offsets) <= INT_MAX
  /\ 1 <= INT_MAX
  /\ exists uc Q T kmap g',
       run_pipeline example_config scenario_coords 1 scenario_offsets 1
                    sequential initial_globals
       = Ok (uc, Q, T, kmap) g'
       /\ NoDup (kmap !!! 0).*2.
Proof.
  split; [reflexivity|].
  split; [unfold INT_MAX; simpl; lia|].
  split; [unfold INT_MAX; simpl; lia|].
  split; [unfold INT_MAX; lia|].
  destruct (kernel_map_one_to_one example_config scenario_coords 1
              scenario_offsets 1 sequential initial_globals eq_refl
              ltac:(unfold INT_MAX; simpl; lia)
              ltac:(unfold INT_MAX; simpl; lia)
              ltac:(unfold INT_MAX; lia))
    as (uc & Q & T & kmap & g' & E & Hall).
  exists uc, Q, T, kmap, g'. split; [exact E|]. apply (Hall 0).
Defined.

(** ** Clearing and reading the trace *)

(** X20. [clear_mem_trace] and [clear_global_mem_trace] both empty the
    trace and keep the current phase, and [get_mem_trace] returns the trace
    and changes nothing.  So, whichever of the two clears is used, what
    [get_mem_trace] returns after the clear and one recorded access is that
    access alone, and, with a positive thread count, after the clear and
    the RDX phase it is exactly the [12 * N] accesses of that phase. *)
Theorem clear_then_get_mem_trace (g_config : Config) (clear : M unit)
    (in_coords : list Coord3D) (stride : Z) (g : Globals) :
  clear = clear_mem_trace \/ clear = clear_global_mem_trace ->
  0 < NUM_THREADS g_config ->
  (forall tid op_str a ph o,
     forward_find PHASES (curr_phase g) = Some ph ->
     forward_find OPS op_str = Some o ->
     (_ ← clear; _ ← record_access g_config tid op_str a;
      get_mem_trace) g
     = Ok [entry_of g_config ph tid o a]
          (mkGlobals [entry_of g_config ph tid o a] (curr_phase g)))
  /\ exists tr,
       (_ ← clear;
        _ ← compute_unique_sorted_coords g_config in_coords stride;
        get_mem_trace) g
       = Ok tr (mkGlobals tr "RDX")
       /\ tr = radix_trace g_config 0 (length in_coords) (I_BASE g_config)
       /\ length tr = (12 * length in_coords)%nat.
Proof.
  intros Hclear Hth.
  assert (clear g = Ok tt (mkGlobals [] (curr_phase g))) as Ec
    by (destruct Hclear as [->| ->]; reflexivity).
  split.
  - intros tid op_str a ph o Hph Ho.
    rewrite (bind_ok clear _ g tt _ Ec).
    rewrite (bind_ok _ _ _ _ _
               (record_access_entry g_config tid op_str a o ph
                  (mkGlobals [] (curr_phase g)) Hph Ho)).
    reflexivity.
  - exists (radix_trace g_config 0 (length in_coords) (I_BASE g_config)).
    split; [|split; [reflexivity|apply radix_trace_length]].
    rewrite (bind_ok clear _ g tt _ Ec).
    pose proof (compute_unique_sorted_coords_trace g_config in_coords stride
                  (mkGlobals [] (curr_phase g)) ltac:(lia)) as E.
    cbn [mem_trace app] in E.
    rewrite (bind_ok _ _ _ _ _ E). reflexivity.
Qed.

Lemma clear_then_get_mem_trace_witness :
  (clear_global_mem_trace = clear_mem_trace
   \/ clear_global_mem_trace = clear_global_mem_trace)
  /\ 0 < NUM_THREADS example_config
  /\ exists tr,
       (_ ← clear_global_mem_trace;
        _ ← compute_unique_sorted_coords example_config scenario_coords 1;
        get_mem_trace) (mkGlobals [mkEntry 4 0 0 1 0] "LKP")
       = Ok tr (mkGlobals tr "RDX")
       /\ length tr = 36%nat.
Proof.
  split; [right; reflexivity|]. split; [reflexivity|].
  destruct (clear_then_get_mem_trace example_config clear_global_mem_trace
              scenario_coords 1 (mkGlobals [mkEntry 4 0 0 1 0] "LKP")
              (or_intror eq_refl) eq_refl)
    as (_ & tr & E & _ & Hlen).
  exists tr. split; [exact E|exact Hlen].
Defined.

(** ** Reading a trace file back *)

Lemma le_bytes_inj (w a b : Z) :
  0 <= w -> 0 <= a < 2 ^ (w * 8) -> 0 <= b < 2 ^ (w * 8) ->
  le_bytes w a = le_bytes w b -> a = b.
Proof.
  intros Hw Ha Hb E. apply (f_equal (little_endian_to_Z 8)) in E.
  rewrite !le_bytes_decode in E by done.
  now rewrite !Z.mod_small in E by done.
Qed.

Lemma trace_record_inj (e1 e2 : MemoryAccessEntry) :
  entry_in_range e1 -> entry_in_range e2 ->
  trace_record 8 e1 = trace_record 8 e2 -> e1 = e2.
Proof.
  intros (H1 & H2 & H3 & H4 & H5) (K1 & K2 & K3 & K4 & K5) E.
  unfold trace_record in E. rewrite !decide_False in E by done.
  unfold UINT64_MOD in *.
  apply app_inj_1 in E as [E1 E];
    [|now rewrite !le_bytes_length by lia].
  apply app_inj_1 in E as [E2 E];
    [|now rewrite !le_bytes_length by lia].
  apply app_inj_1 in E as [E3 E];
    [|now rewrite !le_bytes_length by lia].
  apply app_inj_1 in E as [E4 E5];
    [|now rewrite !le_bytes_length by lia].
  apply le_bytes_inj in E1, E2, E3, E4, E5; try (simpl; lia).
  destruct e1, e2. simpl in *. congruence.
Qed.

Lemma trace_records_inj (tr1 tr2 : list MemoryAccessEntry) :
  Forall entry_in_range tr1 -> Forall entry_in_range tr2 ->
  mjoin (trace_record 8 <$> tr1) = mjoin (trace_record 8 <$> tr2) ->
  tr1 = tr2.
Proof.
  intros H1. revert tr2.
  induction H1 as [|e1 tr1 He1 _ IH]; intros tr2 H2 E.
  - destruct tr2 as [|e2 tr2]; [done|].
    apply (f_equal length) in E.
    rewrite fmap_cons, join_cons_app, length_app in E.
    rewrite trace_record_length in E by auto. simpl in E. lia.
  - destruct tr2 as [|e2 tr2].
    + apply (f_equal length) in E.
      rewrite fmap_cons, join_cons_app, length_app in E.
      rewrite trace_record_length in E by auto. simpl in E. lia.
    + apply Forall_cons in H2 as [He2 H2].
      rewrite !fmap_cons, !join_cons_app in E.
      apply app_inj_1 in E as [Ee E];
        [|now rewrite !trace_record_length by auto].
      f_equal; [now apply trace_record_inj|now apply IH].
Qed.

Section TraceFile.

Context (crc32 : Z -> list Z -> Z) (env : IoEnv).

(** What [write_gmem_trace] has written when it returns. *)
Lemma write_gmem_trace_ok_payload (mem_trace_v : list MemoryAccessEntry)
    (sizeof_addr : Z) (st st' : WriterState) (crc : Z) :
  write_gmem_trace crc32 env mem_trace_v sizeof_addr st = Ok crc st' ->
  (sizeof_addr = 4 \/ sizeof_addr = 8)
  /\ ws_payload st'
     = le_bytes 4 (to_u32 (Z.of_nat (length mem_trace_v)))
       ++ mjoin (trace_record sizeof_addr <$> mem_trace_v).
Proof.
  intros E.
  destruct (open_ok env) eqn:Hopen.
  2:{ unfold write_gmem_trace in E.
      unfold mbind at 1, ST_bind at 1, gzopen in E.
      now rewrite Hopen in E. }
  destruct (decide (sizeof_addr ≠ 4 /\ sizeof_addr ≠ 8)) as [Hbad|Hw].
  { unfold write_gmem_trace in E.
    unfold mbind at 1, ST_bind at 1, gzopen in E. rewrite Hopen in E.
    now rewrite decide_True in E by done. }
  assert (sizeof_addr = 4 \/ sizeof_addr = 8) as Hw' by lia.
  split; [exact Hw'|].
  rewrite (write_gmem_trace_chunks crc32 env _ _ _ Hopen Hw') in E.
  pose proof (forM_write_chunks crc32 env
                (trace_chunks sizeof_addr mem_trace_v)
                (mkWriter [] 0 (crc32 0 []) true true (ws_stderr st)))
    as Hrun.
  cbn [ws_payload ws_writes ws_crc ws_created ws_open ws_stderr app]
    in Hrun.
  assert (forM_ (trace_chunks sizeof_addr mem_trace_v)
                (write_and_crc crc32 env)
                (mkWriter [] 0 (crc32 0 []) true true (ws_stderr st))
          = Ok tt (mkWriter
                     (mjoin (trace_chunks sizeof_addr mem_trace_v))
                     (0 + length (trace_chunks sizeof_addr mem_trace_v))
                     (foldl crc32 (crc32 0 [])
                            (trace_chunks sizeof_addr mem_trace_v))
                     true true (ws_stderr st))) as Hok.
  { destruct (write_fail_at env) as [n|]; [|exact Hrun].
    destruct (decide _); [|exact Hrun].
    rewrite (bind_throw _ _ _ _ _ Hrun) in E. done. }
  rewrite (bind_ok _ _ _ _ _ Hok) in E.
  rewrite (bind_ok gzclose _ _ tt _ eq_refl) in E.
  injection E as _ <-. cbn [ws_payload]. apply join_trace_chunks.
Qed.

(** X21. A trace file written with 8-byte addresses determines the trace:
    when [write_gmem_trace] returns for two traces whose entries fit their
    fields, and the two payloads are the same, the two traces are the
    same. *)
Theorem write_gmem_trace_injective (tr1 tr2 : list MemoryAccessEntry)
    (st1 st2 st1' st2' : WriterState) (crc1 crc2 : Z) :
  Forall entry_in_range tr1 -> Forall entry_in_range tr2 ->
  write_gmem_trace crc32 env tr1 8 st1 = Ok crc1 st1' ->
  write_gmem_trace crc32 env tr2 8 st2 = Ok crc2 st2' ->
  ws_payload st1' = ws_payload st2' ->
  tr1 = tr2.
Proof.
  intros H1 H2 E1 E2 Hpay.
  apply write_gmem_trace_ok_payload in E1 as [_ P1].
  apply write_gmem_trace_ok_payload in E2 as [_ P2].
  rewrite P1, P2 in Hpay.
  apply app_inj_1 in Hpay as [_ Hrec];
    [|now rewrite !le_bytes_length by lia].
  now apply trace_records_inj.
Qed.

End TraceFile.

Lemma write_gmem_trace_injective_witness :
  Forall entry_in_range [mkEntry 4 0 0 1 536870912]
  /\ exists crc st1' st2',
       write_gmem_trace zlib_crc32 io_ok [mkEntry 4 0 0 1 536870912] 8
         fresh_writer = Ok crc st1'
       /\ write_gmem_trace zlib_crc32 io_ok [mkEntry 4 0 0 1 536870912] 8
            (mkWriter [] 0 0 false false [7]) = Ok crc st2'
       /\ ws_payload st1' = ws_payload st2'
       /\ [mkEntry 4 0 0 1 536870912] = [mkEntry 4 0 0 1 536870912].
Proof.
  assert (Forall entry_in_range [mkEntry 4 0 0 1 536870912]) as Hr.
  { constructor; [|constructor].
    unfold entry_in_range, UINT64_MOD. simpl. lia. }
  split; [exact Hr|].
  eexists _, _, _.
  split; [vm_compute; reflexivity|].
  split; [vm_compute; reflexivity|].
  split; [reflexivity|].
  eapply (write_gmem_trace_injective zlib_crc32 io_ok
            [mkEntry 4 0 0 1 536870912] [mkEntry 4 0 0 1 536870912]
            fresh_writer (mkWriter [] 0 0 false false [7]) _ _ _ _ Hr Hr);
    [vm_compute; reflexivity|vm_compute; reflexivity|reflexivity].
Defined.

(** ** The trace of the lookup *)

Lemma write_addrs_app (l1 l2 : list MemoryAccessEntry) :
  write_addrs (l1 ++ l2) = write_addrs l1 ++ write_addrs l2.
Proof. unfold write_addrs. now rewrite filter_app, fmap_app. Qed.

Lemma write_addrs_perm (l1 l2 : list MemoryAccessEntry) :
  l1 ≡ₚ l2 -> write_addrs l1 ≡ₚ write_addrs l2.
Proof. intros H. unfold write_addrs. now rewrite H. Qed.

Lemma write_addrs_reads (l : list MemoryAccessEntry) :
  Forall (fun e => phase e = 4 /\ op e = 0) l -> write_addrs l = [].
Proof.
  induction 1 as [|e l [_ He] _ IH]; [done|].
  unfold write_addrs in *. rewrite filter_cons_False; [done|].
  rewrite He. done.
Qed.

Lemma pool_entries_insert (pool : list Worker) (i : nat) (w w' : Worker)
    (merged_now new : list MemoryAccessEntry) :
  pool !! i = Some w ->
  merged_now ++ unmerged w' = unmerged w ++ new ->
  merged_now ++ pool_entries (<[i := w']> pool) ≡ₚ pool_entries pool ++ new.
Proof.
  intros Hi Heq. unfold pool_entries.
  apply lookup_lt_Some in Hi as Hlt.
  rewrite insert_take_drop by done.
  rewrite <- (take_drop_middle pool i w Hi) at 3.
  rewrite !fmap_app, !fmap_cons, !join_app, !join_cons_app.
  set (A := mjoin (unmerged <$> take i pool)).
  set (B := mjoin (unmerged <$> drop (S i) pool)).
  rewrite (Permutation_app_comm merged_now).
  rewrite <- !app_assoc.
  apply Permutation_app_head.
  rewrite (app_assoc (unmerged w') B merged_now).
  rewrite (Permutation_app_comm (unmerged w' ++ B) merged_now).
  rewrite (app_assoc merged_now), Heq, <- !app_assoc.
  apply Permutation_app_head, Permutation_app_comm.
Qed.

Lemma sum_list_app (l1 l2 : list nat) :
  sum_list (l1 ++ l2) = (sum_list l1 + sum_list l2)%nat.
Proof. induction l1 as [|x l1 IH]; simpl; [done|]. rewrite IH. lia. Qed.

Lemma pool_pending_insert (pool : list Worker) (i : nat) (w w' : Worker) :
  pool !! i = Some w ->
  (pool_pending (<[i := w']> pool) + pending_count w
   = pool_pending pool + pending_count w')%nat.
Proof.
  intros Hi. unfold pool_pending.
  apply lookup_lt_Some in Hi as Hlt.
  rewrite insert_take_drop by done.
  rewrite <- (take_drop_middle pool i w Hi) at 3.
  rewrite !fmap_app, !fmap_cons, !sum_list_app. simpl. lia.
Qed.

Lemma to_u64_succ (n : nat) :
  to_u64 (to_u64 (Z.of_nat n) + 1) = to_u64 (Z.of_nat (S n)).
Proof.
  unfold to_u64. rewrite Zplus_mod_idemp_l. f_equal. lia.
Qed.

Section LookupTrace.

Context (g_config : Config).
Context (uniq_coords : list IndexedCoord) (qry_keys_v : list IndexedCoord)
        (qry_off_idx_v : list Z)
        (tiles_v : list (list IndexedCoord)) (pivs : list IndexedCoord)
        (tile_size_param : Z).

Local Abbreviation step :=
  (worker_step g_config uniq_coords qry_keys_v qry_off_idx_v tiles_v pivs
               tile_size_param).
Local Abbreviation run :=
  (run_schedule g_config uniq_coords qry_keys_v qry_off_idx_v tiles_v pivs
                tile_size_param).
Local Abbreviation qmatch :=
  (query_match qry_keys_v qry_off_idx_v tiles_v pivs).
Local Abbreviation lkp_read :=
  (fun e : MemoryAccessEntry => phase e = 4 /\ op e = 0).

Lemma pivot_search_reads (fuel : nat) (tid key : Z) g :
  forward_find PHASES (curr_phase g) = Some 4 ->
  forall low high target local,
  exists tr,
    pivot_search g_config pivs fuel tid key low high target local g
    = Ok (pivot_target pivs fuel key low high target, local ++ tr) g
    /\ Forall lkp_read tr.
Proof.
  intros Hph. induction fuel as [|fuel IH]; intros low high target local.
  - exists []. simpl. rewrite app_nil_r. split; [done|constructor].
  - cbn [pivot_search pivot_target].
    destruct (decide (low <= high)).
    2:{ exists []. rewrite app_nil_r. split; [done|constructor]. }
    rewrite (bind_ok _ _ _ _ _
               (record_access_local_entry g_config tid "R" _ 0 4 local g
                  Hph eq_refl)).
    destruct (decide _).
    + destruct (IH (low + (high - low) ÷ 2 + 1) high
                   (low + (high - low) ÷ 2) (local ++ [entry_of g_config 4
                      tid 0 (elem_addr (PIV_BASE g_config)
                               (low + (high - low) ÷ 2)
                               (SIZE_KEY g_config))]))
        as (tr & E & Htr).
      eexists (_ :: tr). rewrite E, <- app_assoc. split; [done|].
      constructor; [done|exact Htr].
    + destruct (IH low (low + (high - low) ÷ 2 - 1) target
                   (local ++ [entry_of g_config 4 tid 0
                      (elem_addr (PIV_BASE g_config)
                         (low + (high - low) ÷ 2) (SIZE_KEY g_config))]))
        as (tr & E & Htr).
      eexists (_ :: tr). rewrite E, <- app_assoc. split; [done|].
      constructor; [done|exact Htr].
Qed.

Lemma tile_scan_reads (tid key target : Z) g :
  forward_find PHASES (curr_phase g) = Some 4 ->
  forall (rest : list IndexedCoord) (idx : nat) local,
  exists tr,
    tile_scan g_config uniq_coords tile_size_param tid key target idx rest
              local g
    = Ok (tile_match key rest, local ++ tr) g
    /\ Forall lkp_read tr.
Proof.
  intros Hph rest. induction rest as [|ic rest IH]; intros idx local.
  - exists []. simpl. rewrite app_nil_r. split; [done|constructor].
  - cbn [tile_scan tile_match].
    match goal with |- context [record_access_local _ _ _ ?a _] =>
      rewrite (bind_ok _ _ _ _ _
                 (record_access_local_entry g_config tid "R" a 0 4 local g
                    Hph eq_refl));
      set (e := entry_of g_config 4 tid 0 a)
    end.
    destruct (decide (ic_to_key ic = key)).
    + exists [e]. split; [done|]. constructor; [done|constructor].
    + destruct (IH (S idx) (local ++ [e])) as (tr & E & Htr).
      exists (e :: tr). rewrite E, <- app_assoc. split; [done|].
      constructor; [done|exact Htr].
Qed.

Lemma lookup_query_reads (tid : Z) (q : nat)
    (local : list MemoryAccessEntry) g :
  forward_find PHASES (curr_phase g) = Some 4 ->
  (q < length qry_keys_v)%nat ->
  exists tr,
    lookup_query g_config uniq_coords qry_keys_v qry_off_idx_v tiles_v pivs
                 tile_size_param tid q local g
    = Ok (qmatch q, local ++ tr) g
    /\ Forall lkp_read tr.
Proof.
  intros Hph Hq. unfold lookup_query, query_match.
  rewrite decide_False by lia.
  match goal with |- context [record_access_local _ _ _ ?a _] =>
    rewrite (bind_ok _ _ _ _ _
               (record_access_local_entry g_config tid "R" a 0 4 local g
                  Hph eq_refl));
    set (e := entry_of g_config 4 tid 0 a)
  end.
  set (key := ic_to_key (qry_keys_v !!! q)).
  assert (exists probes,
            find_tile_id g_config pivs tid key (local ++ [e]) g
            = Ok (tile_id pivs key, (local ++ [e]) ++ probes) g
            /\ Forall lkp_read probes) as (probes & E2 & Hprobes).
  { unfold find_tile_id, tile_id. destruct pivs as [|p ps] eqn:Hp.
    - exists []. rewrite app_nil_r. split; [done|constructor].
    - rewrite <- Hp. apply pivot_search_reads, Hph. }
  rewrite (bind_ok _ _ _ _ _ E2).
  set (t := tile_id pivs key).
  destruct (decide (t ≠ -1 /\ t < to_int (Z.of_nat (length tiles_v)))).
  - destruct (tile_scan_reads tid key t g Hph (tiles_v !!! Z.to_nat t) 0
                ((local ++ [e]) ++ probes)) as (reads & E3 & Hreads).
    rewrite (bind_ok _ _ _ _ _ E3).
    exists (e :: probes ++ reads). rewrite <- !app_assoc. simpl.
    split; [reflexivity|]. constructor; [done|].
    apply Forall_app. done.
  - exists (e :: probes). rewrite <- app_assoc. simpl.
    split; [reflexivity|]. constructor; done.
Qed.

(** One quantum of a worker, as the trace and the counter see it. *)
Lemma worker_step_trace (w : Worker) (k : KmState) (g : Globals) :
  curr_phase g = "LKP"%string -> worker_wf w ->
  exists w' k' g' merged_now new,
    step w k g = Ok (w', k') g'
    /\ curr_phase g' = "LKP"%string /\ worker_wf w'
    /\ mem_trace g' = mem_trace g ++ merged_now
    /\ merged_now ++ unmerged w' = unmerged w ++ new
    /\ Forall (fun e => phase e = 4) new
    /\ ((w_pending w = true /\ w_pending w' = false
         /\ km_map k' = km_map k
         /\ km_write_idx k' = to_u64 (km_write_idx k + 1)
         /\ write_addrs new
            = [elem_addr (KM_BASE g_config) (km_write_idx k)
                         (SIZE_INT g_config)])
        \/ (w_pending w = false
            /\ km_write_idx k' = km_write_idx k
            /\ write_addrs new = []
            /\ total_matches (km_map k')
               = (total_matches (km_map k) + pending_count w')%nat)).
Proof.
  intros Hlkp Hwf.
  assert (forward_find PHASES (curr_phase g) = Some 4) as Hph
    by (now rewrite Hlkp).
  unfold worker_step, worker_wf, unmerged, pending_count in *.
  destruct w as [tid todo pending local merged]; simpl in *.
  destruct pending.
  - destruct merged; [destruct (Hwf eq_refl); done|].
    rewrite (bind_ok _ _ _ _ _ (inverse_at_ok OPS 1 "W" g eq_refl)).
    match goal with |- context [record_access_local _ _ _ ?a _] =>
      rewrite (bind_ok _ _ _ _ _
                 (record_access_local_entry g_config tid "W" a 1 4 local g
                    Hph eq_refl));
      set (e := entry_of g_config 4 tid 1 a)
    end.
    eexists _, _, g, [], [e]. split; [reflexivity|]. simpl.
    split; [done|]. split; [done|]. split; [now rewrite app_nil_r|].
    split; [done|]. split; [constructor; [done|constructor]|].
    left. repeat split; done.
  - destruct todo as [|q todo'].
    + destruct merged.
      * eexists _, _, g, [], []. split; [reflexivity|]. simpl.
        split; [done|]. split; [done|]. split; [now rewrite app_nil_r|].
        split; [done|]. split; [constructor|].
        right. repeat split; try done; try lia.
      * eexists _, _, _, local, []. split; [reflexivity|]. simpl.
        split; [done|]. split; [done|]. split; [done|].
        split; [done|]. split; [constructor|].
        right. repeat split; try done; try lia.
    + destruct merged; [destruct (Hwf eq_refl); done|].
      destruct (decide (length qry_keys_v <= q)%nat) as [Hge|Hlt].
      * eexists _, _, g, [], []. split; [reflexivity|]. simpl.
        split; [done|]. split; [done|]. split; [now rewrite app_nil_r|].
        split; [now rewrite app_nil_r|]. split; [constructor|].
        right. repeat split; try done; try lia.
      * destruct (lookup_query_reads tid q local g Hph ltac:(lia))
          as (tr & E & Htr).
        rewrite (bind_ok _ _ _ _ _ E).
        assert (Forall (fun e => phase e = 4) tr) as Htr4.
        { eapply Forall_impl; [exact Htr|]. now intros e [? _]. }
        destruct (qmatch q) as [[o p]|] eqn:Hm.
        -- eexists _, _, g, [], tr. split; [reflexivity|]. simpl.
           split; [done|]. split; [done|]. split; [now rewrite app_nil_r|].
           split; [done|]. split; [done|].
           right. split; [done|]. split; [done|].
           split; [now apply write_addrs_reads|].
           rewrite total_matches_append. lia.
        -- eexists _, _, g, [], tr. split; [reflexivity|]. simpl.
           split; [done|]. split; [done|]. split; [now rewrite app_nil_r|].
           split; [done|]. split; [done|].
           right. split; [done|]. split; [done|].
           split; [now apply write_addrs_reads|]. lia.
Qed.

(** The invariant of the lookup survives every schedule. *)
Lemma run_schedule_trace (base : list MemoryAccessEntry)
    (sched : list nat) :
  forall (pool : list Worker) (k : KmState) (g : Globals),
    lkp_inv g_config base pool k g ->
    exists pool' k' g',
      run sched pool k g = Ok (pool', k') g'
      /\ lkp_inv g_config base pool' k' g'.
Proof.
  induction sched as [|i sched IH]; intros pool k g Hinv.
  - exists pool, k, g. split; [reflexivity|done].
  - cbn [run_schedule]. destruct (pool !! i) as [w|] eqn:Hi; [|now apply IH].
    destruct Hinv as (Hlkp & Hwf & tr & n & Htr & Hall & Hwr & Hidx & Hcnt).
    assert (worker_wf w) as Hw.
    { rewrite Forall_forall in Hwf. apply Hwf.
      eapply list_elem_of_lookup_2, Hi. }
    destruct (worker_step_trace w k g Hlkp Hw)
      as (w1 & k1 & g1 & mg & new & E & Hlkp1 & Hwf1 & Hmem & Hunm & Hnew
          & Hcases).
    rewrite (bind_ok _ _ _ _ _ E).
    apply IH. split; [done|]. split.
    { apply Forall_insert; done. }
    pose proof (pool_entries_insert pool i w w1 mg new Hi Hunm) as Hperm.
    pose proof (pool_pending_insert pool i w w1 Hi) as Hpend.
    assert ((tr ++ mg) ++ pool_entries (<[i := w1]> pool)
            ≡ₚ (tr ++ pool_entries pool) ++ new) as Hledger.
    { rewrite <- !app_assoc. now apply Permutation_app_head. }
    destruct Hcases as [(Hp & Hp1 & Hkm & Hidx1 & Hw1)
                       |(Hp & Hidx1 & Hw1 & Htot)].
    + exists (tr ++ mg), (S n).
      split; [now rewrite Hmem, Htr, app_assoc|].
      split; [rewrite Hledger; apply Forall_app; done|].
      split.
      { rewrite (write_addrs_perm _ _ Hledger), write_addrs_app, Hw1, Hwr.
        rewrite seq_S, fmap_app. simpl. unfold km_slot_addr at 3.
        now rewrite Hidx. }
      split; [rewrite Hidx1, Hidx; apply to_u64_succ|].
      unfold pending_count in Hpend. rewrite Hp, Hp1 in Hpend.
      rewrite Hkm. lia.
    + exists (tr ++ mg), n.
      split; [now rewrite Hmem, Htr, app_assoc|].
      split; [rewrite Hledger; apply Forall_app; done|].
      split.
      { rewrite (write_addrs_perm _ _ Hledger), write_addrs_app, Hw1.
        now rewrite app_nil_r. }
      split; [congruence|].
      unfold pending_count in Hpend at 1. rewrite Hp in Hpend. lia.
Qed.

End LookupTrace.

Lemma idle_pool (pool : list Worker) :
  Forall (fun w => unmerged w = [] /\ w_pending w = false) pool ->
  pool_entries pool = [] /\ pool_pending pool = 0%nat.
Proof.
  unfold pool_entries, pool_pending.
  induction 1 as [|w pool [Hu Hp] _ [IH1 IH2]]; [done|].
  rewrite !fmap_cons, join_cons_app, Hu, IH1.
  cbn [sum_list sum_list_with app]. rewrite IH2.
  unfold pending_count. now rewrite Hp.
Qed.

Lemma lkp_inv_idle (g_config : Config) (base : list MemoryAccessEntry)
    (pool pool' : list Worker) (k : KmState) (g : Globals) :
  Forall (fun w => unmerged w = [] /\ w_pending w = false) pool ->
  Forall (fun w => unmerged w = [] /\ w_pending w = false) pool' ->
  Forall worker_wf pool' ->
  lkp_inv g_config base pool k g -> lkp_inv g_config base pool' k g.
Proof.
  intros Hidle Hidle' Hwf' (Hlkp & _ & tr & n & Hinv).
  destruct (idle_pool pool Hidle) as [He Hp].
  destruct (idle_pool pool' Hidle') as [He' Hp'].
  split; [done|]. split; [done|]. exists tr, n.
  rewrite He, Hp in Hinv. rewrite He', Hp'. exact Hinv.
Qed.

Lemma spawn_workers_fresh (batch_start current_batch_size n : nat) :
  Forall (fun w => (unmerged w = [] /\ w_pending w = false) /\ worker_wf w)
         (spawn_workers batch_start current_batch_size n).
Proof.
  apply Forall_forall. intros w Hw. unfold spawn_workers in Hw.
  apply list_elem_of_omap in Hw as (tid & _ & Hw).
  destruct (decide _); [|done]. injection Hw as <-.
  unfold unmerged, worker_wf. simpl. done.
Qed.

Section LookupTraceTheorem.

Context (g_config : Config).
Context (uniq_coords : list IndexedCoord) (qry_keys_v : list IndexedCoord)
        (qry_off_idx_v : list Z)
        (tiles_v : list (list IndexedCoord)) (pivs : list IndexedCoord)
        (tile_size_param : Z).

(** One batch keeps the invariant of the lookup: at the join no worker
    holds an entry back or has a write offset to draw. *)
Lemma run_batch_trace (base : list MemoryAccessEntry) (sched : list nat)
    (batch_idx : nat) (k : KmState) (g : Globals) :
  lkp_inv g_config base [] k g ->
  exists k' g',
    run_batch g_config uniq_coords qry_keys_v qry_off_idx_v tiles_v pivs
              tile_size_param sched batch_idx k g = Ok k' g'
    /\ lkp_inv g_config base [] k' g'.
Proof.
  intros Hinv. unfold run_batch.
  set (pool0 := spawn_workers _ _ _).
  pose proof (spawn_workers_fresh (batch_idx * BATCH_SIZE)
                (Nat.min BATCH_SIZE
                   (length qry_keys_v - batch_idx * BATCH_SIZE))
                (Z.to_nat (to_u32 (NUM_THREADS g_config)))) as Hfresh.
  fold pool0 in Hfresh. apply Forall_and in Hfresh as [Hidle0 Hwf0].
  assert (lkp_inv g_config base pool0 k g) as Hinv0.
  { eapply (lkp_inv_idle _ _ []); [constructor|exact Hidle0|exact Hwf0|].
    exact Hinv. }
  destruct (run_schedule_trace g_config uniq_coords qry_keys_v
              qry_off_idx_v tiles_v pivs tile_size_param base sched pool0 k
              g Hinv0) as (pool1 & k1 & g1 & E1 & Hinv1).
  rewrite (bind_ok _ _ _ _ _ E1).
  destruct (run_schedule_trace g_config uniq_coords qry_keys_v
              qry_off_idx_v tiles_v pivs tile_size_param base
              (join_schedule pool1) pool1 k1 g1 Hinv1)
    as (pool2 & k2 & g2 & E2 & Hinv2).
  rewrite (bind_ok _ _ _ _ _ E2).
  exists k2, g2. split; [reflexivity|].
  assert (phase_ok g1) as Hg1.
  { destruct Hinv1 as [Hlkp _]. unfold phase_ok. rewrite Hlkp. by eexists. }
  destruct (run_schedule_inv g_config uniq_coords qry_keys_v qry_off_idx_v
              tiles_v pivs tile_size_param (join_schedule pool1) pool1 k1 g1
              Hg1)
    as (pool2' & k2' & g2' & log2 & E2' & _ & _ & _ & Hlen2 & Hw).
  rewrite E2 in E2'. injection E2' as <- <- <-.
  eapply (lkp_inv_idle _ _ pool2); [|constructor|constructor|exact Hinv2].
  apply Forall_forall. intros w2 Hin.
  apply list_elem_of_lookup in Hin as [i Hi].
  apply lookup_lt_Some in Hi as Hlt. rewrite Hlen2 in Hlt.
  destruct (lookup_lt_is_Some_2 pool1 i Hlt) as [w1 Hw1].
  destruct (Hw i w1 Hw1) as (w2' & Hw2' & Hle).
  rewrite Hi in Hw2'. injection Hw2' as <-.
  rewrite (quanta_join_schedule pool1 i w1 Hw1) in Hle.
  pose proof (work_left_quanta_left w1) as Hq.
  unfold work_left in Hle, Hq. unfold unmerged.
  destruct (w_pending w2), (w_merged w2), (w_pending w1), (w_merged w1);
    (split; [done|done]) || lia.
Qed.

Lemma run_batches_trace (base : list MemoryAccessEntry)
    (scheds : nat -> list nat) (batches : list nat) :
  forall (k : KmState) (g : Globals),
    lkp_inv g_config base [] k g ->
    exists k' g',
      run_batches g_config uniq_coords qry_keys_v qry_off_idx_v tiles_v pivs
                  tile_size_param scheds batches k g = Ok k' g'
      /\ lkp_inv g_config base [] k' g'.
Proof.
  induction batches as [|b batches IH]; intros k g Hinv.
  - exists k, g. split; [reflexivity|done].
  - cbn [run_batches]. destruct (decide _).
    + exists k, g. split; [reflexivity|done].
    + destruct (run_batch_trace base (scheds b) b k g Hinv)
        as (k1 & g1 & E1 & Hinv1).
      rewrite (bind_ok _ _ _ _ _ E1). now apply IH.
Qed.

(** The lookup with its trace. *)
Lemma perform_coordinate_lookup_trace (scheds : nat -> list nat)
    (g : Globals) :
  exists kmap g' tr,
    perform_coordinate_lookup g_config uniq_coords qry_keys_v qry_off_idx_v
      tiles_v pivs tile_size_param scheds g = Ok kmap g'
    /\ mem_trace g' = mem_trace g ++ tr
    /\ Forall (fun e => phase e = 4) tr
    /\ write_addrs tr ≡ₚ km_slot_addr g_config <$> seq 0 (total_matches kmap).
Proof.
  unfold perform_coordinate_lookup.
  rewrite (bind_ok _ _ g "LKP"%string g) by reflexivity.
  rewrite (bind_ok _ _ g tt (mkGlobals (mem_trace g) "LKP")) by reflexivity.
  destruct (decide (uniq_coords = [] \/ qry_keys_v = [])) as [Hempty|Hne].
  - exists ∅, (mkGlobals (mem_trace g) "LKP"), [].
    split; [reflexivity|]. simpl. rewrite app_nil_r, total_matches_empty.
    repeat split; try done; constructor.
  - assert (lkp_inv g_config (mem_trace g) [] (mkKm ∅ 0)
                    (mkGlobals (mem_trace g) "LKP")) as Hinv.
    { split; [done|]. split; [constructor|]. exists [], 0%nat.
      simpl. rewrite app_nil_r, total_matches_empty.
      repeat split; try done; constructor. }
    destruct (run_batches_trace (mem_trace g) scheds
                (seq 0 ((length qry_keys_v + BATCH_SIZE - 1) / BATCH_SIZE))
                _ _ Hinv)
      as (k' & g' & E & _ & _ & tr & n & Htr & Hall & Hwr & _ & Hcnt).
    rewrite (bind_ok _ _ _ _ _ E).
    exists (km_map k'), (mkGlobals (mem_trace g') ""), tr.
    split; [reflexivity|].
    change (pool_entries []) with (@nil MemoryAccessEntry) in *.
    change (pool_pending []) with 0%nat in Hcnt.
    rewrite app_nil_r in Hall, Hwr. rewrite Nat.add_0_r in Hcnt. subst n.
    split; [exact Htr|]. split; [exact Hall|exact Hwr].
Qed.

(** X22. Whatever the interleaving of its workers,
    [perform_coordinate_lookup] only appends to the trace; every entry it
    appends is tagged LKP; and the write entries among them are as many as
    the kernel map has pairs, their addresses being those of the slots
    [0, 1, ..., M - 1] of the array at [KM_BASE] (the slot number taken as a
    64-bit counter), each slot exactly once: no two matches ever draw the
    same write offset. *)
Theorem lookup_trace (scheds : nat -> list nat) (g : Globals) :
  0 < to_u32 (NUM_THREADS g_config) ->
  exists kmap g' tr,
    perform_coordinate_lookup g_config uniq_coords qry_keys_v qry_off_idx_v
      tiles_v pivs tile_size_param scheds g = Ok kmap g'
    /\ mem_trace g' = mem_trace g ++ tr
    /\ Forall (fun e => phase e = 4) tr
    /\ addr <$> filter (fun e => op e = 1) tr
       ≡ₚ (fun i : nat =>
             elem_addr (KM_BASE g_config) (to_u64 (Z.of_nat i))
                       (SIZE_INT g_config))
            <$> seq 0 (total_matches kmap)
    /\ length (filter (fun e => op e = 1) tr) = total_matches kmap.
Proof.
  intros _.
  destruct (perform_coordinate_lookup_trace scheds g)
    as (kmap & g' & tr & E & Htr & Hall & Hwr).
  exists kmap, g', tr. split; [exact E|]. split; [exact Htr|].
  split; [exact Hall|]. split; [exact Hwr|].
  apply Permutation_length in Hwr. unfold write_addrs in Hwr.
  now rewrite !length_fmap, length_seq in Hwr.
Qed.

End LookupTraceTheorem.

Lemma lookup_trace_witness :
  0 < to_u32 (NUM_THREADS example_config)
  /\ exists kmap g' tr,
       perform_coordinate_lookup example_config [lone_pivot] [lone_pivot]
         [0] [[lone_pivot]] [lone_pivot] 1 sequential initial_globals
       = Ok kmap g'
       /\ mem_trace g' = mem_trace initial_globals ++ tr
       /\ length (filter (fun e => op e = 1) tr) = total_matches kmap.
Proof.
  split; [reflexivity|].
  destruct (lookup_trace example_config [lone_pivot] [lone_pivot] [0]
              [[lone_pivot]] [lone_pivot] 1 sequential initial_globals
              eq_refl)
    as (kmap & g' & tr & E & Hmem & _ & _ & Hlen).
  exists kmap, g', tr. split; [exact E|]. split; [exact Hmem|exact Hlen].
Defined.

(** ** The code tables *)

Lemma forward_find_elem (d : bidict) (n : string) (c : Z) :
  NoDup d.*1 -> (forward_find d n = Some c <-> (n, c) ∈ d).
Proof.
  induction d as [|[n' c'] d IH]; intros Hnd; simpl.
  - split; [done|]. intros H. by apply elem_of_nil in H.
  - rewrite fmap_cons in Hnd. apply NoDup_cons in Hnd as [Hn' Hnd].
    destruct (decide (n' = n)) as [->|Hne].
    + split; [intros [= ->]; left|].
      intros H. apply elem_of_cons in H as [[= ->]|H]; [done|].
      exfalso. apply Hn'. apply list_elem_of_fmap. by exists (n, c).
    + rewrite (IH Hnd). split; [now right|].
      intros H. apply elem_of_cons in H as [[= -> ->]|H]; done.
Qed.

Lemma inverse_find_elem (d : bidict) (n : string) (c : Z) :
  NoDup d.*2 -> (inverse_find d c = Some n <-> (n, c) ∈ d).
Proof.
  induction d as [|[n' c'] d IH]; intros Hnd; simpl.
  - split; [done|]. intros H. by apply elem_of_nil in H.
  - rewrite fmap_cons in Hnd. apply NoDup_cons in Hnd as [Hc' Hnd].
    destruct (decide (c' = c)) as [->|Hne].
    + split; [intros [= ->]; left|].
      intros H. apply elem_of_cons in H as [[= ->]|H]; [done|].
      exfalso. apply Hc'. apply list_elem_of_fmap. by exists (n, c).
    + rewrite (IH Hnd). split; [now right|].
      intros H. apply elem_of_cons in H as [[= -> ->]|H]; done.
Qed.

(** X23. Each of the three code tables PHASES, TENSORS and OPS pairs its
    names and its codes one to one: a name has the code [c] exactly when
    [c] has that name, so a lookup one way followed by the lookup the other
    way gives back what it started from.  In particular the codes the
    phases and the tracing functions look up by number, 0, 1, 3 and 4 in
    PHASES and 1 in OPS, name RDX, QRY, PVT, LKP and W. *)
Theorem code_tables_one_to_one :
  (forall d, d ∈ [PHASES; TENSORS; OPS] ->
     forall (n : string) (c : Z) (g : Globals),
       forward_at d n g = Ok c g <-> inverse_at d c g = Ok n g)
  /\ inverse_find PHASES <$> [0; 1; 3; 4]
     = [Some "RDX"; Some "QRY"; Some "PVT"; Some "LKP"]%string
  /\ inverse_find OPS 1 = Some "W"%string.
Proof.
  split; [|split; reflexivity].
  intros d Hd n c g.
  assert (NoDup d.*1 /\ NoDup d.*2) as [H1 H2].
  { repeat (apply elem_of_cons in Hd as [->|Hd];
            [split; compute_done|]).
    by apply elem_of_nil in Hd. }
  unfold forward_at, inverse_at.
  pose proof (forward_find_elem d n c H1) as Hf.
  pose proof (inverse_find_elem d n c H2) as Hi.
  split.
  - destruct (forward_find d n) as [c'|] eqn:E; [|done].
    intros [= ->]. rewrite (proj2 Hi (proj1 Hf eq_refl)). done.
  - destruct (inverse_find d c) as [n'|] eqn:E; [|done].
    intros [= ->]. rewrite (proj2 Hf (proj1 Hi eq_refl)). done.
Qed.

(** ** The tile scan, read by read *)

Section TileReads.

Context (g_config : Config).
Context (uniq_coords : list IndexedCoord) (tile_size_param : Z).

Lemma tile_scan_exact (tid key target P : Z) (g : Globals) (ph : Z) :
  forward_find PHASES (curr_phase g) = Some ph ->
  target * tile_size_param = P -> 0 <= P ->
  Z.of_nat (length uniq_coords) <= INT_MAX ->
  forall (rest : list IndexedCoord) (idx : nat) local,
    P + Z.of_nat (idx + length rest) <= Z.of_nat (length uniq_coords) ->
    exists tr,
      tile_scan g_config uniq_coords tile_size_param tid key target idx rest
                local g
      = Ok (tile_match key rest, local ++ tr) g
      /\ tr = (fun j : nat =>
                 entry_of g_config ph tid 0
                   (elem_addr (TILE_BASE g_config)
                              (P + Z.of_nat (idx + j)) (SIZE_KEY g_config)))
                <$> seq 0 (scan_reads key rest).
Proof.
  intros Hph HP HP0 HU rest.
  induction rest as [|ic rest IH]; intros idx local Hfit.
  - exists []. simpl. rewrite app_nil_r. done.
  - cbn [tile_scan tile_match scan_reads]. cbn [length] in Hfit.
    assert (to_u64 (target * tile_size_param + Z.of_nat idx)
            = P + Z.of_nat idx) as Hu.
    { rewrite HP. unfold to_u64, UINT64_MOD. apply Z.mod_small.
      unfold INT_MAX in *. lia. }
    rewrite Hu. rewrite decide_False by lia.
    rewrite (bind_ok _ _ _ _ _
               (record_access_local_entry g_config tid "R" _ 0 ph local g
                  Hph eq_refl)).
    set (e := entry_of g_config ph tid 0
                (elem_addr (TILE_BASE g_config) (P + Z.of_nat idx)
                           (SIZE_KEY g_config))).
    destruct (decide (ic_to_key ic = key)).
    + exists [e]. split; [done|]. simpl. unfold e.
      now rewrite Nat.add_0_r.
    + destruct (IH (S idx) (local ++ [e]) ltac:(lia)) as (tr & E & ->).
      eexists (e :: _). rewrite E, <- app_assoc. split; [done|].
      cbn [seq fmap list_fmap]. unfold e. rewrite Nat.add_0_r. f_equal.
      rewrite <- fmap_S_seq, <- list_fmap_compose.
      apply list_fmap_ext. intros _ j _. unfold compose.
      now replace (S idx + j)%nat with (idx + S j)%nat by lia.
Qed.

Lemma scan_reads_le (key : Z) (tile : list IndexedCoord) :
  (scan_reads key tile <= length tile)%nat.
Proof.
  induction tile as [|ic tile IH]; simpl; [lia|].
  destruct (decide _); lia.
Qed.

(** X24. The scan of a tile made by [create_tiles_and_pivots] reads the
    elements where they are: for tile [t] of the sequence cut every [c]
    elements, the read of the element at place [j] of the tile is recorded
    at the address of element [t * c + j] of the array at [TILE_BASE],
    which is the place of that element in the unique coordinates; the
    clamp of the index to the last element is never used.  The scan stops
    at the first element with the query key. *)
Theorem tile_reads_in_place (tid key : Z) (t : nat)
    (local : list MemoryAccessEntry) (g : Globals) (ph : Z) :
  forward_find PHASES (curr_phase g) = Some ph ->
  Z.of_nat (length uniq_coords) <= INT_MAX ->
  let c := effective_tile_size uniq_coords tile_size_param in
  let tile := tile_at uniq_coords c t in
  (t < tile_count (length uniq_coords) c)%nat ->
  exists tr,
    tile_scan g_config uniq_coords tile_size_param tid key (Z.of_nat t) 0
              tile local g
    = Ok (tile_match key tile, local ++ tr) g
    /\ length tr = scan_reads key tile
    /\ forall (j : nat) e,
         tr !! j = Some e ->
         op e = 0
         /\ addr e = elem_addr (TILE_BASE g_config) (Z.of_nat (t * c + j))
                       (SIZE_KEY g_config)
         /\ is_Some (tile !! j)
         /\ tile !! j = uniq_coords !! (t * c + j)%nat.
Proof.
  intros Hph HU c tile Ht.
  assert (0 < c)%nat as Hc.
  { destruct (decide (0 < c)%nat); [done|].
    replace c with 0%nat in Ht by lia.
    unfold tile_count in Ht. simpl in Ht. lia. }
  assert (t * c < length uniq_coords)%nat as Hlt.
  { destruct (decide (t * c < length uniq_coords)%nat); [done|].
    pose proof (tile_count_done (length uniq_coords) c t Hc). lia. }
  assert (Z.of_nat t * tile_size_param = Z.of_nat (t * c)) as HP.
  { unfold c, effective_tile_size in *.
    destruct (decide (tile_size_param <= 0)).
    - assert (t = 0)%nat as ->; [|simpl; lia].
      unfold tile_count in Ht.
      assert ((length uniq_coords + length uniq_coords - 1)
                / length uniq_coords < 2)%nat; [|lia].
      apply Nat.Div0.div_lt_upper_bound. lia.
    - lia. }
  assert (length tile <= length uniq_coords - t * c)%nat as Hlen.
  { unfold tile, tile_at. rewrite length_take, length_drop. lia. }
  destruct (tile_scan_exact tid key (Z.of_nat t) (Z.of_nat (t * c)) g ph Hph
              HP ltac:(lia) HU tile 0 local ltac:(simpl; lia))
    as (tr & E & Htr).
  exists tr. split; [exact E|].
  split; [rewrite Htr; now rewrite length_fmap, length_seq|].
  intros j e Hj. rewrite Htr in Hj.
  apply list_lookup_fmap_Some_1 in Hj as (j' & -> & Hj').
  apply lookup_seq in Hj' as [-> Hjlt]. cbn [Nat.add] in *.
  pose proof (scan_reads_le key tile) as Hle.
  split; [reflexivity|].
  split; [unfold entry_of; cbn [addr]; f_equal; lia|].
  split; [apply lookup_lt_is_Some; lia|].
  assert (length tile <= c)%nat as Hlc.
  { unfold tile, tile_at. rewrite length_take. lia. }
  unfold tile, tile_at. rewrite lookup_take_lt by lia.
  now rewrite lookup_drop.
Qed.

End TileReads.

Lemma tile_reads_in_place_witness :
  forward_find PHASES (curr_phase lkp_globals) = Some 4
  /\ Z.of_nat (length scenario_unique) <= INT_MAX
  /\ (1 < tile_count (length scenario_unique)
            (effective_tile_size scenario_unique 1))%nat
  /\ exists tr,
       tile_scan example_config scenario_unique 1 0 1048576 (Z.of_nat 1) 0
         (tile_at scenario_unique (effective_tile_size scenario_unique 1) 1)
         [] lkp_globals
       = Ok (tile_match 1048576
               (tile_at scenario_unique
                  (effective_tile_size scenario_unique 1) 1),
             [] ++ tr) lkp_globals
       /\ length tr = 1%nat.
Proof.
  split; [reflexivity|]. split; [unfold INT_MAX; simpl; lia|].
  split; [vm_compute; lia|].
  destruct (tile_reads_in_place example_config scenario_unique 1 0 1048576
              1 [] lkp_globals 4 eq_refl
              ltac:(unfold INT_MAX; simpl; lia)
              ltac:(vm_compute; lia))
    as (tr & E & Hlen & _).
  exists tr. split; [exact E|exact Hlen].
Defined.

(** ** The trace of the pipeline *)

Section PipelineTrace.

Context (g_config : Config).

(** X25. The trace of a run of the pipeline is the trace it started with,
    then the [12 * N] accesses of RDX, then one pivot write per tile, then
    the accesses of the lookup, all tagged LKP and with as many writes as
    the kernel map has pairs; QRY records nothing.  This holds for every
    interleaving of the lookup workers; sizes are within the range of
    [int]. *)
Theorem pipeline_trace (in_coords : list Coord3D) (stride : Z)
    (off_coords : list Coord3D) (tile_size : Z) (scheds : nat -> list nat)
    (g : Globals) :
  0 < to_u32 (NUM_THREADS g_config) ->
  Z.of_nat (length in_coords) <= INT_MAX ->
  tile_size <= INT_MAX ->
  exists uc Q T kmap g' lkp,
    run_pipeline g_config in_coords stride off_coords tile_size scheds g
    = Ok (uc, Q, T, kmap) g'
    /\ mem_trace g'
       = mem_trace g
         ++ radix_trace g_config 0 (length in_coords) (I_BASE g_config)
         ++ pivot_writes g_config (length (tiles T))
         ++ lkp
    /\ length (radix_trace g_config 0 (length in_coords) (I_BASE g_config))
       = (12 * length in_coords)%nat
    /\ length (tiles T)
       = tile_count (length uc) (effective_tile_size uc tile_size)
    /\ Forall (fun e => phase e = 4) lkp
    /\ length (filter (fun e => op e = 1) lkp) = total_matches kmap.
Proof.
  intros Hth Hin Hts.
  pose proof (compute_unique_sorted_coords_trace g_config in_coords stride
                g (threads_nonzero g_config Hth)) as E1.
  set (uc := dedup_sorted _) in E1.
  assert (length uc <= length in_coords)%nat as Hlen.
  { destruct (rdx_facts g_config in_coords stride g
                (threads_nonzero g_config Hth) ltac:(lia))
      as (uc' & g1' & E1' & Hl & _).
    rewrite E1 in E1'. injection E1' as <- _. exact Hl. }
  set (g1 := mkGlobals _ "RDX") in E1.
  destruct (build_coordinate_queries_run uc stride off_coords g1)
    as (Q & E2 & _).
  pose proof (create_tiles_and_pivots_trace g_config uc tile_size
                (mkGlobals (mem_trace g1) "QRY") ltac:(lia) Hts) as E3.
  cbv zeta in E3.
  set (T := mkTiles _ _) in E3. set (g3 := mkGlobals _ "PVT") in E3.
  destruct (perform_coordinate_lookup_trace g_config uc (qry_keys Q)
              (qry_off_idx Q) (tiles T) (pivots T) tile_size scheds g3)
    as (kmap & g' & lkp & E4 & Htr & Hall & Hwr).
  exists uc, Q, T, kmap, g', lkp. split.
  { unfold run_pipeline.
    rewrite (bind_ok _ _ _ _ _ E1), (bind_ok _ _ _ _ _ E2).
    rewrite (bind_ok _ _ _ _ _ E3), (bind_ok _ _ _ _ _ E4). reflexivity. }
  split.
  { rewrite Htr. unfold g3, g1, T, pivot_writes. cbn [mem_trace tiles].
    rewrite length_fmap, length_seq. now rewrite <- !app_assoc. }
  split; [apply radix_trace_length|].
  split; [unfold T; cbn [tiles]; now rewrite length_fmap, length_seq|].
  split; [exact Hall|].
  apply Permutation_length in Hwr. unfold write_addrs in Hwr.
  now rewrite !length_fmap, length_seq in Hwr.
Qed.

End PipelineTrace.

Lemma pipeline_trace_witness :
  0 < to_u32 (NUM_THREADS example_config)
  /\ Z.of_nat (length scenario_coords) <= INT_MAX /\ 1 <= INT_MAX
  /\ exists uc Q T kmap g' lkp,
       run_pipeline example_config scenario_coords 1 scenario_offsets 1
                    sequential initial_globals
       = Ok (uc, Q, T, kmap) g'
       /\ mem_trace g'
          = mem_trace initial_globals
            ++ radix_trace example_config 0 (length scenario_coords)
                 (I_BASE example_config)
            ++ pivot_writes example_config (length (tiles T))
            ++ lkp.
Proof.
  split; [reflexivity|]. split; [unfold INT_MAX; simpl; lia|].
  split; [unfold INT_MAX; lia|].
  destruct (pipeline_trace example_config scenario_coords 1
              scenario_offsets 1 sequential initial_globals eq_refl
              ltac:(unfold INT_MAX; simpl; lia) ltac:(unfold INT_MAX; lia))
    as (uc & Q & T & kmap & g' & lkp & E & Htr & _).
  exists uc, Q, T, kmap, g', lkp. split; [exact E|exact Htr].
Defined.
